(** * Sortable nested list: the reorder engine of [sortable-list.tsx]

    A shallow embedding of the state logic of the [SortableNestedList]
    component: the JavaScript arrays it manipulates, the store of group
    objects and item arrays the React state points into, and the three
    handlers [handleToggleCollapse], [handleDragMove] and [handleDragEnd]. *)

From Stdlib Require Import Ascii.
From stdpp Require Import gmap strings pretty list fin_maps.

Local Open Scope Z_scope.

(** ** JavaScript arrays

    An array is a list; a slot holding [undefined] is [None].  Indices
    are numbers ([Z]): [findIndex] answers [-1] on a miss and [splice]
    counts a negative start from the end. *)

Module JsArray.

Section ops.
Context {A : Type}.

(** [arr[i]]: a negative or too large index reads [undefined]. *)
Definition index (l : list (option A)) (i : Z) : option A :=
  if decide (i < 0) then None else mjoin (l !! Z.to_nat i).

(** The clamping of [start] in [Array.prototype.splice]. *)
Definition actualStart (start : Z) (len : nat) : nat :=
  if decide (start < 0) then Z.to_nat (Z.max (Z.of_nat len + start) 0)
  else Nat.min (Z.to_nat start) len.

(** [l.splice(start, deleteCount, ...ins)]: the removed elements and
    the array left behind. *)
Definition splice (start : Z) (deleteCount : nat) (ins l : list A)
  : list A * list A :=
  let s := actualStart start (length l) in
  let dc := Nat.min deleteCount (length l - s) in
  (take dc (drop s l), take s l ++ ins ++ drop (s + dc) l).

(** [const [x] = removed]: the first element, [undefined] if none. *)
Definition first (removed : list (option A)) : option A :=
  mjoin (head removed).
End ops.

(** Modelled from the spec: [arrayMove] is imported from the package
    [@dnd-kit/sortable], whose body is not among the sources; the spec
    gives it as "splice out, then splice in at the new index".  The
    package's function is
    [newArray = array.slice();
     newArray.splice(to < 0 ? newArray.length + to : to, 0,
                     newArray.splice(from, 1)[0])],
    whose arguments are evaluated left to right: the insertion index is
    fixed before the element is taken out. *)
Definition arrayMove {A} (array : list (option A)) (from to : Z)
  : list (option A) :=
  let newArray := array in
  let at_ := if decide (to < 0) then Z.of_nat (length newArray) + to else to in
  let '(removed, rest) := splice from 1 [] newArray in
  snd (splice at_ 0 [first removed] rest).

End JsArray.
Import JsArray.

(** ** Data model *)

(** [interface Item]. *)
Record Item := mkItem { item_id : string; content : string }.

Abbreviation loc := positive.

(** [interface Group]: an object of the store.  Its [items] field holds
    a reference to an array, [isCollapsed] is optional. *)
Record GroupObj := mkGroupObj {
  group_id : string;
  title : string;
  items : loc;
  isCollapsed : option bool
}.

(** [interface DropIndicator]; [itemIndex = None] is [null].  The
    handler stores whatever group id the event carries, [undefined]
    included. *)
Record DropIndicator := mkDropIndicator {
  groupId : option string;
  itemIndex : option Z
}.

#[global] Instance Item_eq_dec : EqDecision Item.
Proof. solve_decision. Defined.
#[global] Instance GroupObj_eq_dec : EqDecision GroupObj.
Proof. solve_decision. Defined.
#[global] Instance DropIndicator_eq_dec : EqDecision DropIndicator.
Proof. solve_decision. Defined.

(** The store: group objects and item arrays, both reached by reference. *)
Record heap := mkHeap {
  objs : gmap loc GroupObj;
  arrs : gmap loc (list (option Item))
}.

(** The [groups] state: an array of references to group objects. *)
Abbreviation gref := (option loc).

(** ** Exceptions and state *)

Inductive exn :=
| TypeError   (* property access on [undefined] *)
| Dangling.   (* a reference without a cell: no JavaScript store has one *)

Inductive outcome (A : Type) :=
| Ok (a : A)
| Throw (e : exn).
Arguments Ok {A} a.
Arguments Throw {A} e.

Definition M (A : Type) : Type := heap → outcome A * heap.

Definition ret {A} (a : A) : M A := λ h, (Ok a, h).
Definition throw {A} (e : exn) : M A := λ h, (Throw e, h).
Definition bind {A B} (m : M A) (k : A → M B) : M B :=
  λ h, match m h with
       | (Ok a, h') => k a h'
       | (Throw e, h') => (Throw e, h')
       end.

Notation "'let*' x ':=' m 'in' k" := (bind m (λ x, k))
  (at level 10, x name, m at level 100, k at level 200,
   format "'let*'  x  :=  m  'in'  '/' k").

(** [arr.findIndex(p)], the callback running in the store. *)
Fixpoint findIndex_from {A} (p : A → M bool) (l : list A) (i : Z) : M Z :=
  match l with
  | [] => ret (-1)
  | x :: l' => let* b := p x in if b : bool then ret i else findIndex_from p l' (i + 1)
  end.
Definition findIndex {A} (p : A → M bool) (l : list A) : M Z :=
  findIndex_from p l 0.

(** *** Store access *)

(** Reading a property of [g]: a [TypeError] when [g] is [undefined]. *)
Definition deref (g : gref) : M GroupObj := λ h,
  match g with
  | None => (Throw TypeError, h)
  | Some l => match objs h !! l with
              | Some o => (Ok o, h)
              | None => (Throw Dangling, h)
              end
  end.

Definition read_arr (a : loc) : M (list (option Item)) := λ h,
  match arrs h !! a with
  | Some l => (Ok l, h)
  | None => (Throw Dangling, h)
  end.

Definition write_arr (a : loc) (l : list (option Item)) : M unit := λ h,
  (Ok (), mkHeap (objs h) (<[a := l]> (arrs h))).

(** A new array. *)
Definition alloc_arr (l : list (option Item)) : M loc := λ h,
  let a := fresh (dom (arrs h)) in
  (Ok a, mkHeap (objs h) (<[a := l]> (arrs h))).

(** A new object. *)
Definition alloc_obj (o : GroupObj) : M gref := λ h,
  let l := fresh (dom (objs h)) in
  (Ok (Some l), mkHeap (<[l := o]> (objs h)) (arrs h)).

(** [g.items = a]. *)
Definition set_items (g : gref) (a : loc) : M unit :=
  let* o := deref g in
  λ h, match g with
       | Some l => (Ok (), mkHeap (<[l := mkGroupObj (group_id o) (title o) a (isCollapsed o)]> (objs h)) (arrs h))
       | None => (Throw TypeError, h)
       end.

(** [a.splice(start, deleteCount, ...ins)] on the array at [a]. *)
Definition splice_at (a : loc) (start : Z) (deleteCount : nat)
    (ins : list (option Item)) : M (list (option Item)) :=
  let* l := read_arr a in
  let '(removed, l') := splice start deleteCount ins l in
  let* _ := write_arr a l' in
  ret removed.

(** [a.push(x)]. *)
Definition push (a : loc) (x : option Item) : M unit :=
  let* l := read_arr a in
  write_arr a (l ++ [x]).

(** [(g) => g.id === key]; a key that is [undefined] matches nothing. *)
Definition group_id_is (key : option string) (g : gref) : M bool :=
  let* o := deref g in ret (bool_decide (Some (group_id o) = key)).

(** [(i) => i.id === key]. *)
Definition item_id_is (key : string) (i : option Item) : M bool :=
  match i with
  | None => throw TypeError
  | Some it => ret (bool_decide (item_id it = key))
  end.

(** [updatedGroups[k].items]. *)
Definition items_of (updatedGroups : list gref) (k : Z) : M loc :=
  let* o := deref (index updatedGroups k) in ret (items o).

(** ** Gesture events *)

(** The [type] tag a draggable registers in [data.current]. *)
Inductive dataType := TGroup | TItem | TEmpty.

#[global] Instance dataType_eq_dec : EqDecision dataType.
Proof. solve_decision. Defined.

(** [data.current]: the tag ([None] when [data.current] is absent or
    carries another tag) and the owning group's id ([None] when the
    property is [undefined]). *)
Record Data := mkData {
  data_type : option dataType;
  data_groupId : option string
}.

(** [event.active] and [event.over]. *)
Record Draggable := mkDraggable { drag_id : string; data : Data }.

(** [DragStartEvent], [DragMoveEvent], [DragEndEvent]. *)
Record DragEvent := mkDragEvent { active : Draggable; over : option Draggable }.

(** The component's state: [groups], [activeId], [activeData] and
    [dropIndicator]. *)
Record State := mkState {
  groups : list gref;
  activeId : option string;
  activeData : option Data;
  dropIndicator : option DropIndicator
}.

Definition setGroups (gs : list gref) (st : State) : State :=
  mkState gs (activeId st) (activeData st) (dropIndicator st).
Definition setDropIndicator (d : option DropIndicator) (st : State) : State :=
  mkState (groups st) (activeId st) (activeData st) d.

(** ** [getItemNumber]: the match of [/item-(\d+)/] and [parseInt] *)

Definition is_digit (c : ascii) : bool :=
  let n := nat_of_ascii c in (48 <=? n)%nat && (n <=? 57)%nat.

(** The longest run of digits at the head of [s]. *)
Fixpoint take_digits (s : string) : list ascii :=
  match s with
  | String c s' => if is_digit c then c :: take_digits s' else []
  | EmptyString => []
  end.

Fixpoint strip_prefix (p s : string) : option string :=
  match p, s with
  | EmptyString, _ => Some s
  | String a p', String b s' => if Ascii.eqb a b then strip_prefix p' s' else None
  | String _ _, EmptyString => None
  end.

(** The capture group of the leftmost match of [/item-(\d+)/]. *)
Fixpoint match_item (s : string) : option (list ascii) :=
  let here :=
    match strip_prefix "item-" s with
    | Some r => match take_digits r with [] => None | ds => Some ds end
    | None => None
    end in
  match here, s with
  | Some ds, _ => Some ds
  | None, String _ s' => match_item s'
  | None, EmptyString => None
  end.

(** [Number.parseInt(ds, 10)] on a run of digits: the integer they
    write.  JavaScript holds it in a double, which is that integer as
    long as it is below [2^53]. *)
Definition digit_value (c : ascii) : Z := Z.of_nat (nat_of_ascii c) - 48.
Definition parseInt (ds : list ascii) : Z :=
  fold_left (λ acc c, 10 * acc + digit_value c) ds 0.

Definition getItemNumber (itemId : string) : option Z :=
  parseInt <$> match_item itemId.

(** ** The handlers *)

(** JavaScript truthiness of an optional flag and of an optional string. *)
Definition truthy_flag (b : option bool) : bool := default false b.
Definition truthy (s : option string) : bool :=
  match s with
  | Some s => negb (String.eqb s "")
  | None => false
  end.

(** [arr.map(f)]. *)
Fixpoint map_arr {A B} (f : A → M B) (l : list A) : M (list B) :=
  match l with
  | [] => ret []
  | x :: l' => let* y := f x in let* ys := map_arr f l' in ret (y :: ys)
  end.

(** [group.id === groupId ? { ...group, isCollapsed: !group.isCollapsed } : group] *)
Definition toggle (groupId : string) (group : gref) : M gref :=
  let* o := deref group in
  if bool_decide (group_id o = groupId)
  then alloc_obj (mkGroupObj (group_id o) (title o) (items o)
                    (Some (negb (truthy_flag (isCollapsed o)))))
  else ret group.

Definition handleToggleCollapse (groupId : string) (st : State) : M State :=
  let* gs := map_arr (toggle groupId) (groups st) in
  ret (setGroups gs st).

Definition handleDragStart (ev : DragEvent) (st : State) : State :=
  mkState (groups st) (Some (drag_id (active ev))) (Some (data (active ev)))
    (dropIndicator st).

Definition handleDragMove (ev : DragEvent) (st : State) : State :=
  match over ev with
  | None => setDropIndicator None st
  | Some ov =>
    if negb (bool_decide (data_type (data (active ev)) = Some TItem))
    then setDropIndicator None st
    else
      let overType := data_type (data ov) in
      let overGroupId :=
        if bool_decide (overType = Some TGroup) then Some (drag_id ov)
        else data_groupId (data ov) in
      match overType with
      | Some TEmpty =>
          setDropIndicator (Some (mkDropIndicator overGroupId None)) st
      | Some TGroup =>
          setDropIndicator (Some (mkDropIndicator (Some (drag_id ov)) (Some 0))) st
      | Some TItem =>
          let overId := drag_id ov in
          match getItemNumber overId with
          | Some overItemNumber =>
              setDropIndicator
                (Some (mkDropIndicator overGroupId (Some (overItemNumber - 1)))) st
          | None => st
          end
      | None => st
      end
  end.

(** [showDropIndicatorBefore] of [SortableItem]: the placeholder is drawn
    before the item whose id is [item-<itemIndex + 1>], the number
    written in decimal ([pretty]). *)
Definition showDropIndicatorBefore (item : Item) (groupId' : string)
    (d : option DropIndicator) : bool :=
  match d with
  | Some d =>
      bool_decide (groupId d = Some groupId') &&
      match itemIndex d with
      | Some n => String.eqb (item_id item) ("item-" +:+ pretty (n + 1))
      | None => false
      end
  | None => false
  end.

(** The updater of the group branch of [handleDragEnd]. *)
Definition moveGroup (activeId overId : string) (overType : option dataType)
    (overGroupId : option string) (groups : list gref) : M (list gref) :=
  let* oldIndex := findIndex (group_id_is (Some activeId)) groups in
  let* newIndex :=
    findIndex (λ group,
      if bool_decide (overType = Some TGroup)
      then group_id_is (Some overId) group
      else group_id_is overGroupId group) groups in
  ret (arrayMove groups oldIndex newIndex).

(** The updater of the branches "empty placeholder" and "group header":
    the two are the same text up to the name of the target's id. *)
Definition moveToEnd (activeId : string) (activeGroup targetGroupId : option string)
    (groups : list gref) : M (list gref) :=
  let updatedGroups := groups in
  let* sourceGroupIndex := findIndex (group_id_is activeGroup) updatedGroups in
  let* src := items_of updatedGroups sourceGroupIndex in
  let* srcItems := read_arr src in
  let* itemIndex := findIndex (item_id_is activeId) srcItems in
  let* src := items_of updatedGroups sourceGroupIndex in
  let* removed := splice_at src itemIndex 1 [] in
  let movedItem := first removed in
  let* targetGroupIndex := findIndex (group_id_is targetGroupId) updatedGroups in
  let* tgt := items_of updatedGroups targetGroupIndex in
  let* _ := push tgt movedItem in
  ret updatedGroups.

(** The updater of the branch "onto another item". *)
Definition moveOntoItem (activeId overId : string) (activeGroup overGroup : option string)
    (groups : list gref) : M (list gref) :=
  let updatedGroups := groups in
  if bool_decide (activeGroup = overGroup) then
    let* groupIndex := findIndex (group_id_is activeGroup) updatedGroups in
    let* arr := items_of updatedGroups groupIndex in
    let* its := read_arr arr in
    let* oldIndex := findIndex (item_id_is activeId) its in
    let* arr := items_of updatedGroups groupIndex in
    let* its := read_arr arr in
    let* newIndex := findIndex (item_id_is overId) its in
    let* arr := items_of updatedGroups groupIndex in
    let* its := read_arr arr in
    let* moved := alloc_arr (arrayMove its oldIndex newIndex) in
    let* _ := set_items (index updatedGroups groupIndex) moved in
    ret updatedGroups
  else
    let* sourceGroupIndex := findIndex (group_id_is activeGroup) updatedGroups in
    let* src := items_of updatedGroups sourceGroupIndex in
    let* srcItems := read_arr src in
    let* itemIndex := findIndex (item_id_is activeId) srcItems in
    let* src := items_of updatedGroups sourceGroupIndex in
    let* removed := splice_at src itemIndex 1 [] in
    let movedItem := first removed in
    let* targetGroupIndex := findIndex (group_id_is overGroup) updatedGroups in
    let* tgt := items_of updatedGroups targetGroupIndex in
    let* tgtItems := read_arr tgt in
    let* targetIndex := findIndex (item_id_is overId) tgtItems in
    let* tgt := items_of updatedGroups targetGroupIndex in
    let* _ := splice_at tgt targetIndex 0 [movedItem] in
    ret updatedGroups.

(** The state update [handleDragEnd] selects for a gesture that ended
    over [ov]; [ret] where no [setGroups] is called. *)
Definition dropUpdater (act ov : Draggable) : list gref → M (list gref) :=
  let activeType := data_type (data act) in
  let overType := data_type (data ov) in
  let overId := drag_id ov in
  if bool_decide (activeType = Some TGroup) && negb (String.eqb (drag_id act) (drag_id ov))
  then
    let overGroupId :=
      if bool_decide (overType = Some TGroup) then Some (drag_id ov)
      else data_groupId (data ov) in
    if truthy overGroupId
    then moveGroup (drag_id act) overId overType overGroupId
    else ret
  else if bool_decide (activeType = Some TItem) then
    let activeGroup := data_groupId (data act) in
    match overType with
    | Some TEmpty =>
        let targetGroupId := data_groupId (data ov) in
        moveToEnd (drag_id act) activeGroup targetGroupId
    | Some TGroup =>
        let overGroup := Some overId in
        moveToEnd (drag_id act) activeGroup overGroup
    | Some TItem =>
        if negb (String.eqb (drag_id act) (drag_id ov))
        then moveOntoItem (drag_id act) overId activeGroup (data_groupId (data ov))
        else ret
    | None => ret
    end
  else ret.

(** [handleDragEnd]: the updater given to [setGroups] runs on the
    current [groups], here as soon as it is given; the transient state is
    cleared.  An exception of the updater leaves the store as it was
    when it was raised.  The updater is run once: what React does with
    an updater that has raised is not in the sources. *)
Definition handleDragEnd (ev : DragEvent) (st : State) : M State :=
  match over ev with
  | None => ret (mkState (groups st) None None None)
  | Some ov =>
      let* gs := dropUpdater (active ev) ov (groups st) in
      ret (mkState gs None None None)
  end.

(** ** The initial state of the component *)

(** A group literal: its items array, then the object. *)
Definition new_group (gid ttl : string) (its : list Item) (c : option bool) : M gref :=
  let* a := alloc_arr (Some <$> its) in
  alloc_obj (mkGroupObj gid ttl a c).

Definition empty_heap : heap := mkHeap ∅ ∅.

Definition initialGroups : M (list gref) :=
  let* g1 := new_group "group-1" "To Do"
    [ mkItem "item-1" "Research project requirements";
      mkItem "item-2" "Create project plan";
      mkItem "item-3" "Set up development environment" ] None in
  let* g2 := new_group "group-2" "In Progress"
    [ mkItem "item-4" "Implement core features";
      mkItem "item-5" "Design user interface" ] None in
  let* g3 := new_group "group-3" "Completed"
    [ mkItem "item-6" "Project kickoff meeting";
      mkItem "item-7" "Requirements gathering" ] None in
  ret [g1; g2; g3].

(** ** Reading a model out of the store *)

(** A group as the store holds it, by value: slots of [items] may be
    [undefined]. *)
Record RawGroup := mkRawGroup {
  r_id : string;
  r_title : string;
  r_items : list (option Item);
  r_isCollapsed : option bool
}.

#[global] Instance RawGroup_eq_dec : EqDecision RawGroup.
Proof. solve_decision. Defined.

Definition view (h : heap) (g : gref) : option (option RawGroup) :=
  match g with
  | None => Some None
  | Some l =>
      o ← objs h !! l;
      its ← arrs h !! items o;
      Some (Some (mkRawGroup (group_id o) (title o) its (isCollapsed o)))
  end.

(** The value of [groups] in the store [h]: [None] slots are [undefined]. *)
Definition snapshot (h : heap) (gs : list gref) : option (list (option RawGroup)) :=
  mapM (view h) gs.

(** The array a slot of [groups] leads to. *)
Definition arr_of (h : heap) (g : gref) : option loc :=
  l ← g; o ← objs h !! l; Some (items o).

(** ** The data model of the component: a List of Groups of Items *)

Record Group := mkGroup {
  g_id : string;
  g_title : string;
  g_items : list Item;
  g_isCollapsed : option bool
}.

#[global] Instance Group_eq_dec : EqDecision Group.
Proof. solve_decision. Defined.

Abbreviation Model := (list Group).

Definition embed (g : Group) : RawGroup :=
  mkRawGroup (g_id g) (g_title g) (Some <$> g_items g) (g_isCollapsed g).
Definition raw (m : Model) : list (option RawGroup) := (Some ∘ embed) <$> m.

(** The [collapsed] flag as the view reads it. *)
Definition collapsed (g : Group) : bool := truthy_flag (g_isCollapsed g).

Definition with_items (its : list Item) (g : Group) : Group :=
  mkGroup (g_id g) (g_title g) its (g_isCollapsed g).

(** All items of the List, in display order. *)
Definition all_items (m : Model) : list Item := m ≫= g_items.

(** [groups] in the store [h] is the model [m], every group with an
    items array of its own. *)
Definition stored (h : heap) (gs : list gref) (m : Model) : Prop :=
  snapshot h gs = Some (raw m) ∧ NoDup (arr_of h <$> gs).

(** The invariants of the data model: identifiers are unique within the
    whole List. *)
Definition wf (m : Model) : Prop :=
  NoDup (g_id <$> m) ∧ NoDup (item_id <$> all_items m).

(** Array-move by positions: take the element at [i] out, put it back
    at [j] of what is left. *)
Definition move_to {A} (i j : nat) (l : list A) : list A :=
  match l !! i with
  | Some x => take j (delete i l) ++ x :: drop j (delete i l)
  | None => l
  end.

(** Insertion before position [j]. *)
Definition insert_at {A} (j : nat) (x : A) (l : list A) : list A :=
  take j l ++ x :: drop j l.

(** The position [findIndex] answers, from the first match. *)
Definition idx {A} (o : option (nat * A)) : Z :=
  match o with
  | Some (i, _) => Z.of_nat i
  | None => -1
  end.

(** The slot [r] holds the group [g]. *)
Definition holds (h : heap) (r : gref) (g : Group) : Prop :=
  ∃ l o, r = Some l ∧ objs h !! l = Some o ∧
    group_id o = g_id g ∧ title o = g_title g ∧
    isCollapsed o = g_isCollapsed g ∧
    arrs h !! items o = Some (Some <$> g_items g).

(** ** Operations on models *)

(** The group at [k] gets the items [F] makes of its own. *)
Definition set_group_items (k : nat) (F : list Item → list Item) (m : Model) : Model :=
  alter (λ g, with_items (F (g_items g)) g) k m.

Definition remove_item (k i : nat) : Model → Model := set_group_items k (delete i).
Definition append_item (k : nat) (x : Item) : Model → Model :=
  set_group_items k (λ its, its ++ [x]).
Definition insert_item (k j : nat) (x : Item) : Model → Model :=
  set_group_items k (insert_at j x).
Definition move_item (k i j : nat) : Model → Model := set_group_items k (move_to i j).

(** What the component registers with the gesture library for a group
    header, an item and the placeholder of a group ([useSortable] in
    [SortableGroup], [SortableItem] and [EmptyItem]). *)
Definition group_handle (G : Group) : Draggable :=
  mkDraggable (g_id G) (mkData (Some TGroup) None).
Definition item_handle (G : Group) (x : Item) : Draggable :=
  mkDraggable (item_id x) (mkData (Some TItem) (Some (g_id G))).
Definition empty_handle (G : Group) : Draggable :=
  mkDraggable ("empty-" +:+ g_id G) (mkData (Some TEmpty) (Some (g_id G))).

(** The state a finished gesture leaves: the new [groups], nothing
    dragged, no indicator. *)
Definition settled (gs : list gref) : State := mkState gs None None None.

(** The group a drop target belongs to: [overGroupId] of the handlers. *)
Definition owner (ov : Draggable) : option string :=
  if bool_decide (data_type (data ov) = Some TGroup) then Some (drag_id ov)
  else data_groupId (data ov).

(** ** Fixtures: models put into an empty store *)

Definition store_model (m : Model) : M (list gref) :=
  map_arr (λ g, new_group (g_id g) (g_title g) (g_items g) (g_isCollapsed g)) m.

Definition store_of (m : Model) : heap := snd (store_model m empty_heap).
Definition refs_of (m : Model) : list gref :=
  match fst (store_model m empty_heap) with
  | Ok gs => gs
  | Throw _ => []
  end.

(** The model [useState] starts from. *)
Definition initialModel : Model :=
  [ mkGroup "group-1" "To Do"
      [ mkItem "item-1" "Research project requirements";
        mkItem "item-2" "Create project plan";
        mkItem "item-3" "Set up development environment" ] None;
    mkGroup "group-2" "In Progress"
      [ mkItem "item-4" "Implement core features";
        mkItem "item-5" "Design user interface" ] None;
    mkGroup "group-3" "Completed"
      [ mkItem "item-6" "Project kickoff meeting";
        mkItem "item-7" "Requirements gathering" ] None ].

Definition initialHeap : heap := snd (initialGroups empty_heap).
Definition initialState : State := settled (refs_of initialModel).

(** The example of the specification: source [[A; B]], target [[X; Y]],
    [B] dropped on [Y]. *)
Definition exampleAB_XY : Model :=
  [ mkGroup "s" "Source" [mkItem "A" "a"; mkItem "B" "b"] None;
    mkGroup "t" "Target" [mkItem "X" "x"; mkItem "Y" "y"] None ].

(** The example of the specification: a group with items [[A; B; C; D]]. *)
Definition exampleABCD : Model :=
  [ mkGroup "g" "Group"
      [mkItem "A" "a"; mkItem "B" "b"; mkItem "C" "c"; mkItem "D" "d"] None ].

(** The example of the specification: a source group holding [A] and
    more, and an empty target group. *)
Definition exampleEmptyTarget : Model :=
  [ mkGroup "s" "Source" [mkItem "A" "a"; mkItem "B" "b"] None;
    mkGroup "t" "Target" [] None ].

(** The example of the specification: groups [[G1; G2; G3]]. *)
Definition exampleG1G2G3 : Model :=
  [ mkGroup "G1" "One" [mkItem "A" "a"] None;
    mkGroup "G2" "Two" [] None;
    mkGroup "G3" "Three" [mkItem "B" "b"] None ].

(** A model one of whose groups has the empty string for id. *)
Definition exampleUnnamed : Model :=
  [ mkGroup "" "Untitled" [] None;
    mkGroup "g2" "Two" [] None ].

(** ** Gestures over a model *)

(** A drop target the model offers, with the position of the group it
    belongs to: a group header, an item, a placeholder. *)
Inductive target_in (m : Model) : Draggable → nat → Prop :=
| target_header k T :
    m !! k = Some T → target_in m (group_handle T) k
| target_item k T j y :
    m !! k = Some T → g_items T !! j = Some y → target_in m (item_handle T y) k
| target_placeholder k T :
    m !! k = Some T → target_in m (empty_handle T) k.

(** What can be dragged: a group by its header, an item. *)
Inductive source_in (m : Model) : Draggable → Prop :=
| source_group k G :
    m !! k = Some G → source_in m (group_handle G)
| source_item k G i x :
    m !! k = Some G → g_items G !! i = Some x → source_in m (item_handle G x).

(** A drag-end event all of whose ids are in the model: the gesture
    ended over no target, or over one the model offers. *)
Inductive gesture (m : Model) : DragEvent → Prop :=
| gesture_cancelled act :
    source_in m act → gesture m (mkDragEvent act None)
| gesture_dropped act ov k :
    source_in m act → target_in m ov k → gesture m (mkDragEvent act (Some ov)).

(** Drag-end events handled one after the other. *)
Fixpoint handleDragEnds (evs : list DragEvent) (st : State) : M State :=
  match evs with
  | [] => ret st
  | ev :: evs' => let* st' := handleDragEnd ev st in handleDragEnds evs' st'
  end.

(** A sequence of gestures, each over the model the store holds when
    its drag-end event arrives. *)
Inductive gestures : heap → State → list DragEvent → Prop :=
| gestures_nil h st : gestures h st []
| gestures_cons h st m ev evs :
    stored h (groups st) m → gesture m ev →
    (∀ st' h', handleDragEnd ev st h = (Ok st', h') → gestures h' st' evs) →
    gestures h st (ev :: evs).

(** The drag-end events [handleDragEnd] answers without a call of
    [setGroups]: no drop target; a dragged element that is neither a
    group nor an item; a group dropped on itself or on a target that
    names no owning group; an item dropped on itself or on a target of
    no known kind. *)
Definition no_update (ev : DragEvent) : Prop :=
  match over ev with
  | None => True
  | Some ov =>
      match data_type (data (active ev)) with
      | Some TGroup =>
          drag_id (active ev) = drag_id ov ∨ truthy (owner ov) = false
      | Some TItem =>
          data_type (data ov) = None ∨
          (data_type (data ov) = Some TItem ∧ drag_id (active ev) = drag_id ov)
      | Some TEmpty | None => True
      end
  end.

(** Drop targets that name a group the initial model does not have. *)
Definition stale_header : Draggable :=
  mkDraggable "group-9" (mkData (Some TGroup) None).
Definition stale_placeholder : Draggable :=
  mkDraggable "empty-group-9" (mkData (Some TEmpty) (Some "group-9")).

(** The first group of the initial model and its first item; the second
    group and its first item. *)
Definition group1 : Group :=
  mkGroup "group-1" "To Do"
    [ mkItem "item-1" "Research project requirements";
      mkItem "item-2" "Create project plan";
      mkItem "item-3" "Set up development environment" ] None.
Definition item1 : Item := mkItem "item-1" "Research project requirements".
Definition group2 : Group :=
  mkGroup "group-2" "In Progress"
    [ mkItem "item-4" "Implement core features";
      mkItem "item-5" "Design user interface" ] None.
Definition item4 : Item := mkItem "item-4" "Implement core features".

(** ** [toggleCollapse] on a model *)

(** A group with its [collapsed] flag flipped. *)
Definition toggled (g : Group) : Group :=
  mkGroup (g_id g) (g_title g) (g_items g) (Some (negb (collapsed g))).

(** [toggleCollapse(model, groupId)] of the specification. *)
Definition toggleCollapse (groupId : string) (m : Model) : Model :=
  (λ g, if bool_decide (g_id g = groupId) then toggled g else g) <$> m.

(** ** What the component renders *)

(** [isEmptyActive] of [SortableGroup]: the placeholder of the group
    [groupId'] is highlighted. *)
Definition isEmptyActive (groupId' : string) (d : option DropIndicator) : bool :=
  match d with
  | Some d =>
      bool_decide (groupId d = Some groupId') && bool_decide (itemIndex d = None)
  | None => false
  end.

(** [sortableIds] of [SortableGroup]. *)
Definition sortableIds (group : Group) : list string :=
  (item_id <$> g_items group) ++ ["empty-" +:+ g_id group].

(** The sortables inside the card of a group: none when it is
    collapsed, else its items and the placeholder. *)
Definition SortableGroup_content (group : Group) : list Draggable :=
  if truthy_flag (g_isCollapsed group) then []
  else if bool_decide (length (g_items group) = 0%nat) then [empty_handle group]
  else (item_handle group <$> g_items group) ++ [empty_handle group].

(** All that [SortableNestedList] registers with the gesture library
    for a model: each group by its header, then its content. *)
Definition registrations (m : Model) : list Draggable :=
  m ≫= λ group, group_handle group :: SortableGroup_content group.

(** [arr.find(p)] and [arr.some(p)]. *)
Fixpoint find {A} (p : option A → M bool) (l : list (option A)) : M (option A) :=
  match l with
  | [] => ret None
  | x :: l' => let* b := p x in if b : bool then ret x else find p l'
  end.
Fixpoint some {A} (p : A → M bool) (l : list A) : M bool :=
  match l with
  | [] => ret false
  | x :: l' => let* b := p x in if b : bool then ret true else some p l'
  end.

(** [(i) => i.id === activeId], [activeId] being a string or [null]. *)
Definition item_id_eq (key : option string) (i : option Item) : M bool :=
  match i with
  | None => throw TypeError
  | Some it => ret (bool_decide (Some (item_id it) = key))
  end.

(** [findGroupOfItem]. *)
Definition findGroupOfItem (itemId : option string) (groups : list gref) : M gref :=
  find (λ group,
          let* o := deref group in
          let* its := read_arr (items o) in
          some (item_id_eq itemId) its) groups.

(** [activeGroup] and [activeItem]. *)
Definition activeGroup (st : State) : M gref :=
  if bool_decide ((activeData st ≫= data_type) = Some TGroup)
  then find (group_id_is (activeId st)) (groups st)
  else ret None.

Definition activeItem (st : State) : M (option Item) :=
  if bool_decide ((activeData st ≫= data_type) = Some TItem)
  then
    let* group := findGroupOfItem (activeId st) (groups st) in
    match group with
    | None => ret None
    | Some l =>
        let* o := deref (Some l) in
        let* its := read_arr (items o) in
        find (item_id_eq (activeId st)) its
    end
  else ret None.

(** The child of [DragOverlay]. *)
Inductive Overlay :=
| GroupOverlay (group : loc)
| ItemOverlay (item : Item)
| NoOverlay.

Definition DragOverlay (st : State) : M Overlay :=
  let* activeGroup := activeGroup st in
  let* activeItem := activeItem st in
  let activeType := activeData st ≫= data_type in
  let shown {A} (type : dataType) (x : option A) : option A :=
    if truthy (activeId st) && bool_decide (activeType = Some type)
    then x else None in
  ret (match shown TGroup activeGroup with
       | Some group => GroupOverlay group
       | None =>
           match shown TItem activeItem with
           | Some item => ItemOverlay item
           | None => NoOverlay
           end
       end).

(** ** The list without placeholders

    The second source file holds the component as it was before the
    placeholders and the drop indicator: its state has no indicator, a
    group renders its items only, and [handleDragEnd] knows two kinds of
    target for an item, a group header and anything else. *)

Module Plain.

Record State := mkState {
  groups : list gref;
  activeId : option string;
  activeData : option Data
}.

Definition handleToggleCollapse (groupId : string) (st : State) : M State :=
  let* gs := map_arr (toggle groupId) (groups st) in
  ret (mkState gs (activeId st) (activeData st)).

Definition handleDragStart (ev : DragEvent) (st : State) : State :=
  mkState (groups st) (Some (drag_id (active ev))) (Some (data (active ev))).

Definition dropUpdater (act ov : Draggable) : list gref → M (list gref) :=
  let activeType := data_type (data act) in
  let overType := data_type (data ov) in
  if bool_decide (activeType = Some TGroup) && negb (String.eqb (drag_id act) (drag_id ov))
  then
    let overGroupId :=
      if bool_decide (overType = Some TGroup) then Some (drag_id ov)
      else data_groupId (data ov) in
    if truthy overGroupId
    then moveGroup (drag_id act) (drag_id ov) overType overGroupId
    else ret
  else if bool_decide (activeType = Some TItem) then
    let activeGroup := data_groupId (data act) in
    let overIsGroup := bool_decide (overType = Some TGroup) in
    let overGroup :=
      if overIsGroup then Some (drag_id ov) else data_groupId (data ov) in
    if overIsGroup
    then moveToEnd (drag_id act) activeGroup overGroup
    else if negb (String.eqb (drag_id act) (drag_id ov))
    then moveOntoItem (drag_id act) (drag_id ov) activeGroup overGroup
    else ret
  else ret.

Definition handleDragEnd (ev : DragEvent) (st : State) : M State :=
  match over ev with
  | None => ret (mkState (groups st) None None)
  | Some ov =>
      let* gs := dropUpdater (active ev) ov (groups st) in
      ret (mkState gs None None)
  end.

(** The sortables inside the card of a group: its items, unless it is
    collapsed. *)
Definition SortableGroup_content (group : Group) : list Draggable :=
  if truthy_flag (g_isCollapsed group) then []
  else item_handle group <$> g_items group.

Definition registrations (m : Model) : list Draggable :=
  m ≫= λ group, group_handle group :: SortableGroup_content group.

End Plain.

(** An index [findIndex] can answer, read as a position: [-1] is the
    last one to [splice] and to [arrayMove]. *)
Definition position (len : nat) (z : Z) : nat :=
  if decide (z < 0) then pred len else Z.to_nat z.

(** ** The states the component goes through *)

(** One event of the component: the collapse button of a group, the
    start, a move or the end of a gesture between elements it has
    rendered. *)
Inductive step (h : heap) (st : State) : heap → State → Prop :=
| step_toggle groupId h' st' :
    handleToggleCollapse groupId st h = (Ok st', h') →
    step h st h' st'
| step_start ev m :
    stored h (groups st) m → active ev ∈ registrations m →
    step h st h (handleDragStart ev st)
| step_move ev :
    step h st h (handleDragMove ev st)
| step_end ev m h' st' :
    stored h (groups st) m → active ev ∈ registrations m →
    (∀ ov, over ev = Some ov → ov ∈ registrations m) →
    handleDragEnd ev st h = (Ok st', h') →
    step h st h' st'.

Inductive reachable : heap → State → Prop :=
| reachable_initial : reachable initialHeap initialState
| reachable_step h st h' st' :
    reachable h st → step h st h' st' → reachable h' st'.

(** What every state the component goes through satisfies. *)
Definition invariant (h : heap) (st : State) (m : Model) : Prop :=
  stored h (groups st) m ∧ wf m ∧
  g_id <$> m ≡ₚ g_id <$> initialModel ∧
  all_items m ≡ₚ all_items initialModel.

(** Registered elements can be told apart. *)
#[global] Instance Data_eq_dec : EqDecision Data.
Proof. solve_decision. Defined.
#[global] Instance Draggable_eq_dec : EqDecision Draggable.
Proof. solve_decision. Defined.

(** The match of [/item-(\d+)/] at the head of the string: [here] of
    [match_item]. *)
Definition match_here (s : string) : option (list ascii) :=
  match strip_prefix "item-" s with
  | Some r => match take_digits r with [] => None | ds => Some ds end
  | None => None
  end.

(** * Properties *)

(** ** JavaScript arrays *)

Section js_array.
Context {A : Type}.
Implicit Types l : list A.

Lemma splice_remove l (i : nat) x :
  l !! i = Some x →
  splice (Z.of_nat i) 1 [] l = ([x], delete i l).
Proof.
  intros Hi. pose proof (lookup_lt_Some _ _ _ Hi) as Hlt.
  unfold splice, actualStart. rewrite decide_False by lia.
  rewrite Nat2Z.id, !Nat.min_l by lia. f_equal.
  - by rewrite (drop_S _ x) by done.
  - simpl. rewrite Nat.add_1_r. symmetry. apply delete_take_drop.
Qed.

Lemma splice_insert l (j : nat) x :
  (j ≤ length l)%nat →
  splice (Z.of_nat j) 0 [x] l = ([], insert_at j x l).
Proof.
  intros Hj. unfold splice, actualStart, insert_at.
  rewrite decide_False by lia.
  rewrite Nat2Z.id, !Nat.min_l by lia. simpl.
  by rewrite Nat.add_0_r, take_0.
Qed.

End js_array.

Section array_move.
Context {A : Type}.
Implicit Types l : list A.

Lemma arrayMove_move_to (l : list (option A)) (i j : nat) :
  (i < length l)%nat → (j < length l)%nat →
  arrayMove l (Z.of_nat i) (Z.of_nat j) = move_to i j l.
Proof.
  intros Hi Hj. destruct (lookup_lt_is_Some_2 l i Hi) as [x Hx].
  unfold arrayMove, move_to. rewrite Hx, decide_False by lia.
  rewrite (splice_remove _ _ _ Hx).
  rewrite splice_insert by (rewrite length_delete by eauto; lia).
  simpl. unfold insert_at, first. simpl. done.
Qed.

Lemma move_to_Permutation (i j : nat) l : move_to i j l ≡ₚ l.
Proof.
  unfold move_to. destruct (l !! i) as [x|] eqn:Hx; [|done].
  rewrite <-Permutation_middle, take_drop.
  symmetry. by apply delete_Permutation.
Qed.

Lemma insert_at_Permutation (j : nat) x l : insert_at j x l ≡ₚ x :: l.
Proof. unfold insert_at. by rewrite <-Permutation_middle, take_drop. Qed.

Lemma move_to_fmap {B} (f : A → B) (i j : nat) l :
  f <$> move_to i j l = move_to i j (f <$> l).
Proof.
  unfold move_to. rewrite list_lookup_fmap.
  destruct (l !! i) as [x|]; simpl; [|done].
  by rewrite fmap_app, fmap_cons, fmap_take, fmap_drop, !list_fmap_delete.
Qed.

Lemma insert_at_fmap {B} (f : A → B) (j : nat) x l :
  f <$> insert_at j x l = insert_at j (f x) (f <$> l).
Proof. unfold insert_at. by rewrite fmap_app, fmap_cons, fmap_take, fmap_drop. Qed.
End array_move.

(** ** The store *)

Lemma NoDup_insert_fresh {A} (l : list A) (k : nat) (x : A) :
  NoDup l → x ∉ l → NoDup (<[k := x]> l).
Proof.
  intros Hnd. revert k. induction Hnd as [|y l Hy Hnd IH]; intros k Hx;
    [by apply NoDup_nil_2|].
  apply not_elem_of_cons in Hx as [Hxy Hx]. destruct k as [|k]; simpl.
  - by constructor.
  - constructor; [|by apply IH].
    intros [j Hj]%list_elem_of_lookup. destruct (decide (j = k)) as [->|Hne].
    + apply lookup_lt_Some in Hj as Hlt. rewrite length_insert in Hlt.
      rewrite list_lookup_insert_eq in Hj by done. congruence.
    + rewrite list_lookup_insert_ne in Hj by done.
      apply Hy. by eapply list_elem_of_lookup_2.
Qed.

Lemma bind_ok {A B} (m : M A) (k : A → M B) h a h' :
  m h = (Ok a, h') → bind m k h = k a h'.
Proof. unfold bind. by intros ->. Qed.

Section store.
Implicit Types (h : heap) (gs : list gref) (m : Model) (g : Group).

Lemma view_holds h r g : view h r = Some (Some (embed g)) ↔ holds h r g.
Proof.
  unfold view, holds, embed. split.
  - destruct r as [l|]; [|done].
    destruct (objs h !! l) as [o|] eqn:Ho; simpl; [|done].
    destruct (arrs h !! items o) as [its|] eqn:Hits; simpl; [|done].
    intros [= <- <- -> <-]. by exists l, o.
  - intros (l & o & -> & -> & <- & <- & <- & Hits). simpl.
    by rewrite Hits.
Qed.

Lemma snapshot_holds h gs m :
  snapshot h gs = Some (raw m) ↔ Forall2 (holds h) gs m.
Proof.
  unfold snapshot, raw. rewrite mapM_Some, Forall2_fmap_r.
  split; intros H; eapply Forall2_impl; try exact H;
    intros r g; apply view_holds.
Qed.

Lemma stored_holds h gs m : stored h gs m → Forall2 (holds h) gs m.
Proof. intros [? _]. by apply snapshot_holds. Qed.

Lemma stored_length h gs m : stored h gs m → length gs = length m.
Proof. intros ?%stored_holds. by eapply Forall2_length. Qed.

Lemma stored_lookup h gs m k g :
  stored h gs m → m !! k = Some g → ∃ r, gs !! k = Some r ∧ holds h r g.
Proof.
  intros Hst%stored_holds Hk.
  destruct (Forall2_lookup_r _ _ _ _ _ Hst Hk) as (r & ? & ?). eauto.
Qed.

Lemma arr_of_Some h l o :
  objs h !! l = Some o → arr_of h (Some l) = Some (items o).
Proof. intros Ho. unfold arr_of. simpl. by rewrite Ho. Qed.

Lemma holds_arr_of h r g :
  holds h r g → ∃ a, arr_of h r = Some a ∧ arrs h !! a = Some (Some <$> g_items g).
Proof.
  intros (l & o & -> & Ho & _ & _ & _ & Hits). exists (items o).
  unfold arr_of. simpl. by rewrite Ho.
Qed.

(** Two slots of a stored model never lead to one array. *)
Lemma stored_noalias h gs m i j ri rj a :
  stored h gs m → gs !! i = Some ri → gs !! j = Some rj →
  arr_of h ri = Some a → arr_of h rj = Some a → i = j.
Proof.
  intros [_ Hnd] Hi Hj Hai Haj.
  eapply (NoDup_lookup _ _ _ (Some a) Hnd); rewrite list_lookup_fmap.
  - by rewrite Hi; simpl; rewrite Hai.
  - by rewrite Hj; simpl; rewrite Haj.
Qed.

Lemma index_lookup {A} (l : list (option A)) (k : nat) r :
  l !! k = Some r → index l (Z.of_nat k) = r.
Proof.
  intros Hk. unfold index. rewrite decide_False by lia.
  by rewrite Nat2Z.id, Hk.
Qed.

Lemma deref_holds h r g :
  holds h r g → ∃ o, deref r h = (Ok o, h) ∧ group_id o = g_id g.
Proof.
  intros (l & o & -> & Ho & Hid & _). exists o.
  unfold deref. by rewrite Ho.
Qed.

(** [findIndex] over the groups of a stored model. *)
Lemma findIndex_from_groups h gs m key base :
  Forall2 (holds h) gs m →
  findIndex_from (group_id_is key) gs base h =
    (Ok (match list_find (λ g, Some (g_id g) = key) m with
         | Some (i, _) => base + Z.of_nat i
         | None => -1
         end), h).
Proof.
  intros Hst. revert base.
  induction Hst as [|r g gs m Hr _ IH]; intros base; [done|].
  destruct (deref_holds _ _ _ Hr) as (o & Hd & Hid).
  simpl. unfold group_id_is.
  rewrite (bind_ok _ _ _ _ _ (bind_ok _ _ _ _ _ Hd)). unfold ret at 1.
  rewrite Hid. destruct (decide (Some (g_id g) = key)) as [Hk|Hk].
  - rewrite bool_decide_true by done. unfold ret. f_equal. f_equal. lia.
  - rewrite bool_decide_false by done. rewrite IH.
    destruct (list_find _ m) as [[i ?]|]; simpl; [|done].
    do 2 f_equal. lia.
Qed.

Lemma findIndex_groups h gs m key :
  stored h gs m →
  findIndex (group_id_is key) gs h =
    (Ok (idx (list_find (λ g, Some (g_id g) = key) m)), h).
Proof.
  intros Hst%stored_holds. unfold findIndex.
  rewrite (findIndex_from_groups _ _ _ _ _ Hst).
  by destruct (list_find _ m) as [[??]|].
Qed.

(** [findIndex] over an items array without [undefined] slots. *)
Lemma findIndex_from_items h (its : list Item) key base :
  findIndex_from (item_id_is key) (Some <$> its) base h =
    (Ok (match list_find (λ i, item_id i = key) its with
         | Some (i, _) => base + Z.of_nat i
         | None => -1
         end), h).
Proof.
  revert base. induction its as [|it its IH]; intros base; [done|].
  simpl. unfold bind, ret. simpl.
  destruct (decide (item_id it = key)) as [Hk|Hk].
  - rewrite bool_decide_true by done. do 2 f_equal. lia.
  - rewrite bool_decide_false by done. rewrite IH.
    destruct (list_find _ its) as [[i ?]|]; simpl; [|done].
    do 2 f_equal. lia.
Qed.

Lemma findIndex_items h (its : list Item) key :
  findIndex (item_id_is key) (Some <$> its) h =
    (Ok (idx (list_find (λ i, item_id i = key) its)), h).
Proof.
  unfold findIndex. rewrite findIndex_from_items.
  by destruct (list_find _ its) as [[??]|].
Qed.

Lemma items_of_stored h gs m k g :
  stored h gs m → m !! k = Some g →
  ∃ r a, gs !! k = Some r ∧ arr_of h r = Some a ∧
    arrs h !! a = Some (Some <$> g_items g) ∧
    items_of gs (Z.of_nat k) h = (Ok a, h).
Proof.
  intros Hst Hk. destruct (stored_lookup _ _ _ _ _ Hst Hk) as (r & Hr & Hh).
  destruct Hh as (l & o & -> & Ho & _ & _ & _ & Hits).
  exists (Some l), (items o). split_and!; try done.
  - unfold arr_of. simpl. by rewrite Ho.
  - unfold items_of. rewrite (index_lookup _ _ _ Hr).
    unfold bind, deref, ret. by rewrite Ho.
Qed.

(** Writing the items array of the group at [k] changes that group
    and no other. *)
Lemma stored_write h gs m k r g a its' :
  stored h gs m → gs !! k = Some r → m !! k = Some g → arr_of h r = Some a →
  stored (mkHeap (objs h) (<[a := Some <$> its']> (arrs h))) gs
         (<[k := with_items its' g]> m).
Proof.
  intros Hst Hr Hg Ha. split; [|apply Hst].
  apply snapshot_holds, Forall2_same_length_lookup. split.
  { rewrite length_insert. by eapply stored_length. }
  intros j rj gj Hrj Hgj.
  destruct (decide (j = k)) as [->|Hne].
  - rewrite list_lookup_insert_eq in Hgj by (by eapply lookup_lt_Some).
    injection Hgj as <-. rewrite Hr in Hrj. injection Hrj as <-.
    destruct (stored_lookup _ _ _ _ _ Hst Hg) as (r' & Hr' & Hh).
    rewrite Hr in Hr'. injection Hr' as <-.
    destruct Hh as (l & o & -> & Ho & ? & ? & ? & Hits).
    exists l, o. split_and!; try done. simpl.
    rewrite (arr_of_Some _ _ _ Ho) in Ha. injection Ha as Ha. subst a.
    apply lookup_insert_eq.
  - rewrite list_lookup_insert_ne in Hgj by done.
    destruct (stored_lookup _ _ _ _ _ Hst Hgj) as (r' & Hr' & Hh).
    rewrite Hrj in Hr'. injection Hr' as <-.
    destruct (holds_arr_of _ _ _ Hh) as (aj & Haj & _).
    destruct Hh as (l & o & -> & Ho & ? & ? & ? & Hits).
    exists l, o. split_and!; try done. simpl.
    rewrite lookup_insert_ne; [done|]. intros ->.
    apply Hne. symmetry. eapply stored_noalias; eauto using arr_of_Some.
Qed.

(** Giving the group at [k] a new items array changes that group and
    no other. *)
Lemma stored_set_items h gs m k l o g its' :
  stored h gs m → gs !! k = Some (Some l) → objs h !! l = Some o →
  m !! k = Some g →
  let a := fresh (dom (arrs h)) in
  stored (mkHeap (<[l := mkGroupObj (group_id o) (title o) a (isCollapsed o)]> (objs h))
                 (<[a := Some <$> its']> (arrs h))) gs
         (<[k := with_items its' g]> m).
Proof.
  intros Hst Hr Ho Hg a.
  assert (Hfresh : arrs h !! a = None).
  { apply not_elem_of_dom, is_fresh. }
  assert (Hother : ∀ j rj gj, j ≠ k → gs !! j = Some rj → m !! j = Some gj →
    ∃ lj oj, rj = Some lj ∧ lj ≠ l ∧ objs h !! lj = Some oj ∧ items oj ≠ a ∧
      holds h rj gj).
  { intros j rj gj Hne Hrj Hgj.
    destruct (stored_lookup _ _ _ _ _ Hst Hgj) as (r' & Hr' & Hh).
    rewrite Hrj in Hr'. injection Hr' as <-.
    pose proof Hh as (lj & oj & -> & Hoj & ? & ? & ? & Hits).
    exists lj, oj. split_and!; try done.
    - intros ->. apply Hne. eapply stored_noalias; eauto using arr_of_Some.
    - intros Heq. rewrite Heq in Hits. by rewrite Hfresh in Hits. }
  split.
  - apply snapshot_holds, Forall2_same_length_lookup. split.
    { rewrite length_insert. by eapply stored_length. }
    intros j rj gj Hrj Hgj.
    destruct (decide (j = k)) as [->|Hne].
    + rewrite list_lookup_insert_eq in Hgj by (by eapply lookup_lt_Some).
      injection Hgj as <-. rewrite Hr in Hrj. injection Hrj as <-.
      destruct (stored_lookup _ _ _ _ _ Hst Hg) as (r' & Hr' & Hh).
      rewrite Hr in Hr'. injection Hr' as <-.
      destruct Hh as (l' & o' & [= <-] & Ho' & ? & ? & ? & Hits).
      rewrite Ho in Ho'. injection Ho' as <-.
      eexists l, _. split_and!; [done|apply lookup_insert_eq|done..|].
      simpl. apply lookup_insert_eq.
    + rewrite list_lookup_insert_ne in Hgj by done.
      destruct (Hother _ _ _ Hne Hrj Hgj) as (lj & oj & -> & ? & Hoj & ? & Hh).
      destruct Hh as (l' & o' & [= <-] & Ho' & ? & ? & ? & Hits).
      rewrite Hoj in Ho'. injection Ho' as <-.
      exists lj, oj. split_and!; try done; simpl.
      * by rewrite lookup_insert_ne.
      * by rewrite lookup_insert_ne.
  - destruct Hst as [Hsnap Hnd].
    assert (Heq : arr_of (mkHeap (<[l := mkGroupObj (group_id o) (title o) a (isCollapsed o)]> (objs h))
                 (<[a := Some <$> its']> (arrs h))) <$> gs
                  = <[k := Some a]> (arr_of h <$> gs)).
    { apply list_eq. intros j. rewrite list_lookup_fmap.
      destruct (decide (j = k)) as [->|Hne].
      - rewrite list_lookup_insert_eq
          by (rewrite length_fmap; by eapply lookup_lt_Some).
        rewrite Hr. simpl. unfold arr_of. simpl. by rewrite lookup_insert_eq.
      - rewrite list_lookup_insert_ne, list_lookup_fmap by done.
        destruct (gs !! j) as [rj|] eqn:Hrj; [|done]. simpl. f_equal.
        destruct (lookup_lt_is_Some_2 m j) as [gj Hgj].
        { rewrite <-(Forall2_length _ _ _ (proj1 (snapshot_holds _ _ _) Hsnap)).
          by eapply lookup_lt_Some. }
        destruct (Hother _ _ _ Hne Hrj Hgj) as (lj & oj & -> & ? & Hoj & ? & _).
        unfold arr_of. simpl. by rewrite lookup_insert_ne. }
    rewrite Heq. apply NoDup_insert_fresh; [done|].
    intros (rj & Harr & [j Hrj]%list_elem_of_lookup)%list_elem_of_fmap.
    destruct (lookup_lt_is_Some_2 m j) as [gj Hgj].
    { rewrite <-(Forall2_length _ _ _ (proj1 (snapshot_holds _ _ _) Hsnap)).
      by eapply lookup_lt_Some. }
    destruct (stored_lookup h gs m j gj) as (r' & Hr' & Hh); [done..|].
    rewrite Hrj in Hr'. injection Hr' as <-.
    destruct (holds_arr_of _ _ _ Hh) as (aj & Haj & Hits).
    rewrite Haj in Harr. injection Harr as ->. by rewrite Hfresh in Hits.
Qed.

(** Moving a slot of [groups] moves the group. *)
Lemma stored_move_to h gs m i j :
  stored h gs m → stored h (move_to i j gs) (move_to i j m).
Proof.
  intros Hst. pose proof (stored_holds _ _ _ Hst) as Hh. split.
  - apply snapshot_holds. unfold move_to.
    destruct (m !! i) as [g|] eqn:Hg.
    + destruct (Forall2_lookup_r _ _ _ _ _ Hh Hg) as (r & -> & ?).
      apply Forall2_app; [by apply Forall2_take, Forall2_delete|].
      constructor; [done|]. by apply Forall2_drop, Forall2_delete.
    + rewrite (proj2 (lookup_ge_None gs i)); [done|].
      rewrite (Forall2_length _ _ _ Hh). by apply lookup_ge_None.
  - rewrite move_to_fmap, move_to_Permutation. apply Hst.
Qed.
End store.

(** ** The updaters on a stored model *)

Ltac step H := rewrite (bind_ok _ _ _ _ _ H); cbv beta.

Section updaters.
Implicit Types (h : heap) (gs : list gref) (m : Model) (g : Group).

Lemma read_arr_ok h a l : arrs h !! a = Some l → read_arr a h = (Ok l, h).
Proof. unfold read_arr. by intros ->. Qed.

Lemma splice_at_remove h a (its : list Item) (i : nat) x :
  arrs h !! a = Some (Some <$> its) → its !! i = Some x →
  splice_at a (Z.of_nat i) 1 [] h =
    (Ok [Some x], mkHeap (objs h) (<[a := Some <$> delete i its]> (arrs h))).
Proof.
  intros Ha Hx. unfold splice_at. step (read_arr_ok _ _ _ Ha).
  rewrite (splice_remove _ i (Some x)) by (by rewrite list_lookup_fmap, Hx).
  by rewrite list_fmap_delete.
Qed.

Lemma splice_at_insert h a (its : list Item) (j : nat) x :
  arrs h !! a = Some (Some <$> its) → (j ≤ length its)%nat →
  splice_at a (Z.of_nat j) 0 [Some x] h =
    (Ok [], mkHeap (objs h) (<[a := Some <$> insert_at j x its]> (arrs h))).
Proof.
  intros Ha Hj. unfold splice_at. step (read_arr_ok _ _ _ Ha).
  rewrite splice_insert by (by rewrite length_fmap).
  by rewrite insert_at_fmap.
Qed.

Lemma push_ok h a (its : list Item) x :
  arrs h !! a = Some (Some <$> its) →
  push a (Some x) h =
    (Ok (), mkHeap (objs h) (<[a := Some <$> (its ++ [x])]> (arrs h))).
Proof.
  intros Ha. unfold push. step (read_arr_ok _ _ _ Ha).
  unfold write_arr. by rewrite fmap_app.
Qed.

Lemma set_items_ok h l o a :
  objs h !! l = Some o →
  set_items (Some l) a h =
    (Ok (), mkHeap (<[l := mkGroupObj (group_id o) (title o) a (isCollapsed o)]> (objs h))
                   (arrs h)).
Proof. intros Ho. unfold set_items, bind, deref. by rewrite Ho. Qed.

(** Drop on an empty placeholder or on a group header. *)
Lemma moveToEnd_stored h gs m a sg tg si S i A ti T :
  stored h gs m →
  list_find (λ g, Some (g_id g) = sg) m = Some (si, S) →
  list_find (λ it, item_id it = a) (g_items S) = Some (i, A) →
  list_find (λ g, Some (g_id g) = tg)
    (<[si := with_items (delete i (g_items S)) S]> m) = Some (ti, T) →
  ∃ h', moveToEnd a sg tg gs h = (Ok gs, h') ∧
    stored h' gs (<[ti := with_items (g_items T ++ [A]) T]>
                    (<[si := with_items (delete i (g_items S)) S]> m)).
Proof.
  intros Hst Hs Hi Ht.
  pose proof (proj1 (list_find_Some _ _ _ _) Hs) as (HS & _).
  pose proof (proj1 (list_find_Some _ _ _ _) Hi) as (HA & _).
  pose proof (proj1 (list_find_Some _ _ _ _) Ht) as (HT & _).
  destruct (items_of_stored _ _ _ _ _ Hst HS) as (rs & src & Hrs & Hsrc & Hits & Hio).
  eassert (Hst1 := stored_write _ _ _ _ _ _ _ (delete i (g_items S)) Hst Hrs HS Hsrc).
  destruct (items_of_stored _ _ _ _ _ Hst1 HT) as (rt & tgt & Hrt & Htgt & Hitt & Hiot).
  eassert (Hst2 := stored_write _ _ _ _ _ _ _ (g_items T ++ [A]) Hst1 Hrt HT Htgt).
  eexists. split; [|exact Hst2].
  unfold moveToEnd.
  pose proof (findIndex_groups _ _ _ sg Hst) as Hf. rewrite Hs in Hf. step Hf.
  step Hio. step (read_arr_ok _ _ _ Hits).
  pose proof (findIndex_items h (g_items S) a) as Hfi. rewrite Hi in Hfi. step Hfi.
  step Hio. step (splice_at_remove _ _ _ _ _ Hits HA).
  pose proof (findIndex_groups _ _ _ tg Hst1) as Hft. rewrite Ht in Hft. step Hft.
  step Hiot. step (push_ok _ _ _ A Hitt). done.
Qed.

(** Drop on an item of the same group. *)
Lemma moveOntoItem_same h gs m a o sg gi G i A j O :
  stored h gs m →
  list_find (λ g, Some (g_id g) = sg) m = Some (gi, G) →
  list_find (λ it, item_id it = a) (g_items G) = Some (i, A) →
  list_find (λ it, item_id it = o) (g_items G) = Some (j, O) →
  ∃ h', moveOntoItem a o sg sg gs h = (Ok gs, h') ∧
    stored h' gs (<[gi := with_items (move_to i j (g_items G)) G]> m).
Proof.
  intros Hst Hs Hi Hj.
  pose proof (proj1 (list_find_Some _ _ _ _) Hs) as (HG & _).
  pose proof (proj1 (list_find_Some _ _ _ _) Hi) as (HA & _).
  pose proof (proj1 (list_find_Some _ _ _ _) Hj) as (HO & _).
  destruct (items_of_stored _ _ _ _ _ Hst HG) as (r & arr & Hr & Harr & Hits & Hio).
  destruct (stored_lookup _ _ _ _ _ Hst HG) as (r' & Hr' & Hh).
  rewrite Hr in Hr'. injection Hr' as <-.
  destruct Hh as (l & ob & -> & Hob & _).
  eassert (Hst1 := stored_set_items _ _ _ _ _ _ _ (move_to i j (g_items G)) Hst Hr Hob HG).
  eexists. split; [|exact Hst1].
  unfold moveOntoItem. rewrite bool_decide_true by done.
  pose proof (findIndex_groups _ _ _ sg Hst) as Hf. rewrite Hs in Hf. step Hf.
  step Hio. step (read_arr_ok _ _ _ Hits).
  pose proof (findIndex_items h (g_items G) a) as Hfi. rewrite Hi in Hfi. step Hfi.
  step Hio. step (read_arr_ok _ _ _ Hits).
  pose proof (findIndex_items h (g_items G) o) as Hfj. rewrite Hj in Hfj. step Hfj.
  step Hio. step (read_arr_ok _ _ _ Hits).
  simpl idx.
  rewrite arrayMove_move_to, <-move_to_fmap
    by (rewrite length_fmap; by eapply lookup_lt_Some).
  rewrite (index_lookup _ _ _ Hr).
  erewrite (bind_ok (alloc_arr _)) by reflexivity.
  erewrite (bind_ok (set_items _ _)) by (by apply set_items_ok).
  done.
Qed.

(** Drop on an item of another group. *)
Lemma moveOntoItem_cross h gs m a o sg tg si S i A ti T j O :
  stored h gs m → sg ≠ tg →
  list_find (λ g, Some (g_id g) = sg) m = Some (si, S) →
  list_find (λ it, item_id it = a) (g_items S) = Some (i, A) →
  list_find (λ g, Some (g_id g) = tg)
    (<[si := with_items (delete i (g_items S)) S]> m) = Some (ti, T) →
  list_find (λ it, item_id it = o) (g_items T) = Some (j, O) →
  ∃ h', moveOntoItem a o sg tg gs h = (Ok gs, h') ∧
    stored h' gs (<[ti := with_items (insert_at j A (g_items T)) T]>
                    (<[si := with_items (delete i (g_items S)) S]> m)).
Proof.
  intros Hst Hne Hs Hi Ht Hj.
  pose proof (proj1 (list_find_Some _ _ _ _) Hs) as (HS & _).
  pose proof (proj1 (list_find_Some _ _ _ _) Hi) as (HA & _).
  pose proof (proj1 (list_find_Some _ _ _ _) Ht) as (HT & _).
  pose proof (proj1 (list_find_Some _ _ _ _) Hj) as (HO & _).
  destruct (items_of_stored _ _ _ _ _ Hst HS) as (rs & src & Hrs & Hsrc & Hits & Hio).
  eassert (Hst1 := stored_write _ _ _ _ _ _ _ (delete i (g_items S)) Hst Hrs HS Hsrc).
  destruct (items_of_stored _ _ _ _ _ Hst1 HT) as (rt & tgt & Hrt & Htgt & Hitt & Hiot).
  eassert (Hst2 := stored_write _ _ _ _ _ _ _ (insert_at j A (g_items T)) Hst1 Hrt HT Htgt).
  eexists. split; [|exact Hst2].
  unfold moveOntoItem. rewrite bool_decide_false by done.
  pose proof (findIndex_groups _ _ _ sg Hst) as Hf. rewrite Hs in Hf. step Hf.
  step Hio. step (read_arr_ok _ _ _ Hits).
  pose proof (findIndex_items h (g_items S) a) as Hfi. rewrite Hi in Hfi. step Hfi.
  step Hio. step (splice_at_remove _ _ _ _ _ Hits HA).
  pose proof (findIndex_groups _ _ _ tg Hst1) as Hft. rewrite Ht in Hft. step Hft.
  step Hiot. step (read_arr_ok _ _ _ Hitt).
  match goal with |- context [bind (findIndex (item_id_is o) _) _ ?h1] =>
    pose proof (findIndex_items h1 (g_items T) o) as Hfj end.
  rewrite Hj in Hfj. step Hfj.
  step Hiot. simpl idx. simpl first.
  erewrite (bind_ok _ _ _ _ _ (splice_at_insert _ _ _ _ A Hitt _)). done.
  Unshelve. apply lookup_lt_Some in HO. lia.
Qed.

(** Drop of a group. *)
Lemma moveGroup_stored h gs m a ovId ovType og i G j T :
  stored h gs m →
  (ovType = Some TGroup → og = Some ovId) →
  list_find (λ g, Some (g_id g) = Some a) m = Some (i, G) →
  list_find (λ g, Some (g_id g) = og) m = Some (j, T) →
  moveGroup a ovId ovType og gs h = (Ok (move_to i j gs), h).
Proof.
  intros Hst Hog Hi Hj.
  pose proof (proj1 (list_find_Some _ _ _ _) Hi) as (HG & _).
  pose proof (proj1 (list_find_Some _ _ _ _) Hj) as (HT & _).
  pose proof (stored_length _ _ _ Hst) as Hlen.
  unfold moveGroup.
  pose proof (findIndex_groups _ _ _ (Some a) Hst) as Hf. rewrite Hi in Hf. step Hf.
  pose proof (findIndex_groups _ _ _ og Hst) as Hft. rewrite Hj in Hft.
  assert (Hcb : findIndex (λ group,
    if bool_decide (ovType = Some TGroup)
    then group_id_is (Some ovId) group
    else group_id_is og group) gs h = (Ok (Z.of_nat j), h)).
  { destruct (decide (ovType = Some TGroup)) as [Heq|Hneq].
    - rewrite bool_decide_true by done. by rewrite <-(Hog Heq).
    - by rewrite bool_decide_false by done. }
  step Hcb. unfold ret. simpl idx.
  rewrite arrayMove_move_to; [done|..]; rewrite Hlen; by eapply lookup_lt_Some.
Qed.
End updaters.

Section model.
Implicit Types (m : Model) (g : Group) (F : list Item → list Item).

Lemma set_group_items_insert k F m g :
  m !! k = Some g →
  set_group_items k F m = <[k := with_items (F (g_items g)) g]> m.
Proof.
  intros Hk. apply list_eq. intros j. unfold set_group_items.
  destruct (decide (j = k)) as [->|Hne].
  - rewrite list_lookup_alter_eq, Hk.
    by rewrite list_lookup_insert_eq by (by eapply lookup_lt_Some).
  - by rewrite list_lookup_alter_ne, list_lookup_insert_ne by done.
Qed.

Lemma set_group_items_lookup k F m g :
  m !! k = Some g →
  set_group_items k F m !! k = Some (with_items (F (g_items g)) g).
Proof. intros Hk. unfold set_group_items. by rewrite list_lookup_alter_eq, Hk. Qed.

Lemma set_group_items_lookup_ne k j F m :
  k ≠ j → set_group_items k F m !! j = m !! j.
Proof. intros. unfold set_group_items. by rewrite list_lookup_alter_ne. Qed.

Lemma set_group_items_length k F m :
  length (set_group_items k F m) = length m.
Proof. apply length_alter. Qed.

(** Only [items] changes: ids, titles and flags stay. *)
Lemma set_group_items_frame {B} (f : Group → B) k F m :
  (∀ g its, f (with_items its g) = f g) →
  f <$> set_group_items k F m = f <$> m.
Proof.
  intros Hf. apply list_eq. intros j. rewrite !list_lookup_fmap.
  unfold set_group_items. destruct (decide (j = k)) as [->|Hne].
  - rewrite list_lookup_alter_eq. destruct (m !! k); simpl; [|done].
    by rewrite Hf.
  - by rewrite list_lookup_alter_ne.
Qed.

Lemma set_group_items_ids k F m :
  g_id <$> set_group_items k F m = g_id <$> m.
Proof. by apply set_group_items_frame. Qed.

Lemma all_items_split m k g :
  m !! k = Some g →
  all_items m = all_items (take k m) ++ g_items g ++ all_items (drop (S k) m).
Proof.
  intros Hk. unfold all_items.
  rewrite <-(take_drop_middle m k g) at 1 by done.
  by rewrite bind_app, bind_cons.
Qed.

(** The items of the List after a change of one group. *)
Lemma all_items_set_group_items k F m g :
  m !! k = Some g →
  all_items (set_group_items k F m) ++ g_items g ≡ₚ all_items m ++ F (g_items g).
Proof.
  intros Hk.
  rewrite (all_items_split _ k _ (set_group_items_lookup k F m g Hk)).
  rewrite (all_items_split m k g Hk).
  rewrite (set_group_items_insert _ _ _ _ Hk).
  pose proof (lookup_lt_Some _ _ _ Hk).
  rewrite take_insert_ge, drop_insert_lt by lia. simpl.
  rewrite <-!app_assoc.
  apply Permutation_app_head.
  rewrite (Permutation_app_comm (F (g_items g))).
  rewrite (Permutation_app_comm _ (g_items g)).
  by rewrite <-app_assoc.
Qed.

Lemma all_items_move_to i j m : all_items (move_to i j m) ≡ₚ all_items m.
Proof. unfold all_items. by rewrite move_to_Permutation. Qed.

(** The first position of a key is the only one where keys are unique. *)
Lemma list_find_unique {A B} `{EqDecision B} (f : A → B) (l : list A) k x :
  NoDup (f <$> l) → l !! k = Some x →
  list_find (λ y, f y = f x) l = Some (k, x).
Proof.
  intros Hnd Hk. apply list_find_Some. split_and!; [done..|].
  intros j y Hj Hlt Heq.
  assert (j = k); [|lia].
  eapply (NoDup_lookup _ _ _ (f x) Hnd); rewrite list_lookup_fmap.
  - by rewrite Hj; simpl; rewrite Heq.
  - by rewrite Hk.
Qed.

Lemma find_group m k g :
  NoDup (g_id <$> m) → m !! k = Some g →
  list_find (λ g', Some (g_id g') = Some (g_id g)) m = Some (k, g).
Proof.
  intros Hnd Hk.
  apply (list_find_unique (Some ∘ g_id) m k g); [|done].
  rewrite list_fmap_compose. by apply (NoDup_fmap_2 Some).
Qed.

Lemma wf_group_items m k g :
  wf m → m !! k = Some g → NoDup (item_id <$> g_items g).
Proof.
  intros [_ Hnd] Hk. rewrite (all_items_split m k g Hk) in Hnd.
  rewrite !fmap_app in Hnd.
  apply NoDup_app in Hnd as (_ & _ & Hnd). by apply NoDup_app in Hnd as (? & _).
Qed.

Lemma find_item m k g i x :
  wf m → m !! k = Some g → g_items g !! i = Some x →
  list_find (λ it, item_id it = item_id x) (g_items g) = Some (i, x).
Proof.
  intros Hwf Hk Hi. apply (list_find_unique item_id); [|done].
  by eapply wf_group_items.
Qed.
End model.

(** ** Drops on a stored model

    The updater [handleDragEnd] selects, for each kind of gesture whose
    elements are in the model. *)

Section drops.
Implicit Types (h : heap) (gs : list gref) (m : Model).

Lemma wf_ids m : wf m → NoDup (g_id <$> m).
Proof. by intros [? _]. Qed.

Lemma eqb_false_ne (s t : string) : s ≠ t → String.eqb s t = false.
Proof. intros. by apply String.eqb_neq. Qed.

(** An item dropped on a group header or on a placeholder. *)
Lemma drop_item_to_end h gs m si S i x ti T ov :
  stored h gs m → wf m →
  m !! si = Some S → g_items S !! i = Some x → m !! ti = Some T →
  ov = group_handle T ∨ ov = empty_handle T →
  ∃ h', dropUpdater (item_handle S x) ov gs h = (Ok gs, h') ∧
    stored h' gs (append_item ti x (remove_item si i m)).
Proof.
  intros Hst Hwf HS Hx HT Hov.
  pose proof (set_group_items_ids si (delete i) m) as Hids.
  assert (∃ T', remove_item si i m !! ti = Some T' ∧ g_id T' = g_id T)
    as (T' & HT' & HidT).
  { unfold remove_item. destruct (decide (si = ti)) as [->|Hne].
    - rewrite (set_group_items_lookup _ _ _ _ HS). eexists. split; [done|].
      simpl. congruence.
    - rewrite set_group_items_lookup_ne by done. eauto. }
  assert (Hf1 := find_group m si S (wf_ids _ Hwf) HS).
  assert (Hf2 := find_item m si S i x Hwf HS Hx).
  assert (Hf3 : list_find (λ g, Some (g_id g) = Some (g_id T))
                  (<[si := with_items (delete i (g_items S)) S]> m) = Some (ti, T')).
  { rewrite <-(set_group_items_insert _ _ _ _ HS), <-HidT.
    apply find_group; [|done]. rewrite Hids. by apply wf_ids. }
  destruct (moveToEnd_stored h gs m (item_id x) _ _ si S i x ti T' Hst Hf1 Hf2 Hf3)
    as (h' & Hrun & Hst').
  exists h'. split.
  - rewrite <-Hrun. by destruct Hov as [-> | ->].
  - unfold append_item. rewrite (set_group_items_insert _ _ _ _ HT').
    unfold remove_item. by rewrite (set_group_items_insert _ _ _ _ HS).
Qed.

(** An item dropped on another item of its group. *)
Lemma drop_item_same_group h gs m k G i x j y :
  stored h gs m → wf m →
  m !! k = Some G → g_items G !! i = Some x → g_items G !! j = Some y → i ≠ j →
  ∃ h', dropUpdater (item_handle G x) (item_handle G y) gs h = (Ok gs, h') ∧
    stored h' gs (move_item k i j m).
Proof.
  intros Hst Hwf HG Hx Hy Hne.
  assert (Hid : item_id x ≠ item_id y).
  { intros Heq. apply Hne.
    eapply (NoDup_lookup _ _ _ (item_id x) (wf_group_items _ _ _ Hwf HG));
      rewrite list_lookup_fmap.
    - by rewrite Hx.
    - by rewrite Hy, Heq. }
  assert (Hf1 := find_group m k G (wf_ids _ Hwf) HG).
  assert (Hf2 := find_item m k G i x Hwf HG Hx).
  assert (Hf3 := find_item m k G j y Hwf HG Hy).
  destruct (moveOntoItem_same h gs m (item_id x) (item_id y) _
              k G i x j y Hst Hf1 Hf2 Hf3) as (h' & Hrun & Hst').
  exists h'. split.
  - rewrite <-Hrun. unfold dropUpdater. simpl.
    by rewrite (eqb_false_ne _ _ Hid).
  - unfold move_item. by rewrite (set_group_items_insert _ _ _ _ HG).
Qed.

(** An item dropped on an item of another group. *)
Lemma drop_item_other_group h gs m si S i x ti T j y :
  stored h gs m → wf m →
  m !! si = Some S → g_items S !! i = Some x →
  m !! ti = Some T → g_items T !! j = Some y → si ≠ ti →
  ∃ h', dropUpdater (item_handle S x) (item_handle T y) gs h = (Ok gs, h') ∧
    stored h' gs (insert_item ti j x (remove_item si i m)).
Proof.
  intros Hst Hwf HS Hx HT Hy Hne.
  assert (Hgid : g_id S ≠ g_id T).
  { intros Heq. apply Hne.
    eapply (NoDup_lookup _ _ _ (g_id S) (wf_ids _ Hwf)); rewrite list_lookup_fmap.
    - by rewrite HS.
    - by rewrite HT, Heq. }
  assert (Hid : item_id x ≠ item_id y).
  { intros Heq. destruct Hwf as [_ Hnd].
    rewrite (all_items_split m si S HS) in Hnd.
    assert (Hin : y ∈ all_items (take si m) ++ all_items (drop (Datatypes.S si) m)).
    { destruct (decide (ti < si)%nat).
      - apply elem_of_app. left. unfold all_items. apply list_elem_of_bind.
        exists T. split; [by eapply list_elem_of_lookup_2|].
        apply list_elem_of_lookup. exists ti. rewrite lookup_take_lt by lia. done.
      - apply elem_of_app. right. unfold all_items. apply list_elem_of_bind.
        exists T. split; [by eapply list_elem_of_lookup_2|].
        apply list_elem_of_lookup. exists (ti - Datatypes.S si)%nat. rewrite lookup_drop.
        rewrite <-HT. f_equal. lia. }
    rewrite !fmap_app in Hnd.
    rewrite (Permutation_app_comm (item_id <$> g_items S)) in Hnd.
    rewrite app_assoc, <-fmap_app in Hnd.
    apply NoDup_app in Hnd as (_ & Hdisj & _).
    apply (Hdisj (item_id y)).
    - by apply list_elem_of_fmap_2.
    - rewrite <-Heq. apply list_elem_of_fmap_2. by eapply list_elem_of_lookup_2. }
  pose proof (set_group_items_ids si (delete i) m) as Hids.
  assert (HT' : remove_item si i m !! ti = Some T).
  { unfold remove_item. by rewrite set_group_items_lookup_ne. }
  assert (Hf1 := find_group m si S (wf_ids _ Hwf) HS).
  assert (Hf2 := find_item m si S i x Hwf HS Hx).
  assert (Hf3 : list_find (λ g, Some (g_id g) = Some (g_id T))
                  (<[si := with_items (delete i (g_items S)) S]> m) = Some (ti, T)).
  { rewrite <-(set_group_items_insert _ _ _ _ HS).
    apply find_group; [|done]. rewrite Hids. by apply wf_ids. }
  assert (Hf4 := find_item m ti T j y Hwf HT Hy).
  assert (Hsg : Some (g_id S) ≠ Some (g_id T)) by congruence.
  destruct (moveOntoItem_cross h gs m (item_id x) (item_id y) _ _
              si S i x ti T j y Hst Hsg Hf1 Hf2 Hf3 Hf4) as (h' & Hrun & Hst').
  exists h'. split.
  - rewrite <-Hrun. unfold dropUpdater. simpl.
    rewrite (eqb_false_ne _ _ Hid). done.
  - unfold insert_item. rewrite (set_group_items_insert _ _ _ _ HT').
    unfold remove_item. by rewrite (set_group_items_insert _ _ _ _ HS).
Qed.

(** A group dropped on a target of the group at [j]. *)
Lemma drop_group h gs m i G j T ov :
  stored h gs m → wf m → m !! i = Some G → m !! j = Some T →
  owner ov = Some (g_id T) → g_id T ≠ "" → g_id G ≠ drag_id ov →
  dropUpdater (group_handle G) ov gs h = (Ok (move_to i j gs), h).
Proof.
  intros Hst Hwf HG HT Hown Hne Hdiff.
  unfold dropUpdater. simpl. rewrite (eqb_false_ne _ _ Hdiff). simpl.
  fold (owner ov). rewrite Hown. simpl.
  rewrite (eqb_false_ne _ _ Hne). simpl.
  eapply (moveGroup_stored _ _ _ _ _ _ _ _ _ _ _ Hst).
  - intros Heq. rewrite <-Hown. unfold owner. by rewrite Heq.
  - apply (find_group m i G (wf_ids _ Hwf) HG).
  - apply (find_group m j T (wf_ids _ Hwf) HT).
Qed.
End drops.

Lemma stored_decide h gs m :
  bool_decide (snapshot h gs = Some (raw m)) = true →
  bool_decide (NoDup (arr_of h <$> gs)) = true →
  stored h gs m.
Proof.
  intros H1%bool_decide_eq_true H2%bool_decide_eq_true. by split.
Defined.

Lemma wf_decide m :
  bool_decide (NoDup (g_id <$> m)) = true →
  bool_decide (NoDup (item_id <$> all_items m)) = true →
  wf m.
Proof.
  intros H1%bool_decide_eq_true H2%bool_decide_eq_true. by split.
Defined.

Lemma initial_stored : stored initialHeap (groups initialState) initialModel.
Proof. apply stored_decide; by vm_compute. Qed.

Lemma initial_wf : wf initialModel.
Proof. apply wf_decide; by vm_compute. Qed.

(** ** Gestures keep the groups and the items *)

Section gestures.
Implicit Types (h : heap) (gs : list gref) (m : Model).

Lemma with_items_same g : with_items (g_items g) g = g.
Proof. by destruct g. Qed.

Lemma set_group_items_id k m : set_group_items k (λ its, its) m = m.
Proof.
  unfold set_group_items. apply list_alter_id. intros g. apply with_items_same.
Qed.

(** Taking an item out of a group takes it out of the List. *)
Lemma all_items_remove_item m k g i x :
  m !! k = Some g → g_items g !! i = Some x →
  x :: all_items (remove_item k i m) ≡ₚ all_items m.
Proof.
  intros Hk Hx.
  pose proof (all_items_set_group_items k (delete i) m g Hk) as Hp.
  rewrite (delete_Permutation _ _ _ Hx) in Hp at 1.
  rewrite <-Permutation_middle, (Permutation_app_comm (all_items m)) in Hp.
  apply (Permutation_app_inv_r (delete i (g_items g))).
  by rewrite Hp, Permutation_app_comm.
Qed.

(** Putting an item into a group puts it into the List. *)
Lemma all_items_add_item m k g F x :
  m !! k = Some g → F (g_items g) ≡ₚ x :: g_items g →
  all_items (set_group_items k F m) ≡ₚ x :: all_items m.
Proof.
  intros Hk HF.
  pose proof (all_items_set_group_items k F m g Hk) as Hp.
  rewrite HF in Hp. rewrite <-Permutation_middle in Hp.
  apply (Permutation_app_inv_r (g_items g)). by rewrite Hp.
Qed.

(** Reordering a group reorders the List. *)
Lemma all_items_reorder m k g F :
  m !! k = Some g → F (g_items g) ≡ₚ g_items g →
  all_items (set_group_items k F m) ≡ₚ all_items m.
Proof.
  intros Hk HF.
  pose proof (all_items_set_group_items k F m g Hk) as Hp.
  rewrite HF in Hp. by apply (Permutation_app_inv_r (g_items g)).
Qed.

Lemma wf_item_ids_differ m k g i j x y :
  wf m → m !! k = Some g → g_items g !! i = Some x → g_items g !! j = Some y →
  item_id x = item_id y → i = j.
Proof.
  intros Hwf Hk Hx Hy Heq.
  eapply (NoDup_lookup _ _ _ (item_id x) (wf_group_items _ _ _ Hwf Hk));
    rewrite list_lookup_fmap.
  - by rewrite Hx.
  - by rewrite Hy, Heq.
Qed.

(** An item dropped on a target of the model: the same group objects,
    at most two groups with other items, the items of the List
    permuted. *)
Lemma drop_item h gs m si S i x ov ti :
  stored h gs m → wf m →
  m !! si = Some S → g_items S !! i = Some x → target_in m ov ti →
  ∃ h' F G,
    dropUpdater (item_handle S x) ov gs h = (Ok gs, h') ∧
    stored h' gs (set_group_items ti G (set_group_items si F m)) ∧
    all_items (set_group_items ti G (set_group_items si F m)) ≡ₚ all_items m.
Proof.
  intros Hst Hwf HS Hx Hov.
  assert (Hend : ∀ T, m !! ti = Some T →
    ov = group_handle T ∨ ov = empty_handle T →
    ∃ h' F G,
      dropUpdater (item_handle S x) ov gs h = (Ok gs, h') ∧
      stored h' gs (set_group_items ti G (set_group_items si F m)) ∧
      all_items (set_group_items ti G (set_group_items si F m)) ≡ₚ all_items m).
  { intros T HT Hcase.
    destruct (drop_item_to_end h gs m si S i x ti T ov Hst Hwf HS Hx HT Hcase)
      as (h' & Hrun & Hst').
    exists h', (delete i), (λ its, its ++ [x]). split_and!; [done..|].
    assert (∃ T', remove_item si i m !! ti = Some T') as [T' HT'].
    { apply lookup_lt_is_Some_2. unfold remove_item.
      rewrite set_group_items_length. by eapply lookup_lt_Some. }
    fold (remove_item si i m).
    rewrite (all_items_add_item _ _ T' _ x HT')
      by (by rewrite Permutation_app_comm).
    by eapply all_items_remove_item. }
  destruct Hov as [ti T HT | ti T j y HT Hy | ti T HT]; [by eauto| |by eauto].
  destruct (decide (si = ti)) as [<-|Hne].
  - rewrite HS in HT. injection HT as <-.
    destruct (decide (i = j)) as [<-|Hij].
    + rewrite Hx in Hy. injection Hy as <-.
      exists h, (λ its, its), (λ its, its). rewrite !set_group_items_id.
      split_and!; [|done..].
      unfold dropUpdater. simpl. by rewrite String.eqb_refl.
    + destruct (drop_item_same_group h gs m si S i x j y Hst Hwf HS Hx Hy Hij)
        as (h' & Hrun & Hst').
      exists h', (move_to i j), (λ its, its). rewrite !set_group_items_id.
      split_and!; [done..|].
      apply (all_items_reorder _ _ S); [done|]. apply move_to_Permutation.
  - destruct (drop_item_other_group h gs m si S i x ti T j y Hst Hwf HS Hx HT Hy Hne)
      as (h' & Hrun & Hst').
    exists h', (delete i), (insert_at j x). split_and!; [done..|].
    assert (HT' : remove_item si i m !! ti = Some T).
    { unfold remove_item. by rewrite set_group_items_lookup_ne. }
    fold (remove_item si i m).
    rewrite (all_items_add_item _ _ T _ x HT')
      by apply insert_at_Permutation.
    by eapply all_items_remove_item.
Qed.

(** A group dropped on a target of the model: the same store, the
    groups permuted. *)
Lemma drop_group_any h gs m i G ov j :
  stored h gs m → wf m → m !! i = Some G → target_in m ov j →
  ∃ gs' m',
    dropUpdater (group_handle G) ov gs h = (Ok gs', h) ∧
    stored h gs' m' ∧ m' ≡ₚ m.
Proof.
  intros Hst Hwf HG Hov.
  assert (∃ T, m !! j = Some T ∧ owner ov = Some (g_id T)) as (T & HT & Hown).
  { destruct Hov; eauto. }
  destruct (decide (g_id G = drag_id ov)) as [Heq|Hdiff].
  { exists gs, m. split_and!; [|done..].
    unfold dropUpdater. simpl. rewrite Heq. by rewrite String.eqb_refl. }
  destruct (decide (g_id T = "")) as [Hempty|Hne].
  { exists gs, m. split_and!; [|done..].
    unfold dropUpdater. simpl. rewrite (eqb_false_ne _ _ Hdiff). simpl.
    fold (owner ov). by rewrite Hown, Hempty. }
  exists (move_to i j gs), (move_to i j m). split_and!.
  - by eapply drop_group.
  - by apply stored_move_to.
  - apply move_to_Permutation.
Qed.

(** A gesture over the stored model leaves a stored model with the same
    groups and the same items. *)
Lemma gesture_step h st m ev :
  stored h (groups st) m → wf m → gesture m ev →
  ∃ h' gs' m',
    handleDragEnd ev st h = (Ok (settled gs'), h') ∧
    stored h' gs' m' ∧
    g_id <$> m' ≡ₚ g_id <$> m ∧
    all_items m' ≡ₚ all_items m.
Proof.
  intros Hst Hwf Hev.
  destruct Hev as [act Hact | act ov k Hact Hov].
  { by exists h, (groups st), m. }
  destruct Hact as [i G HG | si S i x HS Hx].
  - destruct (drop_group_any h (groups st) m i G ov k Hst Hwf HG Hov)
      as (gs' & m' & Hrun & Hst' & Hperm).
    exists h, gs', m'. split_and!; [|done|by rewrite Hperm|].
    + unfold handleDragEnd. simpl. by rewrite (bind_ok _ _ _ _ _ Hrun).
    + unfold all_items. by rewrite Hperm.
  - destruct (drop_item h (groups st) m si S i x ov k Hst Hwf HS Hx Hov)
      as (h' & F & G & Hrun & Hst' & Hperm).
    eexists h', (groups st), _. split_and!; [|exact Hst'| |done].
    + unfold handleDragEnd. simpl. by rewrite (bind_ok _ _ _ _ _ Hrun).
    + by rewrite !set_group_items_ids.
Qed.

Lemma wf_Permutation m m' :
  g_id <$> m' ≡ₚ g_id <$> m → all_items m' ≡ₚ all_items m → wf m → wf m'.
Proof. intros Hg Hi [H1 H2]. split; by rewrite ?Hg, ?Hi. Qed.
End gestures.

(** ** One model per store *)

#[local] Instance embed_inj : Inj (=) (=) embed.
Proof.
  intros g g'. destruct g, g'. unfold embed. simpl. intros [= -> -> Hits ->].
  f_equal. by apply (inj (fmap Some)) in Hits.
Qed.

Lemma stored_inj h gs m m' : stored h gs m → stored h gs m' → m = m'.
Proof.
  intros [H1 _] [H2 _]. rewrite H1 in H2. injection H2 as H2.
  by apply (inj (fmap (Some ∘ embed))) in H2.
Qed.

(** In a model whose identifiers are unique, an item is in one group. *)
Lemma wf_one_group m k k' g g' x :
  wf m → m !! k = Some g → m !! k' = Some g' →
  x ∈ g_items g → x ∈ g_items g' → k = k'.
Proof.
  intros [_ Hnd] Hk Hk' Hx Hx'.
  destruct (decide (k = k')) as [|Hne]; [done|]. exfalso.
  assert (Hcut : ∀ a b ga gb, (a < b)%nat → m !! a = Some ga → m !! b = Some gb →
    x ∈ g_items ga → x ∈ g_items gb → False).
  { intros a b ga gb Hlt Ha Hb Hxa Hxb.
    rewrite (all_items_split m b gb Hb), !fmap_app in Hnd.
    apply NoDup_app in Hnd as (_ & Hdisj & _).
    apply (Hdisj (item_id x)).
    - apply list_elem_of_fmap_2. unfold all_items. apply list_elem_of_bind.
      exists ga. split; [done|]. apply list_elem_of_lookup. exists a.
      by rewrite lookup_take_lt.
    - apply elem_of_app. left. by apply list_elem_of_fmap_2. }
  destruct (decide (k < k')%nat).
  - by eapply (Hcut k k').
  - eapply (Hcut k' k); eauto with lia.
Qed.

(** ** [getItemNumber] on ids of the form [item-N] *)

Section item_number.

Lemma pretty_N_char_digit (d : N) :
  (d < 10)%N →
  is_digit (pretty_N_char d) = true ∧ digit_value (pretty_N_char d) = Z.of_N d.
Proof.
  intros Hd.
  assert (d = 0 ∨ d = 1 ∨ d = 2 ∨ d = 3 ∨ d = 4 ∨ d = 5 ∨ d = 6 ∨ d = 7 ∨
          d = 8 ∨ d = 9)%N as Hcases by lia.
  repeat (destruct Hcases as [-> | Hcases]; [by vm_compute|]).
  subst d. by vm_compute.
Qed.

(** Digits read after an accumulator shift it by their number. *)
Lemma parse_from (ds : list ascii) (acc : Z) :
  fold_left (λ a c, 10 * a + digit_value c) ds acc
  = acc * 10 ^ Z.of_nat (length ds) + parseInt ds.
Proof.
  unfold parseInt. revert acc.
  induction ds as [|c ds IH]; intros acc.
  - simpl. lia.
  - cbn [fold_left length]. rewrite IH, (IH (10 * 0 + digit_value c)).
    rewrite Nat2Z.inj_succ, Z.pow_succ_r by lia. lia.
Qed.

Lemma parseInt_cons (c : ascii) (ds : list ascii) :
  parseInt (c :: ds) = digit_value c * 10 ^ Z.of_nat (length ds) + parseInt ds.
Proof.
  unfold parseInt at 1. cbn [fold_left]. rewrite parse_from. lia.
Qed.

(** The digits [pretty] writes in front of [s] are read back as the
    number written. *)
Lemma take_digits_pretty_N_go (x : N) : ∀ s,
  (length (take_digits s) ≤ length (take_digits (pretty_N_go x s)))%nat ∧
  ((0 < x)%N → take_digits (pretty_N_go x s) ≠ []) ∧
  parseInt (take_digits (pretty_N_go x s))
  = Z.of_N x * 10 ^ Z.of_nat (length (take_digits s)) + parseInt (take_digits s).
Proof.
  induction (N.lt_wf_0 x) as [x _ IH]. intros s.
  destruct (decide (x = 0)%N) as [->|Hx].
  { rewrite pretty_N_go_0. split_and!; [done|lia|simpl; lia]. }
  rewrite pretty_N_go_step by lia.
  destruct (pretty_N_char_digit (x `mod` 10)%N) as [Hdig Hval].
  { by apply N.mod_lt. }
  set (c := pretty_N_char (x `mod` 10)) in *.
  destruct (IH (x `div` 10)%N) with (s := String c s) as (Hlen & _ & Hparse).
  { apply N.div_lt; lia. }
  assert (Hc : take_digits (String c s) = c :: take_digits s).
  { simpl. by rewrite Hdig. }
  rewrite Hc in Hlen, Hparse. simpl length in Hlen, Hparse.
  split_and!.
  - lia.
  - intros _ Hnil. rewrite Hnil in Hlen. simpl in Hlen. lia.
  - rewrite Hparse, parseInt_cons, Hval.
    rewrite Nat2Z.inj_succ, Z.pow_succ_r by lia.
    rewrite (N.div_mod x 10) at 3 by lia.
    rewrite N2Z.inj_add, N2Z.inj_mul. simpl Z.of_N. lia.
Qed.

Lemma match_item_prefixed (s : string) d ds :
  take_digits s = d :: ds → match_item ("item-" +:+ s) = Some (d :: ds).
Proof.
  intros Hs.
  change ("item-" +:+ s)
    with (String "i" (String "t" (String "e" (String "m" (String "-" s))))).
  simpl. by rewrite Hs.
Qed.

Lemma getItemNumber_pretty (n : N) :
  getItemNumber ("item-" +:+ pretty n) = Some (Z.of_N n).
Proof.
  unfold pretty, pretty_N. destruct (decide (n = 0)%N) as [->|Hn]; [done|].
  destruct (take_digits_pretty_N_go n "") as (_ & Hne & Hparse).
  assert (Hm : match_item ("item-" +:+ pretty_N_go n "")
               = Some (take_digits (pretty_N_go n ""))).
  { destruct (take_digits (pretty_N_go n "")) as [|d ds] eqn:Hds.
    - destruct Hne; [lia|done].
    - by apply match_item_prefixed. }
  unfold getItemNumber. rewrite Hm. cbn [fmap option_fmap option_map].
  rewrite Hparse. f_equal.
  change (take_digits "") with (@nil ascii). unfold parseInt. simpl. lia.
Qed.

Lemma pretty_Z_of_N (n : N) : pretty (Z.of_N n) = pretty n.
Proof. by destruct n. Qed.

End item_number.

(** ** [handleToggleCollapse] on a stored model *)

Section toggle.
Implicit Types (h : heap) (gs : list gref) (m : Model).

(** New objects leave the slots that were there as they were. *)
Lemma holds_mono h h' r g :
  objs h ⊆ objs h' → arrs h' = arrs h → holds h r g → holds h' r g.
Proof.
  intros Hsub Harr (l & o & -> & Ho & ? & ? & ? & Hits).
  exists l, o. split_and!; try done.
  - by eapply lookup_weaken.
  - by rewrite Harr.
Qed.

Lemma arr_of_mono h h' r g :
  objs h ⊆ objs h' → holds h r g → arr_of h' r = arr_of h r.
Proof.
  intros Hsub (l & o & -> & Ho & _).
  rewrite (arr_of_Some _ _ _ Ho).
  apply arr_of_Some. by eapply lookup_weaken.
Qed.

Lemma toggle_run gid h gs m :
  Forall2 (holds h) gs m →
  ∃ h' gs',
    map_arr (toggle gid) gs h = (Ok gs', h') ∧
    objs h ⊆ objs h' ∧ arrs h' = arrs h ∧
    Forall2 (holds h') gs' (toggleCollapse gid m) ∧
    arr_of h' <$> gs' = arr_of h <$> gs.
Proof.
  intros Hst. revert h Hst.
  induction gs as [|r gs IH] in m |- *; intros h Hst.
  { apply Forall2_nil_inv_l in Hst as ->. by exists h, []. }
  apply Forall2_cons_inv_l in Hst as (g & m' & Hr & Hst & ->).
  pose proof Hr as (l & o & -> & Ho & Hid & Htitle & Hflag & Hits).
  assert (Hd : deref (Some l) h = (Ok o, h)).
  { unfold deref. by rewrite Ho. }
  cbn [toggleCollapse fmap list_fmap].
  destruct (decide (g_id g = gid)) as [Heq|Hne].
  - rewrite bool_decide_true by done.
    set (o' := mkGroupObj (group_id o) (title o) (items o)
                 (Some (negb (truthy_flag (isCollapsed o))))).
    set (l' := fresh (dom (objs h))).
    set (h1 := mkHeap (<[l' := o']> (objs h)) (arrs h)).
    assert (Ht : toggle gid (Some l) h = (Ok (Some l'), h1)).
    { unfold toggle. rewrite (bind_ok _ _ _ _ _ Hd).
      by rewrite bool_decide_true by congruence. }
    assert (Hfresh : objs h !! l' = None).
    { apply not_elem_of_dom, is_fresh. }
    assert (Hsub1 : objs h ⊆ objs h1).
    { by apply insert_subseteq. }
    destruct (IH m' h1) as (h' & gs' & Hrun & Hsub & Harr & Hst' & Harrs).
    { eapply Forall2_impl; [exact Hst|]. intros r g'. by apply holds_mono. }
    exists h', (Some l' :: gs'). split_and!.
    + cbn [map_arr]. by rewrite (bind_ok _ _ _ _ _ Ht), (bind_ok _ _ _ _ _ Hrun).
    + by etrans.
    + by rewrite Harr.
    + constructor; [|done].
      exists l', o'. split_and!; try done.
      * eapply lookup_weaken; [|exact Hsub]. apply lookup_insert_eq.
      * unfold toggled, collapsed. simpl. by rewrite Hflag.
      * by rewrite Harr.
    + cbn [fmap list_fmap]. f_equal.
      * rewrite (arr_of_Some _ _ _ Ho).
        apply (arr_of_Some h' l' o'). eapply lookup_weaken; [|exact Hsub].
        apply lookup_insert_eq.
      * rewrite Harrs. apply list_eq. intros k. rewrite !list_lookup_fmap.
        destruct (gs !! k) as [rk|] eqn:Hk; [|done]. simpl. f_equal.
        destruct (Forall2_lookup_l _ _ _ _ _ Hst Hk) as (gk & _ & Hgk).
        by eapply arr_of_mono.
  - rewrite bool_decide_false by done.
    assert (Ht : toggle gid (Some l) h = (Ok (Some l), h)).
    { unfold toggle. rewrite (bind_ok _ _ _ _ _ Hd).
      by rewrite bool_decide_false by congruence. }
    destruct (IH m' h) as (h' & gs' & Hrun & Hsub & Harr & Hst' & Harrs); [done|].
    exists h', (Some l :: gs'). split_and!; try done.
    + cbn [map_arr]. by rewrite (bind_ok _ _ _ _ _ Ht), (bind_ok _ _ _ _ _ Hrun).
    + constructor; [|done]. by eapply holds_mono.
    + cbn [fmap list_fmap]. f_equal; [|done]. by eapply arr_of_mono.
Qed.

Lemma handleToggleCollapse_stored gid h st m :
  stored h (groups st) m →
  ∃ h' st',
    handleToggleCollapse gid st h = (Ok st', h') ∧
    stored h' (groups st') (toggleCollapse gid m) ∧
    stored h' (groups st) m.
Proof.
  intros Hst. pose proof (stored_holds _ _ _ Hst) as Hh.
  destruct (toggle_run gid h (groups st) m Hh)
    as (h' & gs' & Hrun & Hsub & Harr & Hst' & Harrs).
  exists h', (setGroups gs' st). split_and!.
  - unfold handleToggleCollapse. by rewrite (bind_ok _ _ _ _ _ Hrun).
  - split; [by apply snapshot_holds|]. simpl. rewrite Harrs. apply Hst.
  - split.
    + apply snapshot_holds. eapply Forall2_impl; [exact Hh|].
      intros r g. by apply holds_mono.
    + replace (arr_of h' <$> groups st) with (arr_of h <$> groups st);
        [apply Hst|].
      apply list_eq. intros k. rewrite !list_lookup_fmap.
      destruct (groups st !! k) as [rk|] eqn:Hk; [|done]. simpl. f_equal.
      destruct (Forall2_lookup_l _ _ _ _ _ Hh Hk) as (gk & _ & Hgk).
      symmetry. by eapply arr_of_mono.
Qed.

Lemma toggleCollapse_lookup gid m k g :
  m !! k = Some g →
  toggleCollapse gid m !! k
  = Some (if bool_decide (g_id g = gid) then toggled g else g).
Proof. intros Hk. unfold toggleCollapse. by rewrite list_lookup_fmap, Hk. Qed.

Lemma toggleCollapse_absent gid m :
  (∀ g, g ∈ m → g_id g ≠ gid) → toggleCollapse gid m = m.
Proof.
  intros Habs. unfold toggleCollapse.
  rewrite <-(list_fmap_id m) at 2. apply list_fmap_ext.
  intros k g Hk. rewrite bool_decide_false; [done|].
  apply Habs. by eapply list_elem_of_lookup_2.
Qed.

Lemma toggleCollapse_twice gid m k g :
  m !! k = Some g →
  ∃ g2, toggleCollapse gid (toggleCollapse gid m) !! k = Some g2 ∧
    g_id g2 = g_id g ∧ g_title g2 = g_title g ∧ g_items g2 = g_items g ∧
    collapsed g2 = collapsed g.
Proof.
  intros Hk.
  rewrite (toggleCollapse_lookup _ _ _ _ (toggleCollapse_lookup gid _ _ _ Hk)).
  eexists. split; [done|].
  destruct (decide (g_id g = gid)) as [Heq|Hne].
  - rewrite (bool_decide_true (g_id g = gid)) by done. simpl.
    rewrite bool_decide_true by done.
    unfold toggled, collapsed. simpl. by rewrite negb_involutive.
  - rewrite (bool_decide_false (g_id g = gid)) by done.
    by rewrite bool_decide_false by done.
Qed.
End toggle.

(** ** Sequences of gestures *)

Lemma gestures_take h st evs (n : nat) :
  gestures h st evs → gestures h st (take n evs).
Proof.
  intros Hevs. revert n.
  induction Hevs as [h st|h st m ev evs Hst Hev _ IH]; intros [|n]; simpl;
    try apply gestures_nil.
  eapply gestures_cons; [done..|]. intros st' h' Hrun. by apply IH.
Qed.

(** A sequence of gestures leaves a stored model with unique
    identifiers and the items it started with; each item of the first
    model is in one group of the last. *)
Lemma gestures_conserve evs : ∀ h st m,
  stored h (groups st) m → wf m → gestures h st evs →
  ∃ h' st' m',
    handleDragEnds evs st h = (Ok st', h') ∧
    stored h' (groups st') m' ∧
    all_items m' ≡ₚ all_items m ∧
    wf m' ∧
    ∀ x, x ∈ all_items m →
      ∃ k g, m' !! k = Some g ∧ x ∈ g_items g ∧
        ∀ k' g', m' !! k' = Some g' → x ∈ g_items g' → k' = k.
Proof.
  induction evs as [|ev evs IH]; intros h st m Hst Hwf Hevs.
  - exists h, st, m. split_and!; [done..|].
    intros x (g & Hx & [k Hk]%list_elem_of_lookup)%list_elem_of_bind.
    exists k, g. split_and!; [done..|].
    intros k' g' Hk' Hx'. by eapply (wf_one_group m k' k).
  - inversion Hevs as [|? ? m0 ? ? Hst0 Hev Hnext]; subst.
    rewrite <-(stored_inj _ _ _ _ Hst Hst0) in Hev.
    destruct (gesture_step h st m ev Hst Hwf Hev)
      as (h1 & gs1 & m1 & Hrun & Hst1 & Hg1 & Hi1).
    pose proof (wf_Permutation _ _ Hg1 Hi1 Hwf) as Hwf1.
    destruct (IH h1 (settled gs1) m1 Hst1 Hwf1 (Hnext _ _ Hrun))
      as (h' & st' & m' & Hruns & Hst' & Hperm & Hwf' & Hone).
    exists h', st', m'. split_and!; [|done| |done|].
    + simpl. by rewrite (bind_ok _ _ _ _ _ Hrun).
    + by rewrite Hperm, Hi1.
    + intros x Hx. apply Hone. by rewrite Hi1.
Qed.

(** ** More on [getItemNumber] *)

Section item_number_more.

Lemma pretty_N_go_app (x : N) : ∀ s t,
  pretty_N_go x s +:+ t = pretty_N_go x (s +:+ t).
Proof.
  induction (N.lt_wf_0 x) as [x _ IH]. intros s t.
  destruct (decide (x = 0)%N) as [->|Hx].
  { by rewrite !pretty_N_go_0. }
  rewrite (pretty_N_go_step x s), (pretty_N_go_step x (s +:+ t)) by lia.
  rewrite IH by (apply N.div_lt; lia). reflexivity.
Qed.

Lemma take_digits_pretty_app (n : N) (suf : string) :
  take_digits suf = [] →
  take_digits (pretty n +:+ suf) ≠ [] ∧
  parseInt (take_digits (pretty n +:+ suf)) = Z.of_N n.
Proof.
  intros Hsuf. unfold pretty, pretty_N.
  destruct (decide (n = 0)%N) as [->|Hn].
  { change ("0" +:+ suf) with (String "0" suf). simpl take_digits.
    rewrite Hsuf. by split. }
  rewrite pretty_N_go_app. change ("" +:+ suf) with suf.
  destruct (take_digits_pretty_N_go n suf) as (_ & Hne & Hparse).
  split; [apply Hne; lia|].
  rewrite Hparse, Hsuf. unfold parseInt. simpl. lia.
Qed.

Lemma getItemNumber_prefixed (s : string) :
  take_digits s ≠ [] →
  getItemNumber ("item-" +:+ s) = Some (parseInt (take_digits s)).
Proof.
  intros Hne. unfold getItemNumber.
  destruct (take_digits s) as [|d ds] eqn:Hs; [done|].
  by rewrite (match_item_prefixed s d ds Hs).
Qed.

End item_number_more.

(** ** The indicator and the view *)

Section indicator_view.

Lemma showDropIndicatorBefore_iff z gid g (n : Z) :
  showDropIndicatorBefore z gid (Some (mkDropIndicator (Some g) (Some n))) = true
  ↔ gid = g ∧ item_id z = "item-" +:+ pretty (n + 1).
Proof.
  unfold showDropIndicatorBefore. simpl.
  rewrite andb_true_iff, bool_decide_eq_true, String.eqb_eq.
  split; intros [Hg Hz]; split; congruence.
Qed.

Lemma isEmptyActive_iff gid g :
  isEmptyActive gid (Some (mkDropIndicator (Some g) None)) = true ↔ gid = g.
Proof.
  unfold isEmptyActive. simpl.
  rewrite andb_true_iff, !bool_decide_eq_true.
  split; [intros [Hg _]|intros ->; split]; congruence.
Qed.

End indicator_view.

(** ** Array moves there and back, and with the index [-1] *)

Section array_move_more.
Context {A : Type}.
Implicit Types l : list A.

Lemma insert_at_lookup l (j : nat) x :
  (j ≤ length l)%nat → insert_at j x l !! j = Some x.
Proof.
  intros Hj. unfold insert_at.
  rewrite lookup_app_r by (rewrite length_take; lia).
  rewrite length_take, Nat.min_l by lia. by rewrite Nat.sub_diag.
Qed.

Lemma delete_insert_at l (j : nat) x :
  (j ≤ length l)%nat → delete j (insert_at j x l) = l.
Proof.
  intros Hj. unfold insert_at. rewrite delete_take_drop.
  rewrite take_app_length' by (rewrite length_take; lia).
  rewrite drop_app_ge by (rewrite length_take; lia).
  rewrite length_take, Nat.min_l by lia.
  replace (S j - j)%nat with 1%nat by lia. simpl.
  rewrite drop_0. apply take_drop.
Qed.

Lemma insert_at_delete l (i : nat) x :
  l !! i = Some x → insert_at i x (delete i l) = l.
Proof.
  intros Hi. pose proof (lookup_lt_Some _ _ _ Hi).
  unfold insert_at. rewrite delete_take_drop.
  rewrite take_app_length' by (rewrite length_take; lia).
  rewrite drop_app_length' by (rewrite length_take; lia).
  by apply take_drop_middle.
Qed.

Lemma move_to_insert_at l (i j : nat) x :
  l !! i = Some x → move_to i j l = insert_at j x (delete i l).
Proof. intros Hi. unfold move_to. by rewrite Hi. Qed.

(** Moving an element and moving it back gives the list one had. *)
Lemma move_to_back l (i j : nat) :
  (i < length l)%nat → (j < length l)%nat →
  move_to j i (move_to i j l) = l.
Proof.
  intros Hi Hj. destruct (lookup_lt_is_Some_2 l i Hi) as [x Hx].
  assert (Hlen : length (delete i l) = pred (length l)).
  { rewrite length_delete by eauto. lia. }
  rewrite (move_to_insert_at l i j x Hx).
  rewrite (move_to_insert_at _ j i x) by (apply insert_at_lookup; lia).
  rewrite delete_insert_at by lia. by apply insert_at_delete.
Qed.

Lemma move_to_lookup l (i j : nat) x :
  l !! i = Some x → (j < length l)%nat → move_to i j l !! j = Some x.
Proof.
  intros Hx Hj. rewrite (move_to_insert_at l i j x Hx).
  apply insert_at_lookup. rewrite length_delete by eauto. lia.
Qed.

Lemma move_to_length l (i j : nat) : length (move_to i j l) = length l.
Proof. apply Permutation_length, move_to_Permutation. Qed.

Lemma splice_minus_one (l : list A) (dc : nat) (ins : list A) :
  l ≠ [] → splice (-1) dc ins l = splice (Z.of_nat (pred (length l))) dc ins l.
Proof.
  intros Hl. assert (0 < length l)%nat by (destruct l; [done|simpl; lia]).
  unfold splice, actualStart.
  rewrite decide_True, decide_False by lia.
  replace (Z.to_nat (Z.max (Z.of_nat (length l) + -1) 0)) with (pred (length l)) by lia.
  rewrite Nat2Z.id, (Nat.min_l (pred (length l))) by lia. done.
Qed.

End array_move_more.

Section array_move_minus_one.
Context {A : Type}.

Lemma arrayMove_position (l : list (option A)) (a b : Z) :
  l ≠ [] → -1 ≤ a < Z.of_nat (length l) → -1 ≤ b < Z.of_nat (length l) →
  arrayMove l a b = move_to (position (length l) a) (position (length l) b) l ∧
  (position (length l) a < length l)%nat ∧
  (position (length l) b < length l)%nat.
Proof.
  intros Hl Ha Hb. assert (0 < length l)%nat by (destruct l; [done|simpl; lia]).
  assert (Hpa : (position (length l) a < length l)%nat).
  { unfold position. case_decide; lia. }
  assert (Hpb : (position (length l) b < length l)%nat).
  { unfold position. case_decide; lia. }
  split; [|done].
  rewrite <-(arrayMove_move_to l _ _ Hpa Hpb).
  unfold arrayMove, position. cbv zeta.
  destruct (decide (a < 0)) as [Hna|Hna], (decide (b < 0)) as [Hnb|Hnb].
  - replace a with (-1) by lia. rewrite splice_minus_one by done.
    rewrite decide_False by lia.
    by replace (Z.of_nat (length l) + b) with (Z.of_nat (pred (length l))) by lia.
  - replace a with (-1) by lia. rewrite splice_minus_one by done.
    rewrite decide_False by lia. by rewrite Z2Nat.id by lia.
  - rewrite decide_False by lia. rewrite Z2Nat.id by lia.
    by replace (Z.of_nat (length l) + b) with (Z.of_nat (pred (length l))) by lia.
  - by rewrite decide_False, !Z2Nat.id by lia.
Qed.

Lemma idx_range {B} (P : B → Prop) `{∀ x, Decision (P x)} (l : list B) :
  -1 ≤ idx (list_find P l) < Z.of_nat (length l).
Proof.
  destruct (list_find P l) as [[i x]|] eqn:Hf; simpl; [|lia].
  apply list_find_Some in Hf as (Hi%lookup_lt_Some & _). lia.
Qed.

End array_move_minus_one.

(** ** Ids that name nothing *)

Section missing.
Implicit Types (h : heap) (gs : list gref) (m : Model).

Lemma bind_throw {A B} (c : M A) (k : A → M B) h e h' :
  c h = (Throw e, h') → bind c k h = (Throw e, h').
Proof. unfold bind. by intros ->. Qed.

(** [updatedGroups[-1].items] raises. *)
Lemma items_of_minus_one gs h : items_of gs (-1) h = (Throw TypeError, h).
Proof. done. Qed.

Lemma findIndex_group_missing h gs m key :
  stored h gs m → (∀ g, g ∈ m → Some (g_id g) ≠ key) →
  findIndex (group_id_is key) gs h = (Ok (-1), h).
Proof.
  intros Hst Hmiss. rewrite (findIndex_groups _ _ _ key Hst).
  rewrite (proj2 (list_find_None _ _)); [done|].
  apply Forall_forall. intros g Hg. by apply Hmiss.
Qed.

(** Every item updater begins with the lookup of the source group. *)
Lemma moveToEnd_source_missing h gs m a sg tg :
  stored h gs m → (∀ g, g ∈ m → Some (g_id g) ≠ sg) →
  moveToEnd a sg tg gs h = (Throw TypeError, h).
Proof.
  intros Hst Hmiss. unfold moveToEnd.
  rewrite (bind_ok _ _ _ _ _ (findIndex_group_missing _ _ _ _ Hst Hmiss)).
  by apply bind_throw.
Qed.

Lemma moveOntoItem_source_missing h gs m a o sg tg :
  stored h gs m → (∀ g, g ∈ m → Some (g_id g) ≠ sg) →
  moveOntoItem a o sg tg gs h = (Throw TypeError, h).
Proof.
  intros Hst Hmiss. unfold moveOntoItem.
  destruct (bool_decide (sg = tg));
    rewrite (bind_ok _ _ _ _ _ (findIndex_group_missing _ _ _ _ Hst Hmiss));
    by apply bind_throw.
Qed.

Lemma missing_after_remove m si i key :
  (∀ g, g ∈ m → Some (g_id g) ≠ key) →
  ∀ g, g ∈ remove_item si i m → Some (g_id g) ≠ key.
Proof.
  intros Hmiss g Hg Heq.
  apply (list_elem_of_fmap_2 g_id) in Hg.
  unfold remove_item in Hg. rewrite set_group_items_ids in Hg.
  apply list_elem_of_fmap in Hg as (g' & Hid & Hg').
  apply (Hmiss g' Hg'). congruence.
Qed.

(** The lookup of the target group comes after the item is taken out. *)
Lemma moveToEnd_target_missing h gs m si S i x tg :
  stored h gs m → wf m →
  m !! si = Some S → g_items S !! i = Some x →
  (∀ g, g ∈ m → Some (g_id g) ≠ tg) →
  ∃ h', moveToEnd (item_id x) (Some (g_id S)) tg gs h = (Throw TypeError, h') ∧
        stored h' gs (remove_item si i m).
Proof.
  intros Hst Hwf HS Hx Hmiss.
  assert (Hf1 := find_group m si S (wf_ids _ Hwf) HS).
  assert (Hf2 := find_item m si S i x Hwf HS Hx).
  destruct (items_of_stored _ _ _ _ _ Hst HS) as (rs & src & Hrs & Hsrc & Hits & Hio).
  eassert (Hst1 := stored_write _ _ _ _ _ _ _ (delete i (g_items S)) Hst Hrs HS Hsrc).
  rewrite <-(set_group_items_insert _ (delete i) _ _ HS) in Hst1.
  eexists. split; [|exact Hst1].
  unfold moveToEnd.
  pose proof (findIndex_groups _ _ _ (Some (g_id S)) Hst) as Hf. rewrite Hf1 in Hf.
  step Hf. step Hio. step (read_arr_ok _ _ _ Hits).
  pose proof (findIndex_items h (g_items S) (item_id x)) as Hfi. rewrite Hf2 in Hfi.
  step Hfi. step Hio. step (splice_at_remove _ _ _ _ _ Hits Hx).
  rewrite (bind_ok _ _ _ _ _
             (findIndex_group_missing _ _ _ tg Hst1 (missing_after_remove _ _ _ _ Hmiss))).
  by apply bind_throw.
Qed.

Lemma moveOntoItem_target_missing h gs m si S i x o tg :
  stored h gs m → wf m →
  m !! si = Some S → g_items S !! i = Some x →
  (∀ g, g ∈ m → Some (g_id g) ≠ tg) →
  ∃ h', moveOntoItem (item_id x) o (Some (g_id S)) tg gs h = (Throw TypeError, h') ∧
        stored h' gs (remove_item si i m).
Proof.
  intros Hst Hwf HS Hx Hmiss.
  assert (Hf1 := find_group m si S (wf_ids _ Hwf) HS).
  assert (Hf2 := find_item m si S i x Hwf HS Hx).
  destruct (items_of_stored _ _ _ _ _ Hst HS) as (rs & src & Hrs & Hsrc & Hits & Hio).
  eassert (Hst1 := stored_write _ _ _ _ _ _ _ (delete i (g_items S)) Hst Hrs HS Hsrc).
  rewrite <-(set_group_items_insert _ (delete i) _ _ HS) in Hst1.
  eexists. split; [|exact Hst1].
  unfold moveOntoItem. rewrite bool_decide_false.
  2:{ intros <-. eapply Hmiss; [|done]. by eapply list_elem_of_lookup_2. }
  pose proof (findIndex_groups _ _ _ (Some (g_id S)) Hst) as Hf. rewrite Hf1 in Hf.
  step Hf. step Hio. step (read_arr_ok _ _ _ Hits).
  pose proof (findIndex_items h (g_items S) (item_id x)) as Hfi. rewrite Hf2 in Hfi.
  step Hfi. step Hio. step (splice_at_remove _ _ _ _ _ Hits Hx).
  rewrite (bind_ok _ _ _ _ _
             (findIndex_group_missing _ _ _ tg Hst1 (missing_after_remove _ _ _ _ Hmiss))).
  by apply bind_throw.
Qed.

(** A group updater finds positions, whatever the ids, and writes
    nothing. *)
Lemma moveGroup_any h gs m a ovId ovType og :
  stored h gs m → m ≠ [] →
  (ovType = Some TGroup → og = Some ovId) →
  ∃ i j : nat, (i < length m)%nat ∧ (j < length m)%nat ∧
    moveGroup a ovId ovType og gs h = (Ok (move_to i j gs), h).
Proof.
  intros Hst Hne Hog.
  pose proof (stored_length _ _ _ Hst) as Hlen.
  assert (Hgs : gs ≠ []).
  { intros ->. destruct m; [done|]. simpl in Hlen. lia. }
  pose proof (findIndex_groups _ _ _ (Some a) Hst) as Hf.
  pose proof (findIndex_groups _ _ _ og Hst) as Hft.
  assert (Hcb : findIndex (λ group,
    if bool_decide (ovType = Some TGroup)
    then group_id_is (Some ovId) group
    else group_id_is og group) gs h
    = (Ok (idx (list_find (λ g, Some (g_id g) = og) m)), h)).
  { destruct (decide (ovType = Some TGroup)) as [Heq|Hneq].
    - rewrite bool_decide_true by done. by rewrite <-(Hog Heq).
    - by rewrite bool_decide_false by done. }
  pose proof (idx_range (λ g, Some (g_id g) = Some a) m) as Ha.
  pose proof (idx_range (λ g, Some (g_id g) = og) m) as Hb.
  rewrite <-Hlen in Ha, Hb.
  destruct (arrayMove_position gs _ _ Hgs Ha Hb) as (Hmove & Hi & Hj).
  exists (position (length gs) (idx (list_find (λ g, Some (g_id g) = Some a) m))),
         (position (length gs) (idx (list_find (λ g, Some (g_id g) = og) m))).
  split_and!; [by rewrite <-Hlen..|].
  unfold moveGroup. step Hf. step Hcb. unfold ret. by rewrite Hmove.
Qed.

End missing.

(** ** Moves within a group, composed *)

Section compose.
Implicit Types (m : Model).

Lemma set_group_items_compose k F G m :
  set_group_items k G (set_group_items k F m)
  = set_group_items k (λ its, G (F its)) m.
Proof.
  unfold set_group_items. rewrite list_alter_alter_eq.
  apply list_alter_ext; [|done]. by intros g _.
Qed.

Lemma move_item_back k i j m g :
  m !! k = Some g → (i < length (g_items g))%nat → (j < length (g_items g))%nat →
  move_item k j i (move_item k i j m) = m.
Proof.
  intros Hk Hi Hj. unfold move_item. rewrite set_group_items_compose.
  rewrite (set_group_items_insert _ _ _ _ Hk), move_to_back by done.
  rewrite with_items_same. by apply list_insert_id.
Qed.

Lemma wf_move_to i j m : wf m → wf (move_to i j m).
Proof.
  apply wf_Permutation.
  - by rewrite move_to_Permutation.
  - apply all_items_move_to.
Qed.

Lemma wf_move_item k i j m g :
  m !! k = Some g → wf m → wf (move_item k i j m).
Proof.
  intros Hk. apply wf_Permutation.
  - unfold move_item. by rewrite set_group_items_ids.
  - eapply all_items_reorder; [done|]. apply move_to_Permutation.
Qed.

Lemma wf_group_ids_differ m k k' g g' :
  wf m → m !! k = Some g → m !! k' = Some g' → k ≠ k' → g_id g ≠ g_id g'.
Proof.
  intros Hwf Hk Hk' Hne Heq. apply Hne.
  eapply (NoDup_lookup _ _ _ (g_id g) (wf_ids _ Hwf)); rewrite list_lookup_fmap.
  - by rewrite Hk.
  - by rewrite Hk', Heq.
Qed.

End compose.

(** ** Toggles, again *)

Section toggle_more.
Implicit Types (m : Model).

Lemma toggleCollapse_frame {B} (f : Group → B) gid m :
  (∀ g, f (toggled g) = f g) → f <$> toggleCollapse gid m = f <$> m.
Proof.
  intros Hf. unfold toggleCollapse. rewrite <-list_fmap_compose.
  apply list_fmap_ext. intros k g _. simpl. by case_bool_decide.
Qed.

Lemma toggleCollapse_all_items gid m : all_items (toggleCollapse gid m) = all_items m.
Proof.
  unfold all_items, toggleCollapse.
  induction m as [|g m IH]; [done|]. csimpl. rewrite IH. f_equal.
  by case_bool_decide.
Qed.

Lemma wf_toggleCollapse gid m : wf m → wf (toggleCollapse gid m).
Proof.
  intros [H1 H2]. split.
  - by rewrite toggleCollapse_frame.
  - by rewrite toggleCollapse_all_items.
Qed.

End toggle_more.

(** ** Lookups of the view *)

Section view_lookups.
Implicit Types (h : heap) (gs : list gref) (m : Model).

Lemma find_stored h gs m (p : gref → M bool) (P : Group → Prop)
    `{∀ g, Decision (P g)} :
  Forall2 (holds h) gs m →
  (∀ r g, holds h r g → p r h = (Ok (bool_decide (P g)), h)) →
  find p gs h =
    (Ok (match list_find P m with
         | Some (k, _) => mjoin (gs !! k)
         | None => None
         end), h).
Proof.
  intros Hst Hp. induction Hst as [|r g gs m Hr _ IH]; [done|].
  cbn [find]. rewrite (bind_ok _ _ _ _ _ (Hp r g Hr)).
  cbn [list_find]. destruct (decide (P g)) as [HP|HP].
  - by rewrite bool_decide_true by done.
  - rewrite bool_decide_false by done. rewrite IH.
    by destruct (list_find P m) as [[k ?]|].
Qed.

Lemma some_items h (its : list Item) key :
  some (item_id_eq key) (Some <$> its) h
  = (Ok (bool_decide (key ∈ (Some ∘ item_id) <$> its)), h).
Proof.
  induction its as [|it its IH]; [done|].
  cbn [fmap list_fmap some]. unfold item_id_eq at 1. unfold bind at 1, ret at 1.
  destruct (decide (Some (item_id it) = key)) as [Heq|Hne].
  - rewrite !bool_decide_true; [done| |done]. rewrite <-Heq. apply list_elem_of_here.
  - rewrite (bool_decide_false _ Hne), IH. unfold ret. do 2 f_equal.
    apply bool_decide_ext. rewrite elem_of_cons.
    split; [by right|]. by intros [->|?].
Qed.

Lemma find_items h (its : list Item) key :
  find (item_id_eq key) (Some <$> its) h
  = (Ok (snd <$> list_find (λ it, Some (item_id it) = key) its), h).
Proof.
  induction its as [|it its IH]; [done|].
  cbn [fmap list_fmap find list_find]. unfold item_id_eq at 1.
  unfold bind at 1, ret at 1.
  destruct (decide (Some (item_id it) = key)) as [Heq|Hne].
  - by rewrite bool_decide_true by done.
  - rewrite bool_decide_false by done. rewrite IH.
    by destruct (list_find _ its) as [[k ?]|].
Qed.

(** In a model whose identifiers are unique, an item id is in one
    group. *)
Lemma wf_one_group_of_id m k k' g g' x z :
  wf m → m !! k = Some g → m !! k' = Some g' →
  x ∈ g_items g → z ∈ g_items g' → item_id x = item_id z → k = k'.
Proof.
  intros [_ Hnd] Hk Hk' Hx Hz Hid.
  destruct (decide (k = k')) as [|Hne]; [done|]. exfalso.
  assert (Hcut : ∀ a b ga gb u v, (a < b)%nat → m !! a = Some ga → m !! b = Some gb →
    u ∈ g_items ga → v ∈ g_items gb → item_id u = item_id v → False).
  { intros a b ga gb u v Hlt Ha Hb Hu Hv Huv.
    rewrite (all_items_split m b gb Hb), !fmap_app in Hnd.
    apply NoDup_app in Hnd as (_ & Hdisj & _).
    apply (Hdisj (item_id u)).
    - apply list_elem_of_fmap_2. unfold all_items. apply list_elem_of_bind.
      exists ga. split; [done|]. apply list_elem_of_lookup. exists a.
      by rewrite lookup_take_lt.
    - apply elem_of_app. left. rewrite Huv. by apply list_elem_of_fmap_2. }
  destruct (decide (k < k')%nat).
  - by eapply (Hcut k k').
  - eapply (Hcut k' k); eauto with lia.
Qed.

Lemma findGroupOfItem_stored h gs m si S i x :
  stored h gs m → wf m → m !! si = Some S → g_items S !! i = Some x →
  ∃ l, gs !! si = Some (Some l) ∧ holds h (Some l) S ∧
    findGroupOfItem (Some (item_id x)) gs h = (Ok (Some l), h).
Proof.
  intros Hst Hwf HS Hx.
  destruct (stored_lookup _ _ _ _ _ Hst HS) as (r & Hr & Hh).
  pose proof Hh as (l & o & -> & _).
  exists l. split_and!; [done..|].
  unfold findGroupOfItem.
  rewrite (find_stored h gs m _
             (λ g, Some (item_id x) ∈ (Some ∘ item_id) <$> g_items g)
             (stored_holds _ _ _ Hst)).
  - assert (Hf : list_find
      (λ g, Some (item_id x) ∈ (Some ∘ item_id) <$> g_items g) m = Some (si, S)).
    { apply list_find_Some. split_and!; [done| |].
      - apply list_elem_of_fmap. exists x. split; [done|].
        by eapply list_elem_of_lookup_2.
      - intros j g Hj Hlt (z & [= Hid] & Hz)%list_elem_of_fmap.
        assert (si = j); [|lia].
        eapply (wf_one_group_of_id m si j S g x z); eauto.
        by eapply list_elem_of_lookup_2. }
    by rewrite Hf, Hr.
  - intros r g (l' & o' & -> & Ho' & _ & _ & _ & Hits).
    unfold bind, deref, read_arr. rewrite Ho', Hits. apply some_items.
Qed.

End view_lookups.

(** ** What is registered is in the model *)

Section registered.
Implicit Types (m : Model).

Lemma registrations_in m d :
  d ∈ registrations m →
  (∃ k G, m !! k = Some G ∧ d = group_handle G) ∨
  (∃ k G i x, m !! k = Some G ∧ g_items G !! i = Some x ∧ d = item_handle G x) ∨
  (∃ k G, m !! k = Some G ∧ d = empty_handle G).
Proof.
  unfold registrations.
  intros (G & Hd & [k Hk]%list_elem_of_lookup)%list_elem_of_bind.
  apply elem_of_cons in Hd as [-> | Hd]; [left; eauto|].
  unfold SortableGroup_content in Hd.
  destruct (truthy_flag (g_isCollapsed G)); [by apply elem_of_nil in Hd|].
  case_bool_decide.
  - apply list_elem_of_singleton in Hd as ->. right. right. eauto.
  - apply elem_of_app in Hd as [Hd | Hd].
    + apply list_elem_of_fmap in Hd as (x & -> & [i Hi]%list_elem_of_lookup).
      right. left. eauto 10.
    + apply list_elem_of_singleton in Hd as ->. right. right. eauto.
Qed.

Lemma registrations_target m d :
  d ∈ registrations m → ∃ k, target_in m d k.
Proof.
  intros [(k & G & HG & ->) | [(k & G & i & x & HG & Hx & ->) | (k & G & HG & ->)]]%registrations_in;
    exists k.
  - by apply target_header.
  - by eapply target_item.
  - by apply target_placeholder.
Qed.

Lemma Plain_registrations_in m d :
  d ∈ Plain.registrations m →
  (∃ k G, m !! k = Some G ∧ d = group_handle G) ∨
  (∃ k G i x, m !! k = Some G ∧ g_items G !! i = Some x ∧ d = item_handle G x).
Proof.
  unfold Plain.registrations.
  intros (G & Hd & [k Hk]%list_elem_of_lookup)%list_elem_of_bind.
  apply elem_of_cons in Hd as [-> | Hd]; [left; eauto|].
  unfold Plain.SortableGroup_content in Hd.
  destruct (truthy_flag (g_isCollapsed G)); [by apply elem_of_nil in Hd|].
  apply list_elem_of_fmap in Hd as (x & -> & [i Hi]%list_elem_of_lookup).
  right. eauto 10.
Qed.

(** A drag-end event between registered elements. *)
Lemma registered_drop h st m act over_ :
  stored h (groups st) m → wf m →
  act ∈ registrations m →
  (∀ ov, over_ = Some ov → ov ∈ registrations m) →
  ∃ h' gs' m',
    handleDragEnd (mkDragEvent act over_) st h = (Ok (settled gs'), h') ∧
    stored h' gs' m' ∧
    g_id <$> m' ≡ₚ g_id <$> m ∧
    all_items m' ≡ₚ all_items m.
Proof.
  intros Hst Hwf Hact Hover.
  destruct over_ as [ov|]; [|by exists h, (groups st), m].
  destruct (registrations_target m ov (Hover ov eq_refl)) as [k Hov].
  apply registrations_in in Hact
    as [(ka & G & HG & ->) | [(ka & G & i & x & HG & Hx & ->) | (ka & G & HG & ->)]].
  - apply gesture_step; [done..|].
    eapply gesture_dropped; [|done]. by eapply source_group.
  - apply gesture_step; [done..|].
    eapply gesture_dropped; [|done]. by eapply source_item.
  - by exists h, (groups st), m.
Qed.

End registered.

(** ** The overlay *)

Section overlay.
Implicit Types (h : heap) (gs : list gref) (m : Model).

Lemma list_find_group_id m k G :
  wf m → m !! k = Some G →
  list_find (λ g, Some (g_id g) = Some (g_id G)) m = Some (k, G).
Proof.
  intros Hwf HG. apply list_find_Some. split_and!; [done..|].
  intros j g Hj Hlt [= Hid].
  assert (j = k); [|lia].
  apply (NoDup_lookup (g_id <$> m) j k (g_id G)).
  - by apply wf_ids.
  - by rewrite list_lookup_fmap, Hj, <-Hid.
  - by rewrite list_lookup_fmap, HG.
Qed.

Lemma list_find_item_id m k G i x :
  wf m → m !! k = Some G → g_items G !! i = Some x →
  list_find (λ it, Some (item_id it) = Some (item_id x)) (g_items G) = Some (i, x).
Proof.
  intros Hwf HG Hx. apply list_find_Some. split_and!; [done..|].
  intros j z Hj Hlt [= Hid].
  assert (j = i); [|lia].
  apply (NoDup_lookup (item_id <$> g_items G) j i (item_id x)).
  - by eapply wf_group_items.
  - by rewrite list_lookup_fmap, Hj, <-Hid.
  - by rewrite list_lookup_fmap, Hx.
Qed.

Lemma activeGroup_group h st m k G ov :
  stored h (groups st) m → wf m → m !! k = Some G →
  ∃ l, groups st !! k = Some (Some l) ∧ holds h (Some l) G ∧
    activeGroup (handleDragStart (mkDragEvent (group_handle G) ov) st) h
    = (Ok (Some l), h).
Proof.
  intros Hst Hwf HG.
  destruct (stored_lookup _ _ _ _ _ Hst HG) as (r & Hr & Hh).
  pose proof Hh as (l & o & -> & _).
  exists l. split_and!; [done..|].
  unfold activeGroup. simpl.
  rewrite (find_stored h (groups st) m _ (λ g, Some (g_id g) = Some (g_id G))
             (stored_holds _ _ _ Hst)).
  - by rewrite (list_find_group_id m k G Hwf HG), Hr.
  - intros r g Hg. destruct (deref_holds _ _ _ Hg) as (o' & Hd & Hid).
    unfold group_id_is. rewrite (bind_ok _ _ _ _ _ Hd). by rewrite Hid.
Qed.

Lemma activeItem_item h st m k G i x ov :
  stored h (groups st) m → wf m → m !! k = Some G → g_items G !! i = Some x →
  activeItem (handleDragStart (mkDragEvent (item_handle G x) ov) st) h
  = (Ok (Some x), h).
Proof.
  intros Hst Hwf HG Hx.
  destruct (findGroupOfItem_stored h (groups st) m k G i x Hst Hwf HG Hx)
    as (l & _ & Hh & Hfind).
  unfold activeItem. simpl.
  rewrite (bind_ok _ _ _ _ _ Hfind).
  destruct Hh as (l' & o & [= <-] & Ho & _ & _ & _ & Hits).
  unfold bind at 1, deref. rewrite Ho.
  unfold bind at 1, read_arr. rewrite Hits.
  by rewrite find_items, (list_find_item_id m k G i x Hwf HG Hx).
Qed.

End overlay.

(** ** Reachable states *)

Section reachable_states.

Lemma handleDragMove_groups ev st : groups (handleDragMove ev st) = groups st.
Proof.
  unfold handleDragMove. destruct (over ev) as [ov|]; [|done].
  destruct (negb _); [done|].
  destruct (data_type (data ov)) as [[]|]; try done.
  by destruct (getItemNumber _).
Qed.

Lemma invariant_initial : invariant initialHeap initialState initialModel.
Proof.
  split_and!; [| |done..].
  - apply stored_decide; by vm_compute.
  - apply wf_decide; by vm_compute.
Qed.

Lemma invariant_step h st h' st' m :
  invariant h st m → step h st h' st' → ∃ m', invariant h' st' m'.
Proof.
  intros (Hst & Hwf & Hg & Hi) Hstep.
  destruct Hstep as [gid h' st' Hrun | ev m0 _ _ | ev | ev m0 h' st' Hst0 Hact Hov Hrun].
  - destruct (handleToggleCollapse_stored gid h st m Hst) as (h2 & st2 & Hrun2 & Hst2 & _).
    rewrite Hrun in Hrun2. injection Hrun2 as <- <-.
    exists (toggleCollapse gid m). split_and!; [done| | |].
    + by apply wf_toggleCollapse.
    + by rewrite toggleCollapse_frame.
    + by rewrite toggleCollapse_all_items.
  - by exists m.
  - exists m. split_and!; [|done..]. by rewrite handleDragMove_groups.
  - rewrite <-(stored_inj _ _ _ _ Hst Hst0) in Hact, Hov. destruct ev as [act over_].
    destruct (registered_drop h st m act over_ Hst Hwf Hact Hov)
      as (h2 & gs2 & m2 & Hrun2 & Hst2 & Hg2 & Hi2).
    rewrite Hrun in Hrun2. injection Hrun2 as -> ->.
    exists m2. split_and!; [done| | |].
    + by apply (wf_Permutation m m2).
    + by rewrite Hg2.
    + by rewrite Hi2.
Qed.

Lemma reachable_invariant h st : reachable h st → ∃ m, invariant h st m.
Proof.
  induction 1 as [|h st h' st' _ [m IH] Hstep].
  - exists initialModel. apply invariant_initial.
  - by eapply invariant_step.
Qed.

End reachable_states.

(** ** Item ids that name nothing *)

Section stale_item.
Implicit Types (h : heap) (gs : list gref) (m : Model).

Lemma find_item_missing (its : list Item) a :
  (∀ x, x ∈ its → item_id x ≠ a) →
  list_find (λ it, item_id it = a) its = None.
Proof.
  intros Hmiss. apply list_find_None, Forall_forall. intros x Hx. by apply Hmiss.
Qed.

(** [items.splice(-1, 1)] takes the last item out. *)
Lemma splice_at_last h a (its : list Item) z :
  arrs h !! a = Some (Some <$> (its ++ [z])) →
  splice_at a (-1) 1 [] h =
    (Ok [Some z], mkHeap (objs h) (<[a := Some <$> its]> (arrs h))).
Proof.
  intros Ha. unfold splice_at. step (read_arr_ok _ _ _ Ha).
  rewrite splice_minus_one by (rewrite fmap_app; by destruct (Some <$> its)).
  rewrite (splice_remove _ _ (Some z)).
  - rewrite length_fmap, length_app, Nat.add_1_r. simpl.
    rewrite fmap_app, <-(length_fmap Some its).
    change (Some <$> [z]) with [Some z].
    by rewrite delete_middle, app_nil_r.
  - rewrite length_fmap, length_app, Nat.add_1_r. simpl.
    rewrite list_lookup_fmap, lookup_app_r, Nat.sub_diag by done. done.
Qed.

(** [items.splice(-1, 1)] on an empty array takes nothing out. *)
Lemma splice_at_nothing h a :
  arrs h !! a = Some [] → splice_at a (-1) 1 [] h = (Ok [], h).
Proof.
  intros Ha. unfold splice_at. step (read_arr_ok _ _ _ Ha).
  unfold bind, write_arr, ret. cbn. f_equal.
  destruct h as [os ars]. simpl in *. f_equal. by apply insert_id.
Qed.

(** An item id the source group does not have: the last item of the
    group is moved. *)
Lemma moveToEnd_item_missing h gs m a sg tg si S its z ti T :
  stored h gs m →
  list_find (λ g, Some (g_id g) = sg) m = Some (si, S) →
  list_find (λ it, item_id it = a) (g_items S) = None →
  g_items S = its ++ [z] →
  list_find (λ g, Some (g_id g) = tg) (<[si := with_items its S]> m) = Some (ti, T) →
  ∃ h', moveToEnd a sg tg gs h = (Ok gs, h') ∧
    stored h' gs (<[ti := with_items (g_items T ++ [z]) T]>
                    (<[si := with_items its S]> m)).
Proof.
  intros Hst Hs Hi Hlast Ht.
  pose proof (proj1 (list_find_Some _ _ _ _) Hs) as (HS & _).
  pose proof (proj1 (list_find_Some _ _ _ _) Ht) as (HT & _).
  destruct (items_of_stored _ _ _ _ _ Hst HS) as (rs & src & Hrs & Hsrc & Hits & Hio).
  eassert (Hst1 := stored_write _ _ _ _ _ _ _ its Hst Hrs HS Hsrc).
  destruct (items_of_stored _ _ _ _ _ Hst1 HT) as (rt & tgt & Hrt & Htgt & Hitt & Hiot).
  eassert (Hst2 := stored_write _ _ _ _ _ _ _ (g_items T ++ [z]) Hst1 Hrt HT Htgt).
  eexists. split; [|exact Hst2].
  unfold moveToEnd.
  pose proof (findIndex_groups _ _ _ sg Hst) as Hf. rewrite Hs in Hf. step Hf.
  step Hio. step (read_arr_ok _ _ _ Hits).
  pose proof (findIndex_items h (g_items S) a) as Hfi. rewrite Hi in Hfi. step Hfi.
  step Hio. simpl idx. rewrite Hlast in Hits.
  step (splice_at_last _ _ _ _ Hits).
  pose proof (findIndex_groups _ _ _ tg Hst1) as Hft. rewrite Ht in Hft. step Hft.
  step Hiot. step (push_ok _ _ _ z Hitt). done.
Qed.

(** An item id named in a group without items: [undefined] is pushed. *)
Lemma moveToEnd_empty_source h gs m a sg tg si S ti T :
  stored h gs m →
  list_find (λ g, Some (g_id g) = sg) m = Some (si, S) →
  g_items S = [] →
  list_find (λ g, Some (g_id g) = tg) m = Some (ti, T) →
  ∃ l o, gs !! ti = Some (Some l) ∧ objs h !! l = Some o ∧
    arrs h !! items o = Some (Some <$> g_items T) ∧
    moveToEnd a sg tg gs h
    = (Ok gs, mkHeap (objs h)
                (<[items o := (Some <$> g_items T) ++ [None]]> (arrs h))).
Proof.
  intros Hst Hs Hempty Ht.
  pose proof (proj1 (list_find_Some _ _ _ _) Hs) as (HS & _).
  pose proof (proj1 (list_find_Some _ _ _ _) Ht) as (HT & _).
  destruct (items_of_stored _ _ _ _ _ Hst HS) as (rs & src & Hrs & Hsrc & Hits & Hio).
  destruct (stored_lookup _ _ _ _ _ Hst HT) as (rt & Hrt & Hh).
  destruct Hh as (l & o & -> & Ho & _ & _ & _ & Hitt).
  exists l, o. split_and!; [done..|].
  assert (Hiot : items_of gs (Z.of_nat ti) h = (Ok (items o), h)).
  { unfold items_of. rewrite (index_lookup _ _ _ Hrt). unfold bind, deref.
    by rewrite Ho. }
  unfold moveToEnd.
  pose proof (findIndex_groups _ _ _ sg Hst) as Hf. rewrite Hs in Hf. step Hf.
  step Hio. step (read_arr_ok _ _ _ Hits). rewrite Hempty in Hits |- *.
  step (findIndex_items h [] a).
  step Hio. simpl idx. step (splice_at_nothing _ _ Hits).
  pose proof (findIndex_groups _ _ _ tg Hst) as Hft. rewrite Ht in Hft. step Hft.
  step Hiot. unfold bind, push, bind, read_arr. rewrite Hitt. done.
Qed.

End stale_item.

(** ** The list without placeholders *)

Section plain.
Implicit Types (h : heap) (gs : list gref) (m : Model).

(** Where the older [handleDragEnd] and the newer one part: an item over
    something that is neither a group header nor an item. *)
Lemma Plain_dropUpdater_agree act ov :
  data_type (data act) ≠ Some TItem ∨
  data_type (data ov) = Some TGroup ∨ data_type (data ov) = Some TItem →
  Plain.dropUpdater act ov = dropUpdater act ov.
Proof.
  intros Hty. unfold Plain.dropUpdater, dropUpdater.
  destruct (bool_decide (data_type (data act) = Some TGroup) && _); [done|].
  case_bool_decide as Hact; [|done].
  destruct Hty as [?|[-> | ->]]; done.
Qed.

Lemma Plain_registered_drop h gs m act ov :
  stored h gs m → wf m →
  act ∈ Plain.registrations m → ov ∈ Plain.registrations m →
  ∃ h' gs' m',
    Plain.dropUpdater act ov gs h = (Ok gs', h') ∧
    stored h' gs' m' ∧
    g_id <$> m' ≡ₚ g_id <$> m ∧
    all_items m' ≡ₚ all_items m.
Proof.
  intros Hst Hwf Hact Hov.
  assert (∃ k, target_in m ov k ∧
            (data_type (data ov) = Some TGroup ∨ data_type (data ov) = Some TItem))
    as (k & Htgt & Hty).
  { apply Plain_registrations_in in Hov
      as [(k & G & HG & ->) | (k & G & i & x & HG & Hx & ->)]; exists k.
    - split; [by apply target_header|by left].
    - split; [by eapply target_item|by right]. }
  assert (Hsrc : source_in m act).
  { apply Plain_registrations_in in Hact
      as [(ka & G & HG & ->) | (ka & G & i & x & HG & Hx & ->)].
    - by eapply source_group.
    - by eapply source_item. }
  rewrite Plain_dropUpdater_agree by auto.
  destruct (gesture_step h (settled gs) m (mkDragEvent act (Some ov)) Hst Hwf)
    as (h' & gs' & m' & Hrun & Hst' & Hg & Hi).
  { by eapply gesture_dropped. }
  exists h', gs', m'. split_and!; [|done..].
  unfold handleDragEnd, bind in Hrun. simpl in Hrun.
  destruct (dropUpdater act ov gs h) as [[gs2|e] h2]; [|done].
  by injection Hrun as -> ->.
Qed.

End plain.

(** ** Collapsed groups *)

Section collapsed_groups.
Implicit Types (h : heap) (gs : list gref) (m : Model).




End collapsed_groups.

(** ** Ids without a number *)

Section item_number_none.

Lemma strip_prefix_Some p s r : strip_prefix p s = Some r ↔ s = p +:+ r.
Proof.
  revert s. induction p as [|a p IH]; intros s.
  - simpl. split; [by intros [= ->]|by intros ->].
  - destruct s as [|b s]; simpl.
    + split; [done|]. by intros [=].
    + destruct (Ascii.eqb_spec a b) as [<-|Hne].
      * rewrite IH. split; [by intros ->|]. by intros [= ->].
      * split; [done|]. intros [= ? _]. by destruct Hne.
Qed.

Lemma take_digits_nil r :
  take_digits r = [] ↔ ∀ d suf, r = String d suf → is_digit d = false.
Proof.
  destruct r as [|c r]; simpl.
  - split; [|done]. by intros _ d suf [=].
  - destruct (is_digit c) eqn:Hc.
    + split; [done|]. intros H. by rewrite (H c r eq_refl) in Hc.
    + split; [|done]. by intros _ d suf [= <- _].
Qed.

Lemma match_here_None s :
  match_here s = None ↔
  ∀ d suf, s = "item-" +:+ String d suf → is_digit d = false.
Proof.
  unfold match_here. destruct (strip_prefix "item-" s) as [r|] eqn:Hr.
  - apply strip_prefix_Some in Hr as ->.
    destruct (take_digits r) as [|c ds] eqn:Hds.
    + split; [|done]. intros _ d suf Heq.
      apply (proj1 (take_digits_nil r) Hds d suf).
      by apply (inj (String.append "item-")) in Heq.
    + split; [done|]. intros H.
      rewrite (proj2 (take_digits_nil r)) in Hds; [done|].
      intros d suf ->. by apply (H d suf).
  - split; [|done]. intros _ d suf ->.
    by rewrite (proj2 (strip_prefix_Some "item-" _ (String d suf))) in Hr.
Qed.

Lemma match_item_unfold s :
  match_item s =
  match match_here s, s with
  | Some ds, _ => Some ds
  | None, String _ s' => match_item s'
  | None, EmptyString => None
  end.
Proof. by destruct s. Qed.

Lemma match_item_None s :
  match_item s = None ↔
  ∀ pre d suf, s = pre +:+ "item-" +:+ String d suf → is_digit d = false.
Proof.
  induction s as [|c s IH]; rewrite match_item_unfold.
  - split; [|done]. intros _ pre d suf Heq. by destruct pre.
  - destruct (match_here (String c s)) as [ds|] eqn:Hhere.
    + split; [done|]. intros H.
      rewrite (proj2 (match_here_None (String c s))) in Hhere; [done|].
      intros d suf Heq. by apply (H "" d suf).
    + rewrite IH. split.
      * intros H pre d suf Heq. destruct pre as [|c' pre].
        -- by apply (proj1 (match_here_None (String c s)) Hhere d suf).
        -- injection Heq as _ Heq. by apply (H pre d suf).
      * intros H pre d suf ->. by apply (H (String c pre) d suf).
Qed.

Lemma take_digits_digits r : Forall (λ c, is_digit c = true) (take_digits r).
Proof.
  induction r as [|c r IH]; simpl; [done|].
  destruct (is_digit c) eqn:Hc; [by constructor|done].
Qed.

Lemma match_item_digits s ds :
  match_item s = Some ds → Forall (λ c, is_digit c = true) ds.
Proof.
  induction s as [|c s IH]; rewrite match_item_unfold.
  - intros H. by cbv in H.
  - destruct (match_here (String c s)) as [ds'|] eqn:Hhere; [|done].
    intros [= <-]. unfold match_here in Hhere.
    destruct (strip_prefix "item-" (String c s)) as [r|]; [|done].
    pose proof (take_digits_digits r) as Hall.
    destruct (take_digits r); [done|]. by injection Hhere as <-.
Qed.

Lemma digit_value_nonneg c : is_digit c = true → 0 ≤ digit_value c.
Proof.
  unfold is_digit, digit_value. intros [H1 _]%andb_true_iff.
  apply Nat.leb_le in H1. lia.
Qed.

Lemma fold_digits_nonneg ds acc :
  0 ≤ acc → Forall (λ c, is_digit c = true) ds →
  0 ≤ fold_left (λ acc c, 10 * acc + digit_value c) ds acc.
Proof.
  revert acc. induction ds as [|c ds IH]; intros acc Hacc Hall; [done|].
  apply Forall_cons in Hall as [Hc Hall]. simpl. apply IH; [|done].
  pose proof (digit_value_nonneg c Hc). lia.
Qed.

Lemma getItemNumber_nonneg s n : getItemNumber s = Some n → 0 ≤ n.
Proof.
  unfold getItemNumber. destruct (match_item s) as [ds|] eqn:Hm; [|done].
  intros [= <-]. apply fold_digits_nonneg; [done|]. by eapply match_item_digits.
Qed.

Lemma getItemNumber_None s :
  getItemNumber s = None ↔
  ∀ pre d suf, s = pre +:+ "item-" +:+ String d suf → is_digit d = false.
Proof.
  rewrite <-match_item_None. unfold getItemNumber.
  by destruct (match_item s).
Qed.

End item_number_none.

(** * The properties of the specification *)

(** ** Moves of an item across groups *)

(** C4. In a model whose identifiers are unique, an item [x] at
    position [i] of the group at [si], dropped on the item [y] at
    position [j] of another group at [ti], leaves its group — whose
    sequence is the old one without position [i] — and enters the
    target group at position [j]: the target's sequence is its first [j]
    items, then [x], then [y] and all that followed.  No other group
    changes, and the handler raises nothing. *)
Theorem drop_on_item_of_other_group h st m si Src i x ti Tgt j y :
  stored h (groups st) m → wf m →
  m !! si = Some Src → g_items Src !! i = Some x →
  m !! ti = Some Tgt → g_items Tgt !! j = Some y → si ≠ ti →
  ∃ h' m',
    handleDragEnd (mkDragEvent (item_handle Src x) (Some (item_handle Tgt y))) st h
      = (Ok (settled (groups st)), h') ∧
    stored h' (groups st) m' ∧
    m' !! si = Some (with_items (delete i (g_items Src)) Src) ∧
    m' !! ti = Some (with_items
      (take j (g_items Tgt) ++ x :: y :: drop (S j) (g_items Tgt)) Tgt) ∧
    ∀ k, k ≠ si → k ≠ ti → m' !! k = m !! k.
Proof.
  intros Hst Hwf HS Hx HT Hy Hne.
  destruct (drop_item_other_group h (groups st) m si Src i x ti Tgt j y)
    as (h' & Hrun & Hst'); try assumption.
  exists h', (insert_item ti j x (remove_item si i m)). split_and!.
  - unfold handleDragEnd. simpl. by rewrite (bind_ok _ _ _ _ _ Hrun).
  - done.
  - unfold insert_item, remove_item.
    rewrite set_group_items_lookup_ne by done.
    by apply set_group_items_lookup.
  - unfold insert_item, remove_item.
    erewrite set_group_items_lookup
      by (rewrite set_group_items_lookup_ne by done; exact HT).
    unfold insert_at. by rewrite (drop_S _ _ _ Hy).
  - intros k Hks Hkt. unfold insert_item, remove_item.
    by rewrite !set_group_items_lookup_ne by done.
Qed.

Lemma drop_on_item_of_other_group_witness :
  let m := exampleAB_XY in
  let S := mkGroup "s" "Source" [mkItem "A" "a"; mkItem "B" "b"] None in
  let T := mkGroup "t" "Target" [mkItem "X" "x"; mkItem "Y" "y"] None in
  let st := settled (refs_of m) in
  ∃ h' m',
    handleDragEnd (mkDragEvent (item_handle S (mkItem "B" "b"))
                     (Some (item_handle T (mkItem "Y" "y")))) st (store_of m)
      = (Ok st, h') ∧
    stored h' (groups st) m' ∧
    m' !! 0%nat = Some (with_items [mkItem "A" "a"] S) ∧
    m' !! 1%nat = Some (with_items [mkItem "X" "x"; mkItem "B" "b"; mkItem "Y" "y"] T) ∧
    ∀ k, k ≠ 0%nat → k ≠ 1%nat → m' !! k = m !! k.
Proof.
  intros m S T st.
  apply (drop_on_item_of_other_group (store_of m) st m 0 S 1 (mkItem "B" "b")
           1 T 1 (mkItem "Y" "y")).
  - apply stored_decide; by vm_compute.
  - apply wf_decide; by vm_compute.
  - reflexivity.
  - reflexivity.
  - reflexivity.
  - reflexivity.
  - lia.
Defined.

(** ** Moves of an item within its group *)

(** C5. In a model whose identifiers are unique, an item [x] at
    position [i] dropped on another item [y] at position [j] of the same
    group is moved within that group as [arrayMove] does: [x] is taken
    out at [i] and put back at index [j] of the sequence that is left.
    No other group changes, and the handler raises nothing. *)
Theorem drop_on_item_of_same_group h st m k G i x j y :
  stored h (groups st) m → wf m →
  m !! k = Some G → g_items G !! i = Some x → g_items G !! j = Some y → i ≠ j →
  ∃ h' m',
    handleDragEnd (mkDragEvent (item_handle G x) (Some (item_handle G y))) st h
      = (Ok (settled (groups st)), h') ∧
    stored h' (groups st) m' ∧
    m' !! k = Some (with_items (insert_at j x (delete i (g_items G))) G) ∧
    ∀ k', k' ≠ k → m' !! k' = m !! k'.
Proof.
  intros Hst Hwf HG Hx Hy Hne.
  destruct (drop_item_same_group h (groups st) m k G i x j y)
    as (h' & Hrun & Hst'); try assumption.
  exists h', (move_item k i j m). split_and!.
  - unfold handleDragEnd. simpl. by rewrite (bind_ok _ _ _ _ _ Hrun).
  - done.
  - unfold move_item. rewrite (set_group_items_lookup _ _ _ _ HG).
    unfold move_to. by rewrite Hx.
  - intros k' Hk'. unfold move_item. by rewrite set_group_items_lookup_ne.
Qed.

Lemma drop_on_item_of_same_group_witness :
  let m := exampleABCD in
  let G := mkGroup "g" "Group"
             [mkItem "A" "a"; mkItem "B" "b"; mkItem "C" "c"; mkItem "D" "d"] None in
  let st := settled (refs_of m) in
  ∃ h' m',
    handleDragEnd (mkDragEvent (item_handle G (mkItem "D" "d"))
                     (Some (item_handle G (mkItem "B" "b")))) st (store_of m)
      = (Ok st, h') ∧
    stored h' (groups st) m' ∧
    m' !! 0%nat = Some (with_items
      [mkItem "A" "a"; mkItem "D" "d"; mkItem "B" "b"; mkItem "C" "c"] G) ∧
    ∀ k', k' ≠ 0%nat → m' !! k' = m !! k'.
Proof.
  intros m G st.
  apply (drop_on_item_of_same_group (store_of m) st m 0 G 3 (mkItem "D" "d")
           1 (mkItem "B" "b")).
  - apply stored_decide; by vm_compute.
  - apply wf_decide; by vm_compute.
  - reflexivity.
  - reflexivity.
  - reflexivity.
  - lia.
Defined.

(** ** Drops of an item on a placeholder or on a group header *)

(** C7. In a model whose identifiers are unique, an item [x] at
    position [i] of the group at [si], dropped on the placeholder or on
    the header of the group at [ti], is taken out of its group and
    appended to the end of the target group's items.  When the two
    groups are one, [x] ends up last in it.  No other group changes, and
    the handler raises nothing. *)
Theorem drop_on_placeholder_or_header h st m si S i x ti T ov :
  stored h (groups st) m → wf m →
  m !! si = Some S → g_items S !! i = Some x → m !! ti = Some T →
  ov = empty_handle T ∨ ov = group_handle T →
  ∃ h' m',
    handleDragEnd (mkDragEvent (item_handle S x) (Some ov)) st h
      = (Ok (settled (groups st)), h') ∧
    stored h' (groups st) m' ∧
    (si ≠ ti →
       m' !! si = Some (with_items (delete i (g_items S)) S) ∧
       m' !! ti = Some (with_items (g_items T ++ [x]) T)) ∧
    (si = ti → m' !! si = Some (with_items (delete i (g_items S) ++ [x]) S)) ∧
    ∀ k, k ≠ si → k ≠ ti → m' !! k = m !! k.
Proof.
  intros Hst Hwf HS Hx HT Hov.
  destruct (drop_item_to_end h (groups st) m si S i x ti T ov)
    as (h' & Hrun & Hst'); try assumption.
  { by destruct Hov; [right|left]. }
  exists h', (append_item ti x (remove_item si i m)). split_and!.
  - unfold handleDragEnd. simpl. by rewrite (bind_ok _ _ _ _ _ Hrun).
  - done.
  - intros Hne. unfold append_item, remove_item. split.
    + rewrite set_group_items_lookup_ne by done.
      by apply set_group_items_lookup.
    + erewrite set_group_items_lookup
        by (rewrite set_group_items_lookup_ne by done; exact HT).
      done.
  - intros <-. rewrite HS in HT. injection HT as <-.
    unfold append_item, remove_item.
    by erewrite set_group_items_lookup by (by apply set_group_items_lookup).
  - intros k Hks Hkt. unfold append_item, remove_item.
    by rewrite !set_group_items_lookup_ne by done.
Qed.

Lemma drop_on_placeholder_or_header_witness :
  let m := exampleEmptyTarget in
  let S := mkGroup "s" "Source" [mkItem "A" "a"; mkItem "B" "b"] None in
  let T := mkGroup "t" "Target" [] None in
  let st := settled (refs_of m) in
  ∃ h' m',
    handleDragEnd (mkDragEvent (item_handle S (mkItem "A" "a"))
                     (Some (empty_handle T))) st (store_of m)
      = (Ok st, h') ∧
    stored h' (groups st) m' ∧
    (0%nat ≠ 1%nat →
       m' !! 0%nat = Some (with_items [mkItem "B" "b"] S) ∧
       m' !! 1%nat = Some (with_items [mkItem "A" "a"] T)) ∧
    (0%nat = 1%nat → m' !! 0%nat = Some (with_items [mkItem "B" "b"; mkItem "A" "a"] S)) ∧
    ∀ k, k ≠ 0%nat → k ≠ 1%nat → m' !! k = m !! k.
Proof.
  intros m S T st.
  apply (drop_on_placeholder_or_header (store_of m) st m 0 S 0 (mkItem "A" "a")
           1 T (empty_handle T)).
  - apply stored_decide; by vm_compute.
  - apply wf_decide; by vm_compute.
  - reflexivity.
  - reflexivity.
  - reflexivity.
  - by left.
Defined.

(** ** Drops of a group *)

(** C6, as the code has it.  In a model whose identifiers are unique, a
    group [G] at position [i] dropped on the header, on an item or on
    the placeholder of the group [T] at position [j] — a target whose id
    is not [G]'s own, [T] having an id that is not the empty string — is
    taken out at [i] and put back at index [j] of the sequence that is
    left.  The same group objects are kept, the store is not written,
    and the handler raises nothing. *)
Theorem drop_of_group h st m i G j T ov :
  stored h (groups st) m → wf m →
  m !! i = Some G → m !! j = Some T →
  ov = group_handle T ∨ (∃ y, y ∈ g_items T ∧ ov = item_handle T y) ∨
    ov = empty_handle T →
  drag_id ov ≠ g_id G →
  g_id T ≠ "" →
  ∃ gs',
    handleDragEnd (mkDragEvent (group_handle G) (Some ov)) st h
      = (Ok (settled gs'), h) ∧
    stored h gs' (insert_at j G (delete i m)).
Proof.
  intros Hst Hwf HG HT Hov Hdiff Hne.
  assert (Hown : owner ov = Some (g_id T)).
  { destruct Hov as [-> | [(y & _ & ->) | ->]]; reflexivity. }
  exists (move_to i j (groups st)). split.
  - unfold handleDragEnd. simpl.
    by rewrite (bind_ok _ _ _ _ _ (drop_group h _ m i G j T ov Hst Hwf HG HT
                                      Hown Hne (not_eq_sym Hdiff))).
  - pose proof (stored_move_to h _ m i j Hst) as Hst'.
    unfold move_to in Hst' at 2. by rewrite HG in Hst'.
Qed.

Lemma drop_of_group_witness :
  let m := exampleG1G2G3 in
  let G1 := mkGroup "G1" "One" [mkItem "A" "a"] None in
  let G2 := mkGroup "G2" "Two" [] None in
  let G3 := mkGroup "G3" "Three" [mkItem "B" "b"] None in
  let st := settled (refs_of m) in
  ∃ gs',
    handleDragEnd (mkDragEvent (group_handle G3) (Some (group_handle G1))) st (store_of m)
      = (Ok (settled gs'), store_of m) ∧
    stored (store_of m) gs' [G3; G1; G2].
Proof.
  intros m G1 G2 G3 st.
  apply (drop_of_group (store_of m) st m 2 G3 0 G1 (group_handle G1)).
  - apply stored_decide; by vm_compute.
  - apply wf_decide; by vm_compute.
  - reflexivity.
  - reflexivity.
  - by left.
  - discriminate.
  - discriminate.
Defined.

(** C6 as it is written fails on a group whose id is the empty string:
    [if (overGroupId)] takes the id for an absent one and the drop does
    nothing. *)
Lemma drop_of_group_on_unnamed_group :
  let m := exampleUnnamed in
  let G0 := mkGroup "" "Untitled" [] None in
  let G2 := mkGroup "g2" "Two" [] None in
  let st := settled (refs_of m) in
  stored (store_of m) (groups st) m ∧ wf m ∧
  m !! 1%nat = Some G2 ∧ m !! 0%nat = Some G0 ∧
  drag_id (group_handle G0) ≠ g_id G2 ∧
  handleDragEnd (mkDragEvent (group_handle G2) (Some (group_handle G0))) st (store_of m)
    = (Ok st, store_of m) ∧
  ¬ stored (store_of m) (groups st) (insert_at 0 G2 (delete 1%nat m)).
Proof.
  intros m G0 G2 st. split_and!.
  - apply stored_decide; by vm_compute.
  - apply wf_decide; by vm_compute.
  - reflexivity.
  - reflexivity.
  - discriminate.
  - by vm_compute.
  - intros [Hsnap _]. vm_compute in Hsnap. discriminate.
Qed.

(** ** Drops of an item keep the groups *)

(** C10. In a stored model whose identifiers are unique, a drag-end
    event for an item of the model — with no target, or over a header,
    an item or a placeholder of the model — returns the very array of
    group objects it was given, and the model then stored has as many
    groups as before, with the same ids, titles and collapsed flags in
    the same order; a group that is neither the item's nor the target's
    has its items unchanged. *)
Theorem item_drop_keeps_groups h st m si S i x :
  stored h (groups st) m → wf m →
  m !! si = Some S → g_items S !! i = Some x →
  handleDragEnd (mkDragEvent (item_handle S x) None) st h
    = (Ok (settled (groups st)), h) ∧
  ∀ ov ti, target_in m ov ti →
    ∃ h' m',
      handleDragEnd (mkDragEvent (item_handle S x) (Some ov)) st h
        = (Ok (settled (groups st)), h') ∧
      stored h' (groups st) m' ∧
      length m' = length m ∧
      g_id <$> m' = g_id <$> m ∧
      g_title <$> m' = g_title <$> m ∧
      g_isCollapsed <$> m' = g_isCollapsed <$> m ∧
      ∀ k, k ≠ si → k ≠ ti → m' !! k = m !! k.
Proof.
  intros Hst Hwf HS Hx. split; [done|]. intros ov ti Hov.
  destruct (drop_item h (groups st) m si S i x ov ti Hst Hwf HS Hx Hov)
    as (h' & F & G & Hrun & Hst' & _).
  eexists h', _. split_and!; [|exact Hst'|..].
  - unfold handleDragEnd. simpl. by rewrite (bind_ok _ _ _ _ _ Hrun).
  - by rewrite !set_group_items_length.
  - by rewrite !set_group_items_ids.
  - by rewrite !set_group_items_frame.
  - by rewrite !set_group_items_frame.
  - intros k Hks Hkt. by rewrite !set_group_items_lookup_ne.
Qed.

Lemma item_drop_keeps_groups_witness :
  let st := initialState in
  handleDragEnd (mkDragEvent (item_handle group1 item1) None) st initialHeap
    = (Ok (settled (groups st)), initialHeap) ∧
  ∀ ov ti, target_in initialModel ov ti →
    ∃ h' m',
      handleDragEnd (mkDragEvent (item_handle group1 item1) (Some ov)) st initialHeap
        = (Ok (settled (groups st)), h') ∧
      stored h' (groups st) m' ∧
      length m' = length initialModel ∧
      g_id <$> m' = g_id <$> initialModel ∧
      g_title <$> m' = g_title <$> initialModel ∧
      g_isCollapsed <$> m' = g_isCollapsed <$> initialModel ∧
      ∀ k, k ≠ 0%nat → k ≠ ti → m' !! k = initialModel !! k.
Proof.
  intros st.
  apply (item_drop_keeps_groups initialHeap st initialModel 0 group1 0 item1).
  - apply stored_decide; by vm_compute.
  - apply wf_decide; by vm_compute.
  - reflexivity.
  - reflexivity.
Defined.

(** ** Conservation of the items *)

(** C3, as the code has it.  From a stored model whose identifiers are
    unique, take any sequence of drag-end events each of whose ids is in
    the model stored when it arrives.  After each of them — after the
    first [n], for every [n] — no exception has been raised, and the
    model then stored has the items of the first one, each once (no item
    lost, none twice), every item in exactly one group. *)
Theorem gestures_conserve_items evs h st m (n : nat) :
  stored h (groups st) m → wf m → gestures h st evs →
  ∃ h' st' m',
    handleDragEnds (take n evs) st h = (Ok st', h') ∧
    stored h' (groups st') m' ∧
    item_id <$> all_items m' ≡ₚ item_id <$> all_items m ∧
    NoDup (item_id <$> all_items m') ∧
    ∀ x, x ∈ all_items m →
      ∃ k g, m' !! k = Some g ∧ x ∈ g_items g ∧
        ∀ k' g', m' !! k' = Some g' → x ∈ g_items g' → k' = k.
Proof.
  intros Hst Hwf Hevs.
  destruct (gestures_conserve (take n evs) h st m Hst Hwf (gestures_take _ _ _ n Hevs))
    as (h' & st' & m' & Hrun & Hst' & Hperm & [_ Hnd] & Hone).
  exists h', st', m'. split_and!; try done. by rewrite Hperm.
Qed.

Lemma gestures_conserve_items_witness :
  let st := initialState in
  let evs := [ mkDragEvent (item_handle group1 item1) (Some (item_handle group2 item4));
               mkDragEvent (group_handle group1) None ] in
  ∃ h' st' m',
    handleDragEnds (take 2 evs) st initialHeap = (Ok st', h') ∧
    stored h' (groups st') m' ∧
    item_id <$> all_items m' ≡ₚ item_id <$> all_items initialModel ∧
    NoDup (item_id <$> all_items m') ∧
    ∀ x, x ∈ all_items initialModel →
      ∃ k g, m' !! k = Some g ∧ x ∈ g_items g ∧
        ∀ k' g', m' !! k' = Some g' → x ∈ g_items g' → k' = k.
Proof.
  intros st evs.
  apply (gestures_conserve_items evs initialHeap st initialModel 2).
  - apply stored_decide; by vm_compute.
  - apply wf_decide; by vm_compute.
  - apply (gestures_cons _ _ initialModel).
    + apply stored_decide; by vm_compute.
    + apply (gesture_dropped _ _ _ 1%nat).
      * by apply (source_item _ 0%nat group1 0%nat item1).
      * by apply (target_item _ 1%nat group2 0%nat item4).
    + intros st' h' Hrun. vm_compute in Hrun. injection Hrun as <- <-.
      eapply (gestures_cons _ _
        (insert_item 1 0 item1 (remove_item 0 0 initialModel))).
      * apply stored_decide; by vm_compute.
      * apply gesture_cancelled.
        by apply (source_group _ 0%nat
                    (with_items (delete 0%nat (g_items group1)) group1)).
      * intros; apply gestures_nil.
Defined.

(** C3 as it is written fails on a drop whose target names a group the
    model does not have: the item is taken out of its group, then the
    read of the missing group's [items] raises, and the item is in no
    group. *)
Lemma stale_target_loses_item :
  let st := initialState in
  let ev := mkDragEvent (item_handle group1 item1) (Some stale_placeholder) in
  ∃ h' m',
    handleDragEnds [ev] st initialHeap = (Throw TypeError, h') ∧
    stored h' (groups st) m' ∧
    ¬ item_id <$> all_items m' ≡ₚ item_id <$> all_items initialModel ∧
    ∀ g, g ∈ m' → item1 ∉ g_items g.
Proof.
  intros st ev.
  exists (snd (handleDragEnds [ev] st initialHeap)),
         (remove_item 0 0 initialModel).
  split_and!.
  - by vm_compute.
  - apply stored_decide; by vm_compute.
  - intros Hp%Permutation_length. vm_compute in Hp. discriminate.
  - apply Forall_forall. vm_compute.
    repeat constructor; intros Hin; repeat (inversion Hin as [|? ? ? Hin']; subst; clear Hin; rename Hin' into Hin).
Qed.

(** ** Drops that change nothing *)

(** C1, as the code has it.  A drag-end event with no drop target, with
    a dragged element that is neither a group nor an item, with a group
    dropped on itself or on a target that names no owning group, or with
    an item dropped on itself or on a target of no known kind, is
    answered without an exception, with the groups it was given and with
    the store as it was.  (An id that is in no group is not looked for:
    it is used as it is.) *)
Theorem drop_without_update ev st h :
  no_update ev →
  handleDragEnd ev st h = (Ok (settled (groups st)), h).
Proof.
  destruct ev as [act [ov|]]; unfold no_update, handleDragEnd; simpl; [|done].
  intros Hev. unfold dropUpdater.
  destruct (data_type (data act)) as [[| |]|]; simpl; try done.
  - destruct Hev as [-> | Hfalsy].
    + by rewrite String.eqb_refl.
    + destruct (String.eqb (drag_id act) (drag_id ov)); simpl; [done|].
      fold (owner ov). by rewrite Hfalsy.
  - destruct Hev as [-> | [-> ->]]; [done|]. by rewrite String.eqb_refl.
Qed.

Lemma drop_without_update_witness :
  handleDragEnd
    (mkDragEvent (group_handle group1)
       (Some (mkDraggable "item-4" (mkData (Some TItem) None))))
    initialState initialHeap
  = (Ok (settled (groups initialState)), initialHeap).
Proof.
  apply (drop_without_update
           (mkDragEvent (group_handle group1)
              (Some (mkDraggable "item-4" (mkData (Some TItem) None))))
           initialState initialHeap).
  right. reflexivity.
Defined.

(** C1 as it is written fails on ids the model does not have.  A group
    dropped on the header of an unknown group is moved to the end, since
    [arrayMove] counts the index [-1] from the end; an item dropped on
    the placeholder of an unknown group is taken out of its group before
    the read of the missing group raises a [TypeError]. *)
Lemma unknown_ids_are_not_ignored :
  let st := initialState in
  (∃ gs',
     handleDragEnd (mkDragEvent (group_handle group1) (Some stale_header))
       st initialHeap = (Ok (settled gs'), initialHeap) ∧
     snapshot initialHeap gs'
       = Some (raw (drop 1 initialModel ++ take 1 initialModel)) ∧
     snapshot initialHeap gs' ≠ snapshot initialHeap (groups st)) ∧
  (∃ h',
     handleDragEnd (mkDragEvent (item_handle group1 item1) (Some stale_placeholder))
       st initialHeap = (Throw TypeError, h') ∧
     snapshot h' (groups st) = Some (raw (remove_item 0 0 initialModel)) ∧
     snapshot h' (groups st) ≠ snapshot initialHeap (groups st)).
Proof.
  intros st. split.
  - exists [Some 2; Some 3; Some 1]%positive. split_and!.
    + by vm_compute.
    + by vm_compute.
    + vm_compute. discriminate.
  - eexists. split_and!.
    + by vm_compute.
    + by vm_compute.
    + vm_compute. discriminate.
Qed.

(** ** The input of a drop *)

(** C2 fails on the code: the updaters copy the [groups] array and then
    write into the items arrays of the group objects the copy shares
    with the input.  After an item of the first group of the initial
    model is dropped on an item of the second, the array that went in
    is returned, and read again it holds the new model and no longer
    the one it held.  So the updater is not a function of its input:
    run once more on the array it was given, as React runs updaters
    twice in strict mode, it finds [item-1] gone from the first group
    and moves that group's last item as well. *)
Theorem drop_writes_into_its_input :
  let st := initialState in
  let act := item_handle group1 item1 in
  let ov := item_handle group2 item4 in
  snapshot initialHeap (groups st) = Some (raw initialModel) ∧
  ∃ h',
    handleDragEnd (mkDragEvent act (Some ov)) st initialHeap
      = (Ok (settled (groups st)), h') ∧
    snapshot h' (groups st)
      = Some (raw (insert_item 1 0 item1 (remove_item 0 0 initialModel))) ∧
    snapshot h' (groups st) ≠ snapshot initialHeap (groups st) ∧
    ∃ h'',
      dropUpdater act ov (groups st) h' = (Ok (groups st), h'') ∧
      snapshot h'' (groups st)
        = Some (raw (insert_item 1 1 (mkItem "item-3" "Set up development environment")
                       (remove_item 0 1
                          (insert_item 1 0 item1 (remove_item 0 0 initialModel))))).
Proof.
  intros st act ov. split; [by vm_compute|].
  eexists. split_and!.
  - by vm_compute.
  - by vm_compute.
  - vm_compute. discriminate.
  - eexists. split.
    + by vm_compute.
    + by vm_compute.
Qed.

(** ** The drop indicator over an item *)

(** C8, as the code has it.  While an item is dragged over an item [y]
    of a group [T], the indicator names [T] and, for position, the
    number [getItemNumber] reads in the id of [y], less one (numbers
    below [2^53], which JavaScript holds exactly); where that id has no
    part [item-<digits>] the indicator stays as it was.  For an id
    [item-N] the position is [N - 1], and it is by that number that
    [SortableItem] draws the placeholder before [y]. *)
Theorem indicator_over_item act T y st :
  data_type (data act) = Some TItem →
  let st' := handleDragMove (mkDragEvent act (Some (item_handle T y))) st in
  (getItemNumber (item_id y) = None → dropIndicator st' = dropIndicator st) ∧
  (∀ n, getItemNumber (item_id y) = Some n → n < 2 ^ 53 →
     dropIndicator st' = Some (mkDropIndicator (Some (g_id T)) (Some (n - 1)))) ∧
  (∀ n : N, item_id y = "item-" +:+ pretty n → Z.of_N n < 2 ^ 53 →
     dropIndicator st'
     = Some (mkDropIndicator (Some (g_id T)) (Some (Z.of_N n - 1))) ∧
     showDropIndicatorBefore y (g_id T) (dropIndicator st') = true).
Proof.
  intros Hact st'.
  assert (Hmove : dropIndicator st'
    = match getItemNumber (item_id y) with
      | Some n => Some (mkDropIndicator (Some (g_id T)) (Some (n - 1)))
      | None => dropIndicator st
      end).
  { unfold st', handleDragMove. simpl. rewrite Hact. simpl.
    by destruct (getItemNumber (item_id y)). }
  split_and!.
  - intros Hnone. by rewrite Hmove, Hnone.
  - intros n Hsome _. by rewrite Hmove, Hsome.
  - intros n Hid _.
    rewrite Hmove, Hid, getItemNumber_pretty. split; [done|].
    unfold showDropIndicatorBefore. simpl.
    rewrite bool_decide_true by done. simpl.
    replace (Z.of_N n - 1 + 1) with (Z.of_N n) by lia.
    rewrite pretty_Z_of_N, Hid. apply String.eqb_refl.
Qed.

Lemma indicator_over_item_witness :
  let st' := handleDragMove
               (mkDragEvent (item_handle group1 item1) (Some (item_handle group2 item4)))
               initialState in
  (getItemNumber (item_id item4) = None →
     dropIndicator st' = dropIndicator initialState) ∧
  (∀ n, getItemNumber (item_id item4) = Some n → n < 2 ^ 53 →
     dropIndicator st' = Some (mkDropIndicator (Some (g_id group2)) (Some (n - 1)))) ∧
  (∀ n : N, item_id item4 = "item-" +:+ pretty n → Z.of_N n < 2 ^ 53 →
     dropIndicator st'
     = Some (mkDropIndicator (Some (g_id group2)) (Some (Z.of_N n - 1))) ∧
     showDropIndicatorBefore item4 (g_id group2) (dropIndicator st') = true).
Proof.
  apply (indicator_over_item (item_handle group1 item1) group2 item4 initialState).
  reflexivity.
Defined.

(** C8 as it is written fails in the initial model: [item-4] is the
    first item of its group, at index 0, and the indicator over it has
    position 3. *)
Lemma indicator_is_not_the_index :
  let ev := mkDragEvent (item_handle group1 item1) (Some (item_handle group2 item4)) in
  initialModel !! 1%nat = Some group2 ∧
  g_items group2 !! 0%nat = Some item4 ∧
  dropIndicator (handleDragMove ev initialState)
  = Some (mkDropIndicator (Some "group-2") (Some 3)) ∧
  dropIndicator (handleDragMove ev initialState)
  ≠ Some (mkDropIndicator (Some "group-2") (Some 0)).
Proof.
  intros ev. split_and!; [reflexivity..|]. vm_compute. discriminate.
Qed.

(** ** Collapse and expand *)

(** C9. On a stored model [handleToggleCollapse] raises nothing and
    writes into nothing that was there: the array it was given still
    holds the model.  The model it returns has a group for each group,
    with the same id, title and items; the groups named [groupId] have
    their [collapsed] flag flipped, every other group is as it was, and
    where no group has that id the model is the one given.  Toggled
    again, every group has the flag, the id, the title and the items it
    started with. *)
Theorem toggle_collapse_flips_the_named_group groupId h st m :
  stored h (groups st) m →
  ∃ h1 st1 m1,
    handleToggleCollapse groupId st h = (Ok st1, h1) ∧
    stored h1 (groups st1) m1 ∧
    stored h1 (groups st) m ∧
    length m1 = length m ∧
    (∀ k g, m !! k = Some g →
       ∃ g1, m1 !! k = Some g1 ∧
         g_id g1 = g_id g ∧ g_title g1 = g_title g ∧ g_items g1 = g_items g ∧
         (g_id g = groupId → collapsed g1 = negb (collapsed g)) ∧
         (g_id g ≠ groupId → g1 = g)) ∧
    ((∀ g, g ∈ m → g_id g ≠ groupId) → m1 = m) ∧
    ∃ h2 st2 m2,
      handleToggleCollapse groupId st1 h1 = (Ok st2, h2) ∧
      stored h2 (groups st2) m2 ∧
      length m2 = length m ∧
      ∀ k g, m !! k = Some g →
        ∃ g2, m2 !! k = Some g2 ∧
          g_id g2 = g_id g ∧ g_title g2 = g_title g ∧ g_items g2 = g_items g ∧
          collapsed g2 = collapsed g.
Proof.
  intros Hst.
  destruct (handleToggleCollapse_stored groupId h st m Hst)
    as (h1 & st1 & Hrun1 & Hst1 & Hin).
  destruct (handleToggleCollapse_stored groupId h1 st1 _ Hst1)
    as (h2 & st2 & Hrun2 & Hst2 & _).
  exists h1, st1, (toggleCollapse groupId m). split_and!; [done..| | | |].
  - unfold toggleCollapse. by rewrite length_fmap.
  - intros k g Hk. rewrite (toggleCollapse_lookup _ _ _ _ Hk).
    eexists. split; [done|].
    destruct (decide (g_id g = groupId)) as [Heq|Hne].
    + rewrite bool_decide_true by done. by split_and!.
    + rewrite bool_decide_false by done. by split_and!.
  - apply toggleCollapse_absent.
  - exists h2, st2, (toggleCollapse groupId (toggleCollapse groupId m)).
    split_and!; [done..| |].
    + unfold toggleCollapse. by rewrite !length_fmap.
    + intros k g Hk. by apply toggleCollapse_twice.
Qed.

Lemma toggle_collapse_flips_the_named_group_witness :
  let st := initialState in
  let m := initialModel in
  ∃ h1 st1 m1,
    handleToggleCollapse "group-2" st initialHeap = (Ok st1, h1) ∧
    stored h1 (groups st1) m1 ∧
    stored h1 (groups st) m ∧
    length m1 = length m ∧
    (∀ k g, m !! k = Some g →
       ∃ g1, m1 !! k = Some g1 ∧
         g_id g1 = g_id g ∧ g_title g1 = g_title g ∧ g_items g1 = g_items g ∧
         (g_id g = "group-2" → collapsed g1 = negb (collapsed g)) ∧
         (g_id g ≠ "group-2" → g1 = g)) ∧
    ((∀ g, g ∈ m → g_id g ≠ "group-2") → m1 = m) ∧
    ∃ h2 st2 m2,
      handleToggleCollapse "group-2" st1 h1 = (Ok st2, h2) ∧
      stored h2 (groups st2) m2 ∧
      length m2 = length m ∧
      ∀ k g, m !! k = Some g →
        ∃ g2, m2 !! k = Some g2 ∧
          g_id g2 = g_id g ∧ g_title g2 = g_title g ∧ g_items g2 = g_items g ∧
          collapsed g2 = collapsed g.
Proof.
  intros st m.
  apply (toggle_collapse_flips_the_named_group "group-2" initialHeap st m).
  apply stored_decide; by vm_compute.
Defined.

(** * Further properties of the code *)

(** ** [getItemNumber] *)

(** X1. [getItemNumber] reads the number written after the first
    [item-]: of an id [item-N] followed by anything that does not begin
    with a digit it answers [N], and zeros in front of the number do not
    count, so that ids such as [item-7] and [item-07] read the same.
    This for [N] below [2^53], the numbers JavaScript holds exactly. *)
Theorem getItemNumber_ignores_suffix_and_zeros (suf : string) (n : N) :
  take_digits suf = [] → Z.of_N n < 2 ^ 53 →
  getItemNumber ("item-" +:+ pretty n +:+ suf) = Some (Z.of_N n) ∧
  getItemNumber ("item-0" +:+ pretty n +:+ suf) = Some (Z.of_N n).
Proof.
  intros Hsuf _. split.
  - destruct (take_digits_pretty_app n suf Hsuf) as [Hne Hparse].
    by rewrite (getItemNumber_prefixed _ Hne), Hparse.
  - destruct (take_digits_pretty_app n suf Hsuf) as [Hne Hparse].
    change ("item-0" +:+ pretty n +:+ suf)
      with ("item-" +:+ String "0" (pretty n +:+ suf)).
    rewrite getItemNumber_prefixed by done.
    change (take_digits (String "0" (pretty n +:+ suf)))
      with ("0"%char :: take_digits (pretty n +:+ suf)).
    rewrite parseInt_cons, Hparse.
    change (digit_value "0") with 0. by rewrite Z.mul_0_l.
Qed.

Lemma getItemNumber_ignores_suffix_and_zeros_witness :
  getItemNumber ("item-" +:+ pretty 7%N +:+ "-copy") = Some (Z.of_N 7) ∧
  getItemNumber ("item-0" +:+ pretty 7%N +:+ "-copy") = Some (Z.of_N 7).
Proof.
  apply (getItemNumber_ignores_suffix_and_zeros "-copy" 7%N).
  - reflexivity.
  - reflexivity.
Defined.

(** ** The indicator and what the view makes of it *)

(** X2. While an item is dragged over the placeholder of a group, the
    indicator names that group with the position [null]; the view then
    highlights the placeholder of that group and of no group with
    another id, and draws the dashed box before no item. *)
Theorem indicator_over_placeholder act T st :
  data_type (data act) = Some TItem →
  let st' := handleDragMove (mkDragEvent act (Some (empty_handle T))) st in
  dropIndicator st' = Some (mkDropIndicator (Some (g_id T)) None) ∧
  (∀ gid, isEmptyActive gid (dropIndicator st') = true ↔ gid = g_id T) ∧
  (∀ z gid, showDropIndicatorBefore z gid (dropIndicator st') = false).
Proof.
  intros Hact st'.
  assert (Hmove : dropIndicator st' = Some (mkDropIndicator (Some (g_id T)) None)).
  { unfold st', handleDragMove. simpl. by rewrite Hact. }
  rewrite Hmove. split_and!; [done| |].
  - intros gid. apply isEmptyActive_iff.
  - intros z gid. unfold showDropIndicatorBefore. simpl. apply andb_false_r.
Qed.

Lemma indicator_over_placeholder_witness :
  let st' := handleDragMove
               (mkDragEvent (item_handle group1 item1) (Some (empty_handle group2)))
               initialState in
  dropIndicator st' = Some (mkDropIndicator (Some (g_id group2)) None) ∧
  (∀ gid, isEmptyActive gid (dropIndicator st') = true ↔ gid = g_id group2) ∧
  (∀ z gid, showDropIndicatorBefore z gid (dropIndicator st') = false).
Proof.
  apply (indicator_over_placeholder (item_handle group1 item1) group2 initialState).
  reflexivity.
Defined.

(** X3. While an item is dragged over the header of a group, the
    indicator names that group with position 0, and the view draws the
    dashed box before an item exactly when the item is rendered in that
    group and its id is [item-1]: the box is keyed to that id, not to
    the first item of the group.  No placeholder is highlighted. *)
Theorem indicator_over_header act T st :
  data_type (data act) = Some TItem →
  let st' := handleDragMove (mkDragEvent act (Some (group_handle T))) st in
  dropIndicator st' = Some (mkDropIndicator (Some (g_id T)) (Some 0)) ∧
  (∀ z gid, showDropIndicatorBefore z gid (dropIndicator st') = true
            ↔ gid = g_id T ∧ item_id z = "item-1") ∧
  (∀ gid, isEmptyActive gid (dropIndicator st') = false).
Proof.
  intros Hact st'.
  assert (Hmove : dropIndicator st'
                  = Some (mkDropIndicator (Some (g_id T)) (Some 0))).
  { unfold st', handleDragMove. simpl. by rewrite Hact. }
  rewrite Hmove. split_and!; [done| |].
  - intros z gid. apply showDropIndicatorBefore_iff.
  - intros gid. unfold isEmptyActive. simpl. apply andb_false_r.
Qed.

Lemma indicator_over_header_witness :
  let st' := handleDragMove
               (mkDragEvent (item_handle group1 item1) (Some (group_handle group2)))
               initialState in
  dropIndicator st' = Some (mkDropIndicator (Some (g_id group2)) (Some 0)) ∧
  (∀ z gid, showDropIndicatorBefore z gid (dropIndicator st') = true
            ↔ gid = g_id group2 ∧ item_id z = "item-1") ∧
  (∀ gid, isEmptyActive gid (dropIndicator st') = false).
Proof.
  apply (indicator_over_header (item_handle group1 item1) group2 initialState).
  reflexivity.
Defined.

(** X4. While an item is dragged over an item whose id reads the number
    [n] (below [2^53]), the view draws the dashed box before an item
    exactly when the item is rendered in the hovered item's group and
    its id is [item-n] in plain decimal.  So the box stands before the
    hovered item itself only if that is its id: over an item named
    [item-07] it is drawn before the item [item-7] of the group, if
    there is one, and else nowhere. *)
Theorem indicator_box_is_keyed_by_id act T y st n :
  data_type (data act) = Some TItem →
  getItemNumber (item_id y) = Some n → n < 2 ^ 53 →
  let st' := handleDragMove (mkDragEvent act (Some (item_handle T y))) st in
  (∀ z gid, showDropIndicatorBefore z gid (dropIndicator st') = true
            ↔ gid = g_id T ∧ item_id z = "item-" +:+ pretty n) ∧
  (showDropIndicatorBefore y (g_id T) (dropIndicator st') = true
   ↔ item_id y = "item-" +:+ pretty n) ∧
  (∀ gid, isEmptyActive gid (dropIndicator st') = false).
Proof.
  intros Hact Hn _ st'.
  assert (Hmove : dropIndicator st'
                  = Some (mkDropIndicator (Some (g_id T)) (Some (n - 1)))).
  { unfold st', handleDragMove. simpl. rewrite Hact. simpl. by rewrite Hn. }
  rewrite Hmove.
  assert (Hiff : ∀ z gid,
    showDropIndicatorBefore z gid
      (Some (mkDropIndicator (Some (g_id T)) (Some (n - 1)))) = true
    ↔ gid = g_id T ∧ item_id z = "item-" +:+ pretty n).
  { intros z gid. rewrite showDropIndicatorBefore_iff.
    by replace (n - 1 + 1) with n by lia. }
  split_and!; [done| |].
  - rewrite Hiff. split; [by intros [_ ?]|by intros ?].
  - intros gid. unfold isEmptyActive. simpl. apply andb_false_r.
Qed.

Lemma indicator_box_is_keyed_by_id_witness :
  let y := mkItem "item-07" "seventh" in
  let st' := handleDragMove
               (mkDragEvent (item_handle group1 item1) (Some (item_handle group2 y)))
               initialState in
  (∀ z gid, showDropIndicatorBefore z gid (dropIndicator st') = true
            ↔ gid = g_id group2 ∧ item_id z = "item-" +:+ pretty 7) ∧
  (showDropIndicatorBefore y (g_id group2) (dropIndicator st') = true
   ↔ item_id y = "item-" +:+ pretty 7) ∧
  (∀ gid, isEmptyActive gid (dropIndicator st') = false).
Proof.
  intros y.
  apply (indicator_box_is_keyed_by_id (item_handle group1 item1) group2 y
           initialState 7).
  - reflexivity.
  - reflexivity.
  - reflexivity.
Defined.

(** ** Drops with ids that name nothing *)

(** X5. An item dropped with a group id in its data that no group of
    the stored model has — on a placeholder, on a header or on another
    item — makes the updater raise a [TypeError] at the read of
    [updatedGroups[-1].items], before anything is written: the store is
    as it was. *)
Theorem item_drop_from_unknown_group act ov st h m :
  stored h (groups st) m →
  data_type (data act) = Some TItem →
  (∀ g, g ∈ m → Some (g_id g) ≠ data_groupId (data act)) →
  data_type (data ov) = Some TEmpty ∨ data_type (data ov) = Some TGroup ∨
    (data_type (data ov) = Some TItem ∧ drag_id act ≠ drag_id ov) →
  handleDragEnd (mkDragEvent act (Some ov)) st h = (Throw TypeError, h).
Proof.
  intros Hst Hact Hmiss Hov.
  unfold handleDragEnd. simpl. apply bind_throw.
  unfold dropUpdater. rewrite Hact. simpl.
  destruct Hov as [-> | [-> | [-> Hne]]].
  - by eapply moveToEnd_source_missing.
  - by eapply moveToEnd_source_missing.
  - rewrite (eqb_false_ne _ _ Hne). simpl.
    by eapply moveOntoItem_source_missing.
Qed.

Lemma item_drop_from_unknown_group_witness :
  handleDragEnd
    (mkDragEvent (mkDraggable "item-1" (mkData (Some TItem) (Some "group-9")))
       (Some (group_handle group2)))
    initialState initialHeap
  = (Throw TypeError, initialHeap).
Proof.
  apply (item_drop_from_unknown_group _ _ initialState initialHeap initialModel).
  - apply stored_decide; by vm_compute.
  - reflexivity.
  - apply Forall_forall. by repeat constructor.
  - right. by left.
Defined.

(** X6. One run of the updater that [handleDragEnd] gives to
    [setGroups] for an item of the stored model dropped on a target
    whose group id no group has — a placeholder, a header, or an item
    other than itself: the item is taken out of its group, and then the
    updater raises a [TypeError] at the read of the missing group's
    [items].  That run leaves the store holding the model without the
    item, which is in no group. *)
Theorem item_drop_on_unknown_group h gs m si S i x ov :
  stored h gs m → wf m →
  m !! si = Some S → g_items S !! i = Some x →
  (∀ g, g ∈ m → Some (g_id g) ≠ owner ov) →
  data_type (data ov) = Some TEmpty ∨ data_type (data ov) = Some TGroup ∨
    (data_type (data ov) = Some TItem ∧ item_id x ≠ drag_id ov) →
  ∃ h',
    dropUpdater (item_handle S x) ov gs h = (Throw TypeError, h') ∧
    stored h' gs (remove_item si i m) ∧
    ∀ g, g ∈ remove_item si i m → x ∉ g_items g.
Proof.
  intros Hst Hwf HS Hx Hmiss Hov.
  assert (Hgone : ∀ g, g ∈ remove_item si i m → x ∉ g_items g).
  { intros g [k Hk]%list_elem_of_lookup Hin. unfold remove_item in Hk.
    destruct (decide (si = k)) as [<-|Hne].
    - rewrite (set_group_items_lookup _ _ _ _ HS) in Hk. injection Hk as <-.
      simpl in Hin.
      pose proof (NoDup_fmap_1 _ _ (wf_group_items _ _ _ Hwf HS)) as Hnd.
      rewrite (delete_Permutation _ _ _ Hx) in Hnd.
      by apply NoDup_cons in Hnd as [? _].
    - rewrite set_group_items_lookup_ne in Hk by done.
      apply Hne. eapply (wf_one_group m si k); eauto.
      by eapply list_elem_of_lookup_2. }
  assert (∃ h', dropUpdater (item_handle S x) ov gs h = (Throw TypeError, h') ∧
                stored h' gs (remove_item si i m)) as (h' & Hrun & Hst').
  { unfold dropUpdater, owner in *. simpl.
    destruct Hov as [Hty | [Hty | [Hty Hne]]]; rewrite Hty in *; simpl in *.
    - by eapply moveToEnd_target_missing.
    - by eapply moveToEnd_target_missing.
    - rewrite (eqb_false_ne _ _ Hne). simpl.
      by eapply moveOntoItem_target_missing. }
  by exists h'.
Qed.

Lemma item_drop_on_unknown_group_witness :
  ∃ h',
    dropUpdater (item_handle group1 item1) stale_placeholder
      (groups initialState) initialHeap
      = (Throw TypeError, h') ∧
    stored h' (groups initialState) (remove_item 0 0 initialModel) ∧
    ∀ g, g ∈ remove_item 0 0 initialModel → item1 ∉ g_items g.
Proof.
  apply (item_drop_on_unknown_group initialHeap (groups initialState) initialModel
           0 group1 0 item1 stale_placeholder).
  - apply stored_decide; by vm_compute.
  - apply wf_decide; by vm_compute.
  - reflexivity.
  - reflexivity.
  - apply Forall_forall. by repeat constructor.
  - by left.
Defined.

(** ** Drops of a group, whatever the ids *)

(** X7. On a stored model with at least one group, a drag-end event for
    a dragged group never raises and never writes the store, whatever
    the ids of the event: the groups come back as they are or with one
    group object moved, so that none is lost and none twice.  (An id
    that is not found counts as the last position.) *)
Theorem group_drop_permutes_groups act ov st h m :
  stored h (groups st) m → m ≠ [] →
  data_type (data act) = Some TGroup →
  ∃ gs' m',
    handleDragEnd (mkDragEvent act (Some ov)) st h = (Ok (settled gs'), h) ∧
    stored h gs' m' ∧ gs' ≡ₚ groups st ∧ m' ≡ₚ m.
Proof.
  intros Hst Hne Hact.
  assert (∃ gs' m', dropUpdater act ov (groups st) h = (Ok gs', h) ∧
                    stored h gs' m' ∧ gs' ≡ₚ groups st ∧ m' ≡ₚ m)
    as (gs' & m' & Hrun & Hrest).
  { unfold dropUpdater. rewrite Hact. simpl.
    destruct (String.eqb (drag_id act) (drag_id ov)); simpl.
    { by exists (groups st), m. }
    destruct (truthy _).
    2:{ by exists (groups st), m. }
    destruct (moveGroup_any h (groups st) m (drag_id act) (drag_id ov)
                (data_type (data ov))
                (if bool_decide (data_type (data ov) = Some TGroup)
                 then Some (drag_id ov) else data_groupId (data ov)) Hst Hne)
      as (i & j & _ & _ & Hrun).
    { intros Heq. by rewrite Heq. }
    exists (move_to i j (groups st)), (move_to i j m). split_and!.
    - done.
    - by apply stored_move_to.
    - apply move_to_Permutation.
    - apply move_to_Permutation. }
  exists gs', m'. split; [|done].
  unfold handleDragEnd. simpl. by rewrite (bind_ok _ _ _ _ _ Hrun).
Qed.

Lemma group_drop_permutes_groups_witness :
  ∃ gs' m',
    handleDragEnd (mkDragEvent (group_handle group1) (Some stale_header))
      initialState initialHeap = (Ok (settled gs'), initialHeap) ∧
    stored initialHeap gs' m' ∧ gs' ≡ₚ groups initialState ∧ m' ≡ₚ initialModel.
Proof.
  apply (group_drop_permutes_groups (group_handle group1) stale_header
           initialState initialHeap initialModel).
  - apply stored_decide; by vm_compute.
  - discriminate.
  - reflexivity.
Defined.

(** ** There and back *)

(** X8. In a stored model whose identifiers are unique and not empty, a
    group dropped on the header of another group, and then dropped on
    the header of the group that has taken its place, is back where it
    was: [groups] is again the array of the same group objects in the
    same order, and the store was not written. *)
Theorem group_drop_there_and_back h st m i G j T :
  stored h (groups st) m → wf m → (∀ g, g ∈ m → g_id g ≠ "") →
  m !! i = Some G → m !! j = Some T → i ≠ j →
  ∃ gs1 m1 T',
    handleDragEnd (mkDragEvent (group_handle G) (Some (group_handle T))) st h
      = (Ok (settled gs1), h) ∧
    stored h gs1 m1 ∧
    m1 !! j = Some G ∧ m1 !! i = Some T' ∧
    handleDragEnd (mkDragEvent (group_handle G) (Some (group_handle T')))
      (settled gs1) h
      = (Ok (settled (groups st)), h).
Proof.
  intros Hst Hwf Hids HG HT Hne.
  pose proof (lookup_lt_Some _ _ _ HG) as Hi.
  pose proof (lookup_lt_Some _ _ _ HT) as Hj.
  pose proof (stored_length _ _ _ Hst) as Hlen.
  assert (Hrun1 := drop_group h (groups st) m i G j T (group_handle T) Hst Hwf HG HT
                     eq_refl (Hids T (list_elem_of_lookup_2 _ _ _ HT))
                     (wf_group_ids_differ m i j G T Hwf HG HT Hne)).
  pose proof (stored_move_to h _ m i j Hst) as Hst1.
  pose proof (wf_move_to i j m Hwf) as Hwf1.
  pose proof (move_to_lookup m i j G HG Hj) as HG1.
  destruct (lookup_lt_is_Some_2 (move_to i j m) i) as [T' HT'].
  { by rewrite move_to_length. }
  assert (HidT' : g_id T' ≠ "").
  { apply Hids. rewrite <-(move_to_Permutation i j m).
    by eapply list_elem_of_lookup_2. }
  assert (Hrun2 := drop_group h _ _ j G i T' (group_handle T') Hst1 Hwf1 HG1 HT'
                     eq_refl HidT'
                     (wf_group_ids_differ _ j i G T' Hwf1 HG1 HT' (not_eq_sym Hne))).
  rewrite move_to_back in Hrun2 by lia.
  exists (move_to i j (groups st)), (move_to i j m), T'. split_and!; try done.
  - unfold handleDragEnd. simpl. by rewrite (bind_ok _ _ _ _ _ Hrun1).
  - unfold handleDragEnd. simpl. by rewrite (bind_ok _ _ _ _ _ Hrun2).
Qed.

Lemma group_drop_there_and_back_witness :
  ∃ gs1 m1 T',
    handleDragEnd (mkDragEvent (group_handle group1) (Some (group_handle group2)))
      initialState initialHeap
      = (Ok (settled gs1), initialHeap) ∧
    stored initialHeap gs1 m1 ∧
    m1 !! 1%nat = Some group1 ∧ m1 !! 0%nat = Some T' ∧
    handleDragEnd (mkDragEvent (group_handle group1) (Some (group_handle T')))
      (settled gs1) initialHeap
      = (Ok (settled (groups initialState)), initialHeap).
Proof.
  apply (group_drop_there_and_back initialHeap initialState initialModel
           0 group1 1 group2).
  - apply stored_decide; by vm_compute.
  - apply wf_decide; by vm_compute.
  - apply Forall_forall. by repeat constructor.
  - reflexivity.
  - reflexivity.
  - lia.
Defined.

(** X9. In a stored model whose identifiers are unique, an item dropped
    on another item of its group, and then dropped on the item that has
    taken its place, is back where it was: the same array of group
    objects holds the model one started with. *)
Theorem item_drop_there_and_back h st m k G i x j y :
  stored h (groups st) m → wf m →
  m !! k = Some G → g_items G !! i = Some x → g_items G !! j = Some y → i ≠ j →
  ∃ h1 G1 y' h2,
    handleDragEnd (mkDragEvent (item_handle G x) (Some (item_handle G y))) st h
      = (Ok (settled (groups st)), h1) ∧
    stored h1 (groups st) (move_item k i j m) ∧
    move_item k i j m !! k = Some G1 ∧
    g_items G1 !! j = Some x ∧ g_items G1 !! i = Some y' ∧
    handleDragEnd (mkDragEvent (item_handle G1 x) (Some (item_handle G1 y')))
      (settled (groups st)) h1
      = (Ok (settled (groups st)), h2) ∧
    stored h2 (groups st) m.
Proof.
  intros Hst Hwf HG Hx Hy Hne.
  pose proof (lookup_lt_Some _ _ _ Hx) as Hi.
  pose proof (lookup_lt_Some _ _ _ Hy) as Hj.
  destruct (drop_item_same_group h (groups st) m k G i x j y Hst Hwf HG Hx Hy Hne)
    as (h1 & Hrun1 & Hst1).
  pose proof (wf_move_item k i j m G HG Hwf) as Hwf1.
  set (G1 := with_items (move_to i j (g_items G)) G).
  assert (HG1 : move_item k i j m !! k = Some G1).
  { unfold move_item. by rewrite (set_group_items_lookup _ _ _ _ HG). }
  assert (Hx1 : g_items G1 !! j = Some x).
  { simpl. by apply move_to_lookup. }
  destruct (lookup_lt_is_Some_2 (g_items G1) i) as [y' Hy'].
  { simpl. by rewrite move_to_length. }
  destruct (drop_item_same_group h1 (groups st) _ k G1 j x i y' Hst1 Hwf1 HG1 Hx1 Hy'
              (not_eq_sym Hne)) as (h2 & Hrun2 & Hst2).
  rewrite (move_item_back k i j m G HG Hi Hj) in Hst2.
  exists h1, G1, y', h2. split_and!; try done.
  - unfold handleDragEnd. simpl. by rewrite (bind_ok _ _ _ _ _ Hrun1).
  - unfold handleDragEnd. simpl. by rewrite (bind_ok _ _ _ _ _ Hrun2).
Qed.

Lemma item_drop_there_and_back_witness :
  ∃ h1 G1 y' h2,
    handleDragEnd
      (mkDragEvent
         (item_handle
            (mkGroup "g" "Group"
               [mkItem "A" "a"; mkItem "B" "b"; mkItem "C" "c"; mkItem "D" "d"] None)
            (mkItem "D" "d"))
         (Some (item_handle
                  (mkGroup "g" "Group"
                     [mkItem "A" "a"; mkItem "B" "b"; mkItem "C" "c"; mkItem "D" "d"]
                     None)
                  (mkItem "B" "b"))))
      (settled (refs_of exampleABCD)) (store_of exampleABCD)
      = (Ok (settled (groups (settled (refs_of exampleABCD)))), h1) ∧
    stored h1 (groups (settled (refs_of exampleABCD))) (move_item 0 3 1 exampleABCD) ∧
    move_item 0 3 1 exampleABCD !! 0%nat = Some G1 ∧
    g_items G1 !! 1%nat = Some (mkItem "D" "d") ∧ g_items G1 !! 3%nat = Some y' ∧
    handleDragEnd (mkDragEvent (item_handle G1 (mkItem "D" "d"))
                     (Some (item_handle G1 y')))
      (settled (groups (settled (refs_of exampleABCD)))) h1
      = (Ok (settled (groups (settled (refs_of exampleABCD)))), h2) ∧
    stored h2 (groups (settled (refs_of exampleABCD))) exampleABCD.
Proof.
  apply (item_drop_there_and_back (store_of exampleABCD)
           (settled (refs_of exampleABCD)) exampleABCD 0
           (mkGroup "g" "Group"
              [mkItem "A" "a"; mkItem "B" "b"; mkItem "C" "c"; mkItem "D" "d"] None)
           3 (mkItem "D" "d") 1 (mkItem "B" "b")).
  - apply stored_decide; by vm_compute.
  - apply wf_decide; by vm_compute.
  - reflexivity.
  - reflexivity.
  - reflexivity.
  - lia.
Defined.

(** ** What is rendered *)

(** X10. A gesture between elements the component has rendered for a
    stored model with unique identifiers (headers, the items and the
    placeholders of the groups that are not collapsed) never raises: the
    drag-end handler returns a store that holds a model with the same
    groups and the same items, each once, whatever was dragged onto
    whatever. *)
Theorem registered_drop_is_safe h st m ev :
  stored h (groups st) m → wf m →
  active ev ∈ registrations m →
  (∀ ov, over ev = Some ov → ov ∈ registrations m) →
  ∃ h' gs' m',
    handleDragEnd ev st h = (Ok (settled gs'), h') ∧
    stored h' gs' m' ∧ wf m' ∧
    g_id <$> m' ≡ₚ g_id <$> m ∧
    all_items m' ≡ₚ all_items m.
Proof.
  intros Hst Hwf Hact Hov. destruct ev as [act over_].
  destruct (registered_drop h st m act over_ Hst Hwf Hact Hov)
    as (h' & gs' & m' & Hrun & Hst' & Hg & Hi).
  exists h', gs', m'. split_and!; try done.
  by apply (wf_Permutation m m').
Qed.

Lemma registered_drop_is_safe_witness :
  ∃ h' gs' m',
    handleDragEnd (mkDragEvent (item_handle group1 item1) (Some (empty_handle group2)))
      initialState initialHeap = (Ok (settled gs'), h') ∧
    stored h' gs' m' ∧ wf m' ∧
    g_id <$> m' ≡ₚ g_id <$> initialModel ∧
    all_items m' ≡ₚ all_items initialModel.
Proof.
  apply (registered_drop_is_safe initialHeap initialState initialModel
           (mkDragEvent (item_handle group1 item1) (Some (empty_handle group2)))).
  - apply stored_decide; by vm_compute.
  - apply wf_decide; by vm_compute.
  - apply (list_elem_of_lookup_2 _ 1%nat). reflexivity.
  - intros ov [= <-]. apply (list_elem_of_lookup_2 _ 8%nat). reflexivity.
Defined.

(** X11. While a group of a stored model with unique identifiers is
    dragged by its header, the overlay shows that very group object, the
    one the store has at the group's position; a group whose id is the
    empty string gets no overlay. *)
Theorem overlay_of_dragged_group h st m k G ov :
  stored h (groups st) m → wf m → m !! k = Some G →
  ∃ l, groups st !! k = Some (Some l) ∧ holds h (Some l) G ∧
    DragOverlay (handleDragStart (mkDragEvent (group_handle G) ov) st) h
    = (Ok (if bool_decide (g_id G = "") then NoOverlay else GroupOverlay l), h).
Proof.
  intros Hst Hwf HG.
  destruct (activeGroup_group h st m k G ov Hst Hwf HG) as (l & Hl & Hh & Hrun).
  exists l. split_and!; [done..|].
  unfold DragOverlay. rewrite (bind_ok _ _ _ _ _ Hrun).
  unfold activeItem. simpl. unfold bind, ret. do 2 f_equal.
  case_bool_decide as Hid.
  - by rewrite Hid.
  - by rewrite (proj2 (String.eqb_neq _ _) Hid).
Qed.

Lemma overlay_of_dragged_group_witness :
  ∃ l, groups initialState !! 1%nat = Some (Some l) ∧
    holds initialHeap (Some l) group2 ∧
    DragOverlay (handleDragStart (mkDragEvent (group_handle group2) None) initialState)
      initialHeap
    = (Ok (if bool_decide (g_id group2 = "") then NoOverlay else GroupOverlay l),
       initialHeap).
Proof.
  apply (overlay_of_dragged_group initialHeap initialState initialModel 1 group2 None).
  - apply stored_decide; by vm_compute.
  - apply wf_decide; by vm_compute.
  - reflexivity.
Defined.

(** X12. While an item of a stored model with unique identifiers is
    dragged, the overlay shows that item, found again by its id through
    the group that holds it; an item whose id is the empty string gets no
    overlay. *)
Theorem overlay_of_dragged_item h st m k G i x ov :
  stored h (groups st) m → wf m → m !! k = Some G → g_items G !! i = Some x →
  DragOverlay (handleDragStart (mkDragEvent (item_handle G x) ov) st) h
  = (Ok (if bool_decide (item_id x = "") then NoOverlay else ItemOverlay x), h).
Proof.
  intros Hst Hwf HG Hx.
  pose proof (activeItem_item h st m k G i x ov Hst Hwf HG Hx) as Hrun.
  unfold DragOverlay. unfold activeGroup at 1. simpl.
  unfold bind at 1, ret at 1. rewrite (bind_ok _ _ _ _ _ Hrun).
  unfold ret. do 2 f_equal.
  case_bool_decide as Hid.
  - by rewrite Hid.
  - by rewrite (proj2 (String.eqb_neq _ _) Hid).
Qed.

Lemma overlay_of_dragged_item_witness :
  DragOverlay (handleDragStart (mkDragEvent (item_handle group2 item4) None) initialState)
    initialHeap
  = (Ok (if bool_decide (item_id item4 = "") then NoOverlay else ItemOverlay item4),
     initialHeap).
Proof.
  apply (overlay_of_dragged_item initialHeap initialState initialModel 1 group2 0 item4 None).
  - apply stored_decide; by vm_compute.
  - apply wf_decide; by vm_compute.
  - reflexivity.
  - reflexivity.
Defined.

(** X13. From the state the component starts in, through any sequence
    of collapse toggles and of gestures between rendered elements, the
    store holds a model with unique identifiers that has the groups and
    the items of the initial model, each once; in every such state a
    toggle and the end of any gesture between rendered elements return
    without raising. *)
Theorem reachable_states_keep_groups_and_items h st :
  reachable h st →
  ∃ m,
    stored h (groups st) m ∧ wf m ∧
    g_id <$> m ≡ₚ g_id <$> initialModel ∧
    all_items m ≡ₚ all_items initialModel ∧
    (∀ groupId, ∃ h' st', handleToggleCollapse groupId st h = (Ok st', h')) ∧
    (∀ ev, active ev ∈ registrations m →
           (∀ ov, over ev = Some ov → ov ∈ registrations m) →
           ∃ h' st', handleDragEnd ev st h = (Ok st', h')).
Proof.
  intros [m (Hst & Hwf & Hg & Hi)]%reachable_invariant.
  exists m. split_and!; [done..| |].
  - intros gid.
    destruct (handleToggleCollapse_stored gid h st m Hst) as (h' & st' & Hrun & _).
    eauto.
  - intros [act over_] Hact Hov.
    destruct (registered_drop h st m act over_ Hst Hwf Hact Hov)
      as (h' & gs' & m' & Hrun & _).
    eauto.
Qed.

Lemma reachable_states_keep_groups_and_items_witness :
  ∃ m,
    stored initialHeap
      (groups (handleDragStart (mkDragEvent (group_handle group1) None) initialState))
      m ∧
    wf m ∧
    g_id <$> m ≡ₚ g_id <$> initialModel ∧
    all_items m ≡ₚ all_items initialModel ∧
    (∀ groupId, ∃ h' st',
       handleToggleCollapse groupId
         (handleDragStart (mkDragEvent (group_handle group1) None) initialState)
         initialHeap = (Ok st', h')) ∧
    (∀ ev, active ev ∈ registrations m →
           (∀ ov, over ev = Some ov → ov ∈ registrations m) →
           ∃ h' st',
             handleDragEnd ev
               (handleDragStart (mkDragEvent (group_handle group1) None) initialState)
               initialHeap = (Ok st', h')).
Proof.
  apply (reachable_states_keep_groups_and_items initialHeap
           (handleDragStart (mkDragEvent (group_handle group1) None) initialState)).
  apply (reachable_step initialHeap initialState); [apply reachable_initial|].
  apply (step_start _ _ _ initialModel).
  - apply stored_decide; by vm_compute.
  - apply (list_elem_of_lookup_2 _ 0%nat). reflexivity.
Defined.

(** ** The list without placeholders *)

(** X14. The component as it was before the placeholders: a gesture
    between elements it has rendered for a stored model with unique
    identifiers (headers, and the items of the groups that are not
    collapsed) never raises, and the store it leaves holds a model with
    the same groups and the same items, each once. *)
Theorem Plain_registered_drop_is_safe h st m ev :
  stored h (Plain.groups st) m → wf m →
  active ev ∈ Plain.registrations m →
  (∀ ov, over ev = Some ov → ov ∈ Plain.registrations m) →
  ∃ h' gs' m',
    Plain.handleDragEnd ev st h = (Ok (Plain.mkState gs' None None), h') ∧
    stored h' gs' m' ∧ wf m' ∧
    g_id <$> m' ≡ₚ g_id <$> m ∧
    all_items m' ≡ₚ all_items m.
Proof.
  intros Hst Hwf Hact Hov. destruct ev as [act [ov|]].
  - destruct (Plain_registered_drop h (Plain.groups st) m act ov Hst Hwf Hact
                (Hov ov eq_refl)) as (h' & gs' & m' & Hrun & Hst' & Hg & Hi).
    exists h', gs', m'. split_and!; try done.
    + unfold Plain.handleDragEnd. simpl. by rewrite (bind_ok _ _ _ _ _ Hrun).
    + by apply (wf_Permutation m m').
  - by exists h, (Plain.groups st), m.
Qed.

Lemma Plain_registered_drop_is_safe_witness :
  ∃ h' gs' m',
    Plain.handleDragEnd
      (mkDragEvent (item_handle group1 item1) (Some (group_handle group2)))
      (Plain.mkState (refs_of initialModel) None None) initialHeap
    = (Ok (Plain.mkState gs' None None), h') ∧
    stored h' gs' m' ∧ wf m' ∧
    g_id <$> m' ≡ₚ g_id <$> initialModel ∧
    all_items m' ≡ₚ all_items initialModel.
Proof.
  apply (Plain_registered_drop_is_safe initialHeap
           (Plain.mkState (refs_of initialModel) None None) initialModel
           (mkDragEvent (item_handle group1 item1) (Some (group_handle group2)))).
  - apply stored_decide; by vm_compute.
  - apply wf_decide; by vm_compute.
  - apply (list_elem_of_lookup_2 _ 1%nat). reflexivity.
  - intros ov [= <-]. apply (list_elem_of_lookup_2 _ 4%nat). reflexivity.
Defined.

(** ** Item ids that name nothing *)

(** X15. An item whose id its source group does not have, dropped on a
    header or on a placeholder: the handler does not give up, it moves
    the last item of the source group to the end of the target group
    ([findIndex] gives [-1], and [splice(-1, 1)] counts from the end). *)
Theorem drop_of_unknown_item_moves_the_last h st m si S its z a ti T ov :
  stored h (groups st) m → wf m →
  m !! si = Some S → g_items S = its ++ [z] →
  (∀ x, x ∈ g_items S → item_id x ≠ a) →
  m !! ti = Some T →
  ov = group_handle T ∨ ov = empty_handle T →
  ∃ h',
    handleDragEnd
      (mkDragEvent (mkDraggable a (mkData (Some TItem) (Some (g_id S)))) (Some ov))
      st h
    = (Ok (settled (groups st)), h') ∧
    stored h' (groups st) (append_item ti z (remove_item si (length its) m)).
Proof.
  intros Hst Hwf HS Hlast Hmiss HT Hov.
  pose proof (set_group_items_ids si (delete (length its)) m) as Hids.
  assert (Hdel : delete (length its) (g_items S) = its).
  { by rewrite Hlast, delete_middle, app_nil_r. }
  assert (Hrem : remove_item si (length its) m = <[si := with_items its S]> m).
  { unfold remove_item. by rewrite (set_group_items_insert _ _ _ _ HS), Hdel. }
  assert (∃ T', remove_item si (length its) m !! ti = Some T' ∧ g_id T' = g_id T)
    as (T' & HT' & HidT).
  { unfold remove_item. destruct (decide (si = ti)) as [->|Hne].
    - rewrite (set_group_items_lookup _ _ _ _ HS). eexists. split; [done|].
      simpl. congruence.
    - rewrite set_group_items_lookup_ne by done. eauto. }
  assert (Hf1 := find_group m si S (wf_ids _ Hwf) HS).
  assert (Hf2 := find_item_missing (g_items S) a Hmiss).
  assert (Hf3 : list_find (λ g, Some (g_id g) = Some (g_id T))
                  (<[si := with_items its S]> m) = Some (ti, T')).
  { rewrite <-Hrem, <-HidT.
    apply find_group; [|done]. unfold remove_item. rewrite Hids. by apply wf_ids. }
  destruct (moveToEnd_item_missing h (groups st) m a _ _ si S its z ti T'
              Hst Hf1 Hf2 Hlast Hf3) as (h' & Hrun & Hst').
  exists h'. split.
  - unfold handleDragEnd. simpl.
    assert (Hupd : dropUpdater (mkDraggable a (mkData (Some TItem) (Some (g_id S)))) ov
                     (groups st) h = (Ok (groups st), h')).
    { rewrite <-Hrun. by destruct Hov as [-> | ->]. }
    by rewrite (bind_ok _ _ _ _ _ Hupd).
  - unfold append_item. rewrite (set_group_items_insert _ _ _ _ HT').
    by rewrite Hrem.
Qed.

Lemma drop_of_unknown_item_moves_the_last_witness :
  ∃ h',
    handleDragEnd
      (mkDragEvent (mkDraggable "item-9" (mkData (Some TItem) (Some (g_id group2))))
         (Some (empty_handle group1)))
      initialState initialHeap
    = (Ok (settled (groups initialState)), h') ∧
    stored h' (groups initialState)
      (append_item 0 (mkItem "item-5" "Design user interface")
         (remove_item 1 (length [item4]) initialModel)).
Proof.
  apply (drop_of_unknown_item_moves_the_last initialHeap initialState initialModel
           1 group2 [item4] (mkItem "item-5" "Design user interface") "item-9"
           0 group1 (empty_handle group1)).
  - apply stored_decide; by vm_compute.
  - apply wf_decide; by vm_compute.
  - reflexivity.
  - reflexivity.
  - apply Forall_forall. by repeat constructor.
  - reflexivity.
  - by right.
Defined.

(** X16. An item said to come from a group without items, dropped on
    the header or on the placeholder of a group: nothing is taken out,
    and [undefined] is pushed onto the items of the target group, so
    that the store no longer holds a model. *)
Theorem drop_from_empty_group_pushes_undefined h st m si S a ti T ov :
  stored h (groups st) m → wf m →
  m !! si = Some S → g_items S = [] →
  m !! ti = Some T →
  ov = group_handle T ∨ ov = empty_handle T →
  ∃ l o h',
    groups st !! ti = Some (Some l) ∧ objs h !! l = Some o ∧
    handleDragEnd
      (mkDragEvent (mkDraggable a (mkData (Some TItem) (Some (g_id S)))) (Some ov))
      st h
    = (Ok (settled (groups st)), h') ∧
    objs h' = objs h ∧
    arrs h' = <[items o := (Some <$> g_items T) ++ [None]]> (arrs h) ∧
    ∀ m', ¬ stored h' (groups st) m'.
Proof.
  intros Hst Hwf HS Hempty HT Hov.
  assert (Hf1 := find_group m si S (wf_ids _ Hwf) HS).
  assert (Hf3 := find_group m ti T (wf_ids _ Hwf) HT).
  destruct (moveToEnd_empty_source h (groups st) m a _ _ si S ti T Hst Hf1 Hempty Hf3)
    as (l & o & Hl & Ho & Hits & Hrun).
  exists l, o,
    (mkHeap (objs h) (<[items o := (Some <$> g_items T) ++ [None]]> (arrs h))).
  split_and!; [done|done| |done|done|].
  - unfold handleDragEnd. simpl.
    assert (Hupd : dropUpdater (mkDraggable a (mkData (Some TItem) (Some (g_id S)))) ov
                     (groups st) h
                   = (Ok (groups st),
                      mkHeap (objs h)
                        (<[items o := (Some <$> g_items T) ++ [None]]> (arrs h)))).
    { rewrite <-Hrun. by destruct Hov as [-> | ->]. }
    by rewrite (bind_ok _ _ _ _ _ Hupd).
  - intros m' Hst'%stored_holds.
    destruct (Forall2_lookup_l _ _ _ _ _ Hst' Hl) as (g' & _ & Hh).
    destruct Hh as (l' & o' & [= <-] & Ho' & _ & _ & _ & Hits').
    simpl in Ho', Hits'. rewrite Ho in Ho'. injection Ho' as <-.
    rewrite lookup_insert_eq in Hits'. injection Hits' as Hits'.
    assert (Hin : None ∈ Some <$> g_items g').
    { rewrite <-Hits'. apply elem_of_app. right. apply list_elem_of_here. }
    by apply list_elem_of_fmap in Hin as (? & ? & _).
Qed.

Lemma drop_from_empty_group_pushes_undefined_witness :
  ∃ l o h',
    groups (settled (refs_of exampleEmptyTarget)) !! 0%nat = Some (Some l) ∧
    objs (store_of exampleEmptyTarget) !! l = Some o ∧
    handleDragEnd
      (mkDragEvent (mkDraggable "A" (mkData (Some TItem) (Some "t")))
         (Some (empty_handle (mkGroup "s" "Source" [mkItem "A" "a"; mkItem "B" "b"] None))))
      (settled (refs_of exampleEmptyTarget)) (store_of exampleEmptyTarget)
    = (Ok (settled (groups (settled (refs_of exampleEmptyTarget)))), h') ∧
    objs h' = objs (store_of exampleEmptyTarget) ∧
    arrs h'
    = <[items o := (Some <$> [mkItem "A" "a"; mkItem "B" "b"]) ++ [None]]>
        (arrs (store_of exampleEmptyTarget)) ∧
    ∀ m', ¬ stored h' (groups (settled (refs_of exampleEmptyTarget))) m'.
Proof.
  apply (drop_from_empty_group_pushes_undefined (store_of exampleEmptyTarget)
           (settled (refs_of exampleEmptyTarget)) exampleEmptyTarget
           1 (mkGroup "t" "Target" [] None) "A"
           0 (mkGroup "s" "Source" [mkItem "A" "a"; mkItem "B" "b"] None)
           (empty_handle (mkGroup "s" "Source" [mkItem "A" "a"; mkItem "B" "b"] None))).
  - apply stored_decide; by vm_compute.
  - apply wf_decide; by vm_compute.
  - reflexivity.
  - reflexivity.
  - reflexivity.
  - by right.
Defined.

(** ** Collapsed groups *)



(** ** Ids without a number *)

(** X18. [getItemNumber] gives [null] exactly for the ids in which no
    [item-] is followed by a digit, and a number that is not negative
    for every other id. *)
Theorem getItemNumber_null_without_a_number (s : string) :
  (getItemNumber s = None ↔
   ∀ pre d suf, s = pre +:+ "item-" +:+ String d suf → is_digit d = false) ∧
  (∀ n, getItemNumber s = Some n → 0 ≤ n).
Proof.
  split.
  - apply getItemNumber_None.
  - intros n. apply getItemNumber_nonneg.
Qed.

(** X19. While an item is dragged over an item in whose id no [item-]
    is followed by a digit, [handleDragMove] changes nothing: the
    indicator of the last move stays where it was. *)
Theorem indicator_stays_over_item_without_number act T y st :
  data_type (data act) = Some TItem →
  (∀ pre d suf, item_id y = pre +:+ "item-" +:+ String d suf → is_digit d = false) →
  handleDragMove (mkDragEvent act (Some (item_handle T y))) st = st.
Proof.
  intros Hact Hid%getItemNumber_None.
  unfold handleDragMove. simpl. rewrite Hact. simpl. by rewrite Hid.
Qed.

Lemma indicator_stays_over_item_without_number_witness :
  handleDragMove
    (mkDragEvent (item_handle group1 item1)
       (Some (item_handle group2 (mkItem "task-a" "A task"))))
    (handleDragMove
       (mkDragEvent (item_handle group1 item1) (Some (empty_handle group2)))
       initialState)
  = handleDragMove
      (mkDragEvent (item_handle group1 item1) (Some (empty_handle group2)))
      initialState.
Proof.
  apply (indicator_stays_over_item_without_number
           (item_handle group1 item1) group2 (mkItem "task-a" "A task")).
  - reflexivity.
  - apply getItemNumber_None. reflexivity.
Defined.
